(** * WireViz: the connection resolution engine and the BOM aggregator

    A shallow embedding of [src/wireviz/wireviz.py] (function [parse]) and of
    [src/wireviz/Harness.py] (class [Harness]: [connect], [bom],
    [get_bom_index]), with the properties of the design document stated and
    settled against that code.

    Python values are embedded as follows.
    - [int] is [Z]; [str] is [string]; [None]/[int]/[str] scalars that share
      a variable are [pyval], on which [==] is equality ([bool] and [float]
      values, which [==] identifies with integers, are not embedded).
    - A [dict] whose iteration order matters ([Harness.connectors],
      [Harness.cables]) is an association list in insertion order; a [dict]
      used only through lookups and stores ([designators_and_templates],
      [autogenerated_designators]) is a [gmap].
    - A raised [Exception] is a value of [exn]; a method that mutates [self]
      is a function from the state to a result and the state it leaves.
    - Quantities are Python numbers ([int] or [float]); the embedding keeps
      them abstract behind the interface [PyNumber]. *)

From Stdlib Require Import ZArith String Ascii List Permutation Sorted Lia.
From Stdlib Require Import DecimalString DecimalPos DecimalZ.
From stdpp Require Import base decidable option list sorting gmap strings.

Local Open Scope Z_scope.
Set Warnings "-clear-no-such-hyp".

(** ** Python scalars *)

Inductive pyval : Type :=
  | PNone
  | PInt (z : Z)
  | PStr (s : string).

#[global] Instance pyval_eq_dec : EqDecision pyval.
Proof. solve_decision. Defined.

(** [str(n)] for an [int]. *)
Definition str_of_int (z : Z) : string := NilZero.string_of_int (Z.to_int z).

(** [str(v)], as an f-string formats [v]. *)
Definition py_str (v : pyval) : string :=
  match v with
  | PNone => "None"
  | PInt z => str_of_int z
  | PStr s => s
  end.

(** Truthiness, as [if v] tests it. *)
Definition truthy (v : pyval) : bool :=
  match v with
  | PNone => false
  | PInt z => negb (z =? 0)
  | PStr s => negb (String.eqb s "")
  end.

(** [x in l] on a list. *)
Definition py_in {A} `{EqDecision A} (x : A) (l : list A) : bool :=
  bool_decide (x ∈ l).

(** [l.index(x)]: the first position holding [x]; Python raises when there
    is none. *)
Fixpoint py_index {A} `{EqDecision A} (l : list A) (x : A) : option nat :=
  match l with
  | [] => None
  | y :: l' => if decide (y = x) then Some O else S <$> py_index l' x
  end.

(** [l.count(x)]. *)
Fixpoint py_count {A} `{EqDecision A} (l : list A) (x : A) : nat :=
  match l with
  | [] => O
  | y :: l' => if decide (y = x) then S (py_count l' x) else py_count l' x
  end.

(** ** Exceptions

    The code raises plain [Exception]s told apart by their message; the
    constructors carry the names the design document gives them. The last
    five are the interpreter's own. *)

Inductive exn : Type :=
  | AmbiguousConnectionCount
  | InconsistentConnectionCount
  | DesignatorConflict
  | AmbiguousPinReference
  | DuplicatePinLabel
  | UnknownPin
  | FormatError
  | ValueError
  | TypeError
  | KeyError
  | IndexError.

#[global] Instance exn_eq_dec : EqDecision exn.
Proof. solve_decision. Defined.

(** A computation over a mutable state [S]: it returns a value or raises,
    and in both cases leaves a state behind. *)
Definition M (S A : Type) : Type := S → (exn + A) * S.

Definition ret {S A} (a : A) : M S A := λ s, (inr a, s).
Definition raise {S A} (e : exn) : M S A := λ s, (inl e, s).
Definition bind {S A B} (m : M S A) (k : A → M S B) : M S B :=
  λ s, match m s with
       | (inl e, s') => (inl e, s')
       | (inr a, s') => k a s'
       end.
Definition get {S} : M S S := λ s, (inr s, s).
Definition modify {S} (f : S → S) : M S unit := λ s, (inr tt, f s).
Definition lift {S A} (r : exn + A) : M S A := λ s, (r, s).

Declare Scope py_scope.
Delimit Scope py_scope with py.
Notation "'do' x <- m ; k" := (bind m (λ x, k))
  (at level 10, x name, m at level 100, k at level 200) : py_scope.
Notation "'do' ' p <- m ; k" := (bind m (λ x, match x with p => k end))
  (at level 10, p pattern, m at level 100, k at level 200) : py_scope.
Notation "m ;; k" := (bind m (λ _, k))
  (at level 100, k at level 200, right associativity) : py_scope.

(** [for x in l: body x]. *)
Fixpoint for_each {S A} (l : list A) (body : A → M S unit) : M S unit :=
  match l with
  | [] => ret tt
  | x :: l' => (body x ;; for_each l' body)%py
  end.

(** The pure part of the same, for code that raises but does not mutate. *)
Definition bind_r {A B} (r : exn + A) (k : A → exn + B) : exn + B :=
  match r with
  | inl e => inl e
  | inr a => k a
  end.

Fixpoint map_r {A B} (f : A → exn + B) (l : list A) : exn + list B :=
  match l with
  | [] => inr []
  | x :: l' => bind_r (f x) (λ y, bind_r (map_r f l') (λ ys, inr (y :: ys)))
  end.

(** ** Insertion-ordered dictionaries with string keys *)

Section dict.
Context {V : Type}.

Definition dict := list (string * V).

Fixpoint dict_get (k : string) (d : dict) : option V :=
  match d with
  | [] => None
  | (k', v) :: d' => if decide (k' = k) then Some v else dict_get k d'
  end.

Definition dict_mem (k : string) (d : dict) : bool :=
  bool_decide (is_Some (dict_get k d)).

(** [d[k] = v]: an existing key keeps its position. *)
Fixpoint dict_set (k : string) (v : V) (d : dict) : dict :=
  match d with
  | [] => [(k, v)]
  | (k', v') :: d' =>
      if decide (k' = k) then (k, v) :: d' else (k', v') :: dict_set k v d'
  end.

Definition dict_values (d : dict) : list V := d.*2.
End dict.
Arguments dict : clear implicits.

(** ** The entity model

    Modelled from the spec: [DataClasses.py] is not among the sources. The
    records keep the attributes that [Harness.connect] and [Harness.bom]
    read, with the types the design document gives them (section 3). *)

(** The numbers a quantity or a length can be. [q_round3 q] is
    [round(q, 3)]. *)
Class PyNumber (Qty : Type) : Type := {
  q_zero : Qty;
  q_one : Qty;
  q_add : Qty → Qty → Qty;
  q_mul : Qty → Qty → Qty;
  q_round3 : Qty → Qty
}.

(** A manufacturer or part-number attribute of a cable: one value, or one
    per wire of a bundle. *)
Inductive cable_attr : Type :=
  | Scalar (v : pyval)
  | PerWire (l : list pyval).

(** The [designators] value of a BOM entry: [None], one name or a list. *)
Inductive desig : Type :=
  | DNone
  | DStr (s : string)
  | DList (l : list string).

Module AdditionalComponent.
Record t {Qty : Type} : Type := mk {
  description : string;
  qty : Qty;
  unit : pyval;
  manufacturer : pyval;
  mpn : pyval;
  pn : pyval;
  qty_multiplier : pyval
}.
Arguments t : clear implicits.
End AdditionalComponent.

Module Connector.
Record t {Qty : Type} : Type := mk {
  name : string;
  pins : list pyval;
  pinlabels : list pyval;
  type : pyval;
  subtype : pyval;
  pincount : Z;
  show_pincount : bool;
  color : pyval;
  manufacturer : pyval;
  mpn : pyval;
  pn : pyval;
  show_name : bool;
  ignore_in_bom : bool;
  additional_components : list (AdditionalComponent.t Qty)
}.
Arguments t : clear implicits.
End Connector.

(** A connection record of a cable:
    [(from_name, from_pin, via_port, to_name, to_pin)]. *)
Record Connection : Type := mkConnection {
  from_name : option string;
  from_pin : pyval;
  via_port : pyval;
  to_name : option string;
  to_pin : pyval
}.

#[global] Instance Connection_eq_dec : EqDecision Connection.
Proof. solve_decision. Defined.

Inductive shield_t : Type :=
  | ShieldBool (b : bool)
  | ShieldColor (c : string).

Module Cable.
Record t {Qty : Type} : Type := mk {
  name : string;
  type : pyval;
  wirecount : Z;
  gauge : pyval;
  gauge_unit : pyval;
  shield : shield_t;
  length : Qty;
  category : pyval;
  colors : list string;
  manufacturer : cable_attr;
  mpn : cable_attr;
  pn : cable_attr;
  show_name : bool;
  ignore_in_bom : bool;
  additional_components : list (AdditionalComponent.t Qty);
  connections : list Connection
}.
Arguments t : clear implicits.

(** Modelled from the spec: the method [Cable.connect] is not among the
    sources. A cable holds a list of connection records (section 3 of the
    design document); a call adds one record at its end. *)
Definition connect {Qty} (self : t Qty) (from_name : option string)
    (from_pin via : pyval) (to_name : option string) (to_pin : pyval) : t Qty :=
  mk Qty (name self) (type self) (wirecount self) (gauge self)
    (gauge_unit self) (shield self) (length self) (category self)
    (colors self) (manufacturer self) (mpn self) (pn self)
    (show_name self) (ignore_in_bom self) (additional_components self)
    (connections self ++ [mkConnection from_name from_pin via to_name to_pin]).
End Cable.

Inductive Mate : Type :=
  | MatePin (from_name : string) (from_pin : pyval)
            (to_name : string) (to_pin : pyval) (shape : string)
  | MateComponent (from_name to_name : string) (shape : string).

(** A freestanding BOM line of the input document, a mapping read with
    [item.get]: a missing [description] or [qty] has a default of its own,
    the other keys default to [None]. *)
Record BomItem {Qty : Type} : Type := mkBomItem {
  bi_description : option string;
  bi_qty : option Qty;
  bi_unit : pyval;
  bi_designators : desig;
  bi_manufacturer : pyval;
  bi_mpn : pyval;
  bi_pn : pyval
}.
Arguments BomItem : clear implicits.

(** A BOM entry before grouping, and a row of the BOM after it (an entry
    with its [id]). *)
Module BomEntry.
Record t {Qty : Type} : Type := mk {
  item : string;
  qty : Qty;
  unit : pyval;
  designators : desig;
  manufacturer : pyval;
  mpn : pyval;
  pn : pyval
}.
Arguments t : clear implicits.
End BomEntry.

Module BomRow.
Record t {Qty : Type} : Type := mk {
  item : string;
  qty : Qty;
  unit : pyval;
  designators : list string;
  manufacturer : pyval;
  mpn : pyval;
  pn : pyval;
  id : Z
}.
Arguments t : clear implicits.
End BomRow.

(** ** The harness *)

Record Harness {Qty : Type} : Type := mkHarness {
  connectors : dict (Connector.t Qty);
  cables : dict (Cable.t Qty);
  mates : list Mate;
  _bom : list (BomRow.t Qty);
  additional_bom_items : list (BomItem Qty)
}.
Arguments Harness : clear implicits.

Section harness.
Context {Qty : Type} {num : PyNumber Qty}.

#[local] Abbreviation Harness := (Harness Qty).

Definition Harness_init : Harness := mkHarness Qty [] [] [] [] [].

Definition set_connectors (d : dict (Connector.t Qty)) (h : Harness) : Harness :=
  mkHarness Qty d (cables h) (mates h) (_bom h) (additional_bom_items h).
Definition set_cables (d : dict (Cable.t Qty)) (h : Harness) : Harness :=
  mkHarness Qty (connectors h) d (mates h) (_bom h) (additional_bom_items h).
Definition set_bom (b : list (BomRow.t Qty)) (h : Harness) : Harness :=
  mkHarness Qty (connectors h) (cables h) (mates h) b (additional_bom_items h).

Definition add_connector (c : Connector.t Qty) : M Harness unit :=
  modify (λ self, set_connectors (dict_set (Connector.name c) c (connectors self)) self).

Definition add_cable (c : Cable.t Qty) : M Harness unit :=
  modify (λ self, set_cables (dict_set (Cable.name c) c (cables self)) self).

Definition add_bom_item (i : BomItem Qty) : M Harness unit :=
  modify (λ self, mkHarness Qty (connectors self) (cables self) (mates self)
                    (_bom self) (additional_bom_items self ++ [i])).

(** *** [Harness.connect]

    One round of the loop over the two ends: [name] and [pin] are the
    loop variables, [fp] and [tp] the current values of the arguments
    [from_pin] and [to_pin], which the body may reassign. *)
Definition connect_end (self : Harness) (from_name to_name : option string)
    (name : option string) (pin : pyval) (fp tp : pyval) : exn + (pyval * pyval) :=
  match name with
  | None => inr (fp, tp)
  | Some n =>
    match dict_get n (connectors self) with
    | None => inr (fp, tp)
    | Some connector =>
      let pins := Connector.pins connector in
      let pinlabels := Connector.pinlabels connector in
      bind_r
        (if py_in pin pins && py_in pin pinlabels then
           if bool_decide (py_index pins pin = py_index pinlabels pin)
           then inr tt
           else inl AmbiguousPinReference
         else inr tt)
        (λ _,
      bind_r
        (if py_in pin pinlabels then
           if bool_decide (1 < py_count pinlabels pin)%nat
           then inl DuplicatePinLabel
           else
             match py_index pinlabels pin with
             | None => inl ValueError
             | Some index =>
               match pins !! index with
               | None => inl IndexError
               | Some pin' =>
                 inr (pin',
                      if decide (name = from_name) then pin' else fp,
                      if decide (name = to_name) then pin' else tp)
               end
             end
         else inr (pin, fp, tp))
        (λ '(pin, fp, tp),
           if negb (py_in pin pins) then inl UnknownPin else inr (fp, tp)))
    end
  end.

Definition connect (from_name : option string) (from_pin : pyval)
    (via_name : string) (via_pin : pyval)
    (to_name : option string) (to_pin : pyval) : M Harness unit :=
  (do self <- get;
   do '(fp, tp) <- lift (connect_end self from_name to_name from_name from_pin from_pin to_pin);
   do '(fp, tp) <- lift (connect_end self from_name to_name to_name to_pin fp tp);
   match dict_get via_name (cables self) with
   | None => raise KeyError
   | Some cable =>
     modify (set_cables (dict_set via_name
               (Cable.connect cable from_name fp via_pin to_name tp)
               (cables self)))
   end)%py.

End harness.

(** ** Strings *)

(** [c in s] for a one-character [c]. *)
Fixpoint str_contains (c : ascii) (s : string) : bool :=
  match s with
  | EmptyString => false
  | String a s' => if decide (a = c) then true else str_contains c s'
  end.

(** [s.split(c)] for a one-character separator [c]. *)
Fixpoint str_split (c : ascii) (s : string) : list string :=
  match s with
  | EmptyString => [EmptyString]
  | String a s' =>
    if decide (a = c) then EmptyString :: str_split c s'
    else match str_split c s' with
         | [] => [String a EmptyString]
         | w :: ws => String a w :: ws
         end
  end.

(** ** The range expander

    Modelled from the spec: [wv_helper.expand] is not among the sources.
    The design document, section 4.1: the value is a single scalar, a list
    of scalars, or a string of comma-separated tokens, each a single integer
    or an inclusive [start-end] range; the result is the ordered sequence of
    the expanded integers, a descending range staying descending; a
    malformed token (non-numeric, incomplete range) is a [FormatError]. *)

Inductive pins_value : Type :=
  | VScalar (v : pyval)
  | VList (l : list pyval).

Definition digit_of (a : ascii) : option Z :=
  let n := Z.of_N (N_of_ascii a) in
  if bool_decide (48 ≤ n ≤ 57) then Some (n - 48) else None.

Fixpoint int_of_digits (acc : Z) (s : string) : option Z :=
  match s with
  | EmptyString => Some acc
  | String a s' =>
    match digit_of a with
    | Some d => int_of_digits (10 * acc + d) s'
    | None => None
    end
  end.

Definition int_of_str (s : string) : option Z :=
  match s with
  | EmptyString => None
  | _ => int_of_digits 0 s
  end.

(** [a, a+1, ..., b] when [a <= b], [a, a-1, ..., b] otherwise. *)
Definition int_range (a b : Z) : list Z :=
  if bool_decide (a ≤ b)
  then (λ i : nat, a + Z.of_nat i) <$> seq 0 (Z.to_nat (b - a + 1))
  else (λ i : nat, a - Z.of_nat i) <$> seq 0 (Z.to_nat (a - b + 1)).

Definition expand_token (tok : string) : exn + list Z :=
  match str_split "-" tok with
  | [n] =>
    match int_of_str n with
    | Some z => inr [z]
    | None => inl FormatError
    end
  | [a; b] =>
    match int_of_str a, int_of_str b with
    | Some x, Some y => inr (int_range x y)
    | _, _ => inl FormatError
    end
  | _ => inl FormatError
  end.

Definition expand_scalar (v : pyval) : exn + list Z :=
  match v with
  | PNone => inl FormatError
  | PInt z => inr [z]
  | PStr s => bind_r (map_r expand_token (str_split "," s)) (λ ls, inr (concat ls))
  end.

Definition expand (v : pins_value) : exn + list Z :=
  match v with
  | VScalar x => expand_scalar x
  | VList l => bind_r (map_r expand_scalar l) (λ ls, inr (concat ls))
  end.

(** ** The connection resolution engine: [wireviz.parse] *)

(** An entry of a connection set as the document gives it: a bare
    designator, a list of designators, or a single-key mapping from a
    designator to pin-range shorthand. *)
Inductive entry : Type :=
  | EStr (s : string)
  | EList (l : list string)
  | EDict (key : string) (value : pins_value).

(** An entry once the bare strings have been widened: a list or a mapping. *)
Inductive wide_entry : Type :=
  | WList (l : list string)
  | WDict (key : string) (value : pins_value).

(** A single-key mapping [{designator: pin}]. *)
Definition pin_item : Type := string * pyval.

(** The arguments of one call of [Harness.connect]. *)
Definition connect_args : Type :=
  option string * pyval * string * pyval * option string * pyval.

(** The transposition [list(map(list, zip( *rows)))]: as many chains as the
    shortest row has items. *)
Fixpoint zip_star {A} (rows : list (list A)) : list (list A) :=
  match rows with
  | [] => []
  | r :: rs =>
    match rs with
    | [] => (λ x, [x]) <$> r
    | _ => zip_with cons r (zip_star rs)
    end
  end.

(** [enumerate(l)]. *)
Definition enumerate {A} (l : list A) : list (nat * A) := zip (seq 0 (length l)) l.

Section parse.
Context {Qty : Type} {num : PyNumber Qty}.

(** The local state of [parse] that the connection loop reads and writes;
    [connect_calls] is the sequence of argument tuples the loop hands to
    [harness.connect], which the code prints before each call. *)
Record ParseState : Type := mkParseState {
  harness : Harness Qty;
  designators_and_templates : gmap string string;
  autogenerated_designators : gmap string Z;
  connect_calls : list connect_args
}.

Definition set_harness (h : Harness Qty) (st : ParseState) : ParseState :=
  mkParseState h (designators_and_templates st) (autogenerated_designators st)
    (connect_calls st).
Definition set_designators_and_templates (d : gmap string string)
    (st : ParseState) : ParseState :=
  mkParseState (harness st) d (autogenerated_designators st) (connect_calls st).
Definition set_autogenerated_designators (d : gmap string Z)
    (st : ParseState) : ParseState :=
  mkParseState (harness st) (designators_and_templates st) d (connect_calls st).
Definition log_connect (c : connect_args) (st : ParseState) : ParseState :=
  mkParseState (harness st) (designators_and_templates st)
    (autogenerated_designators st) (connect_calls st ++ [c]).

(** A method of the harness run on the harness of the state. *)
Definition on_harness {A} (m : M (Harness Qty) A) : M ParseState A :=
  λ st, let '(r, h) := m (harness st) in (r, set_harness h st).

(** [f'_{template}_{n}']. *)
Definition auto_designator (template : string) (n : Z) : string :=
  "_" +:+ template +:+ "_" +:+ str_of_int n.

(** The counter of a template, [autogenerated_designators.get(template, 0)]. *)
Definition auto_count (st : ParseState) (template : string) : Z :=
  default 0 (autogenerated_designators st !! template).

Definition resolve_designator (inp : string) : M ParseState (string * string) :=
  if str_contains "." inp then
    match str_split "." inp with
    | [template; designator] =>
      (do designator <-
         (if decide (designator = "") then
            do st <- get;
            let n := auto_count st template + 1 in
            modify (set_autogenerated_designators
                      (<[template := n]> (autogenerated_designators st))) ;;
            ret (auto_designator template n)
          else ret designator);
       do st <- get;
       match designators_and_templates st !! designator with
       | Some bound =>
         if decide (bound ≠ template) then raise DesignatorConflict
         else ret (template, designator)
       | None =>
         modify (set_designators_and_templates
                   (<[designator := template]> (designators_and_templates st))) ;;
         ret (template, designator)
       end)%py
    | _ => raise ValueError
    end
  else
    (do st <- get;
     match designators_and_templates st !! inp with
     | Some _ => ret (inp, inp)
     | None =>
       modify (set_designators_and_templates
                 (<[inp := inp]> (designators_and_templates st))) ;;
       ret (inp, inp)
     end)%py.

(** [[f(x) for x in l]] for an [f] that reads and writes the state. *)
Fixpoint map_m {S A B} (f : A → M S B) (l : list A) : M S (list B) :=
  match l with
  | [] => ret []
  | x :: l' => (do y <- f x; do ys <- map_m f l'; ret (y :: ys))%py
  end.

(** *** The number of parallel connections of a set *)

(** The list [connectioncount] as the first loop fills it. *)
Definition connection_counts (connection_set : list entry) : exn + list (option nat) :=
  map_r (λ e,
    match e with
    | EList l => inr (Some (length l))
    | EDict _ value => bind_r (expand value) (λ pinlist, inr (Some (length pinlist)))
    | EStr _ => inr None
    end) connection_set.

(** Truthiness of an element of [connectioncount], as [any] and
    [filter(None, ...)] test it: [None] and [0] are false. *)
Definition count_truthy (c : option nat) : bool :=
  match c with
  | Some (S _) => true
  | _ => false
  end.

(** [list(filter(None, connectioncount))]. *)
Definition filter_none (counts : list (option nat)) : list nat :=
  omap (λ c, if count_truthy c then c else None) counts.

Definition determine_count (connection_set : list entry) : exn + nat :=
  bind_r (connection_counts connection_set) (λ connectioncount,
    if negb (existsb count_truthy connectioncount)
    then inl AmbiguousConnectionCount
    else if bool_decide (1 < size (list_to_set (filter_none connectioncount) : gset nat))%nat
    then inl InconsistentConnectionCount
    else match filter_none connectioncount with
         | [] => inl IndexError
         | n :: _ => inr n
         end).

(** *** Widening the bare strings *)

Definition widen (connectioncount : nat) (e : entry) : wide_entry :=
  match e with
  | EStr s => WList (replicate connectioncount s)
  | EList l => WList l
  | EDict key value => WDict key value
  end.

Definition normalize (connectioncount : nat) (connection_set : list entry)
    : list wide_entry :=
  widen connectioncount <$> connection_set.

(** *** Resolving the designators *)

Definition resolve_entry (e : wide_entry) : M ParseState wide_entry :=
  match e with
  | WList l =>
    (do ds <- map_m (λ item, do '(_, designator) <- resolve_designator item;
                             ret designator) l;
     ret (WList ds))%py
  | WDict key value =>
    (do '(_, designator) <- resolve_designator key;
     ret (WDict designator value))%py
  end.

(** *** Expanding the pin lists *)

Definition expand_pins (e : wide_entry) : exn + list pin_item :=
  match e with
  | WList l => inr ((λ designator, (designator, PInt 1)) <$> l)
  | WDict designator value =>
    bind_r (expand value) (λ pinlist, inr ((λ pin, (designator, PInt pin)) <$> pinlist))
  end.

(** *** Generating the items *)

Context (template_connectors : dict (Connector.t Qty)).
Context (template_cables : dict (Cable.t Qty)).

(** Modelled from the spec: the constructors [Connector(name, **attribs)]
    and [Cable(name, **attribs)] are not among the sources. A template is
    an attribute set; an instance is that set under the designator as its
    name. *)
Definition new_connector (designator : string) (attribs : Connector.t Qty)
    : Connector.t Qty :=
  Connector.mk Qty designator (Connector.pins attribs)
    (Connector.pinlabels attribs) (Connector.type attribs)
    (Connector.subtype attribs) (Connector.pincount attribs)
    (Connector.show_pincount attribs) (Connector.color attribs)
    (Connector.manufacturer attribs) (Connector.mpn attribs)
    (Connector.pn attribs) (Connector.show_name attribs)
    (Connector.ignore_in_bom attribs) (Connector.additional_components attribs).

Definition new_cable (designator : string) (attribs : Cable.t Qty) : Cable.t Qty :=
  Cable.mk Qty designator (Cable.type attribs) (Cable.wirecount attribs)
    (Cable.gauge attribs) (Cable.gauge_unit attribs) (Cable.shield attribs)
    (Cable.length attribs) (Cable.category attribs) (Cable.colors attribs)
    (Cable.manufacturer attribs) (Cable.mpn attribs) (Cable.pn attribs)
    (Cable.show_name attribs) (Cable.ignore_in_bom attribs)
    (Cable.additional_components attribs) (Cable.connections attribs).

Definition generate_item (item : pin_item) : M ParseState unit :=
  (do st <- get;
   let designator := item.1 in
   match designators_and_templates st !! designator with
   | None => raise KeyError
   | Some template =>
     if dict_mem designator (connectors (harness st)) then ret tt
     else match dict_get template template_connectors with
     | Some attribs => on_harness (add_connector (new_connector designator attribs))
     | None =>
       if dict_mem designator (cables (harness st)) then ret tt
       else match dict_get template template_cables with
       | Some attribs => on_harness (add_cable (new_cable designator attribs))
       | None => ret tt
       end
     end
   end)%py.

(** *** Connecting the chains *)

(** The body of the inner loop, for the item at [index_item] of
    [connection]. *)
Definition connect_item (connection : list pin_item) (index_item : nat)
    (item : pin_item) : M ParseState unit :=
  (do st <- get;
   let designator := item.1 in
   if dict_mem designator (cables (harness st)) then
     do '(from_name, from_pin) <-
       match index_item with
       | O => ret (None, PNone)
       | S i =>
         match connection !! i with
         | Some (n, p) => ret (Some n, p)
         | None => raise IndexError
         end
       end;
     let via_name := designator in
     let via_pin := item.2 in
     do '(to_name, to_pin) <-
       (if decide (index_item = length connection - 1)%nat then ret (None, PNone)
        else match connection !! S index_item with
             | Some (n, p) => ret (Some n, p)
             | None => raise IndexError
             end);
     modify (log_connect (from_name, from_pin, via_name, via_pin, to_name, to_pin)) ;;
     on_harness (connect from_name from_pin via_name via_pin to_name to_pin)
   else ret tt)%py.

Definition connect_chain (connection : list pin_item) : M ParseState unit :=
  for_each (enumerate connection) (λ '(index_item, item),
    connect_item connection index_item item).

(** *** One connection set, and all of them *)

Definition parse_connection_set (connection_set : list entry) : M ParseState unit :=
  (do connectioncount <- lift (determine_count connection_set);
   let connection_set := normalize connectioncount connection_set in
   do connection_set <- map_m resolve_entry connection_set;
   do connection_set <- lift (map_r expand_pins connection_set);
   for_each connection_set (λ e, for_each e generate_item) ;;
   let connection_set := zip_star connection_set in
   for_each connection_set connect_chain)%py.

Definition parse_connections (connection_sets : list (list entry)) : M ParseState unit :=
  for_each connection_sets parse_connection_set.

Definition ParseState_init : ParseState := mkParseState Harness_init ∅ ∅ [].

(** [parse], from the loaded document to the harness it returns for
    [return_types='harness']; the printing and the file output are left out. *)
Definition parse (connection_sets : list (list entry))
    (bom_items : list (BomItem Qty)) : M ParseState unit :=
  (parse_connections connection_sets ;;
   for_each bom_items (λ line, on_harness (add_bom_item line)))%py.

End parse.

(** ** The BOM aggregator: [Harness.bom] *)

(** A group of entries merged into one line, before the line gets its
    [id]. *)
Module BomGroup.
Record t {Qty : Type} : Type := mk {
  item : string;
  qty : Qty;
  unit : pyval;
  designators : list string;
  manufacturer : pyval;
  mpn : pyval;
  pn : pyval
}.
Arguments t : clear implicits.
End BomGroup.

(** The value [bom_types_group] gives an entry. *)
Definition group_key : Type := string * pyval * pyval * pyval * pyval.

(** [sorted(l, key=key)] for keys compared by [le]. Python's sort is stable:
    entries whose keys are equal keep their order. This insertion sort is
    stable too, and a stable sort has one result. *)
Section sorting.
Context {A K : Type} (le : K → K → bool) (key : A → K).

Fixpoint insert_by (x : A) (l : list A) : list A :=
  match l with
  | [] => [x]
  | y :: l' => if le (key x) (key y) then x :: l else y :: insert_by x l'
  end.

Definition sorted_by (l : list A) : list A := foldr insert_by [] l.
End sorting.

(** [list(dict.fromkeys(l))]: the first occurrence of every element, in
    order. *)
Definition fromkeys {A} `{EqDecision A} (l : list A) : list A :=
  fold_left (λ seen x, if py_in x seen then seen else seen ++ [x]) l [].

Section bom.
Context {Qty : Type} {num : PyNumber Qty}.

(** The helpers of [wv_helper.py] and the methods of [DataClasses.py] that
    [bom] calls are not among the sources; they are parameters here.
    [clean_whitespace] is given on strings, the only values it changes. *)
Context (clean_whitespace : string → string).
Context (index_if_list : cable_attr → nat → pyval).
Context (connector_qty_multiplier : Connector.t Qty → pyval → Qty).
Context (cable_qty_multiplier : Cable.t Qty → pyval → Qty).

Definition clean_val (v : pyval) : pyval :=
  match v with
  | PStr s => PStr (clean_whitespace s)
  | _ => v
  end.

Definition clean_desig (d : desig) : desig :=
  match d with
  | DStr s => DStr (clean_whitespace s)
  | _ => d
  end.

Definition clean_entry (e : BomEntry.t Qty) : BomEntry.t Qty :=
  BomEntry.mk Qty (clean_whitespace (BomEntry.item e)) (BomEntry.qty e)
    (clean_val (BomEntry.unit e)) (clean_desig (BomEntry.designators e))
    (clean_val (BomEntry.manufacturer e)) (clean_val (BomEntry.mpn e))
    (clean_val (BomEntry.pn e)).

(** [f', {v}' if v else '']. *)
Definition comma_if (v : pyval) : string :=
  if truthy v then ", " +:+ py_str v else "".

(** [name if show_name else None]. *)
Definition name_if (show_name : bool) (name : string) : desig :=
  if show_name then DStr name else DNone.

(** *** [get_additional_component_bom] *)
Definition get_additional_component_bom (name : string) (show_name : bool)
    (get_qty_multiplier : pyval → Qty)
    (additional_components : list (AdditionalComponent.t Qty))
    : list (BomEntry.t Qty) :=
  (λ part,
     BomEntry.mk Qty (AdditionalComponent.description part)
       (q_mul (AdditionalComponent.qty part)
              (get_qty_multiplier (AdditionalComponent.qty_multiplier part)))
       (AdditionalComponent.unit part)
       (name_if show_name name)
       (AdditionalComponent.manufacturer part)
       (AdditionalComponent.mpn part)
       (AdditionalComponent.pn part)) <$> additional_components.

(** *** The entries of one connector *)
Definition connector_description (connector : Connector.t Qty) : string :=
  "Connector"
  +:+ comma_if (Connector.type connector)
  +:+ comma_if (Connector.subtype connector)
  +:+ (if Connector.show_pincount connector
       then ", " +:+ str_of_int (Connector.pincount connector) +:+ " pins" else "")
  +:+ comma_if (Connector.color connector).

Definition connector_entries (connector : Connector.t Qty) : list (BomEntry.t Qty) :=
  (if negb (Connector.ignore_in_bom connector) then
     [BomEntry.mk Qty (connector_description connector) q_one PNone
        (name_if (Connector.show_name connector) (Connector.name connector))
        (Connector.manufacturer connector) (Connector.mpn connector)
        (Connector.pn connector)]
   else [])
  ++ get_additional_component_bom (Connector.name connector)
       (Connector.show_name connector) (connector_qty_multiplier connector)
       (Connector.additional_components connector).

(** *** The entries of one cable *)
Definition shield_truthy (s : shield_t) : bool :=
  match s with
  | ShieldBool b => b
  | ShieldColor c => negb (String.eqb c "")
  end.

Definition cable_description (cable : Cable.t Qty) : string :=
  "Cable"
  +:+ comma_if (Cable.type cable)
  +:+ ", " +:+ str_of_int (Cable.wirecount cable)
  +:+ (if truthy (Cable.gauge cable)
       then " x " +:+ py_str (Cable.gauge cable) +:+ " " +:+ py_str (Cable.gauge_unit cable)
       else " wires")
  +:+ (if shield_truthy (Cable.shield cable) then " shielded" else "").

Definition wire_description (cable : Cable.t Qty) (color : string) : string :=
  "Wire"
  +:+ comma_if (Cable.type cable)
  +:+ (if truthy (Cable.gauge cable)
       then ", " +:+ py_str (Cable.gauge cable) +:+ " " +:+ py_str (Cable.gauge_unit cable)
       else "")
  +:+ comma_if (PStr color).

(** A cable that is not a bundle puts its attribute into the entry as it
    is. A per-wire list there makes the group key of the entry unhashable:
    [Counter] raises [TypeError] once the entries are collected, which has
    no effect of its own, and before [_bom] is touched. *)
Definition attr_scalar (a : cable_attr) : exn + pyval :=
  match a with
  | Scalar v => inr v
  | PerWire _ => inl TypeError
  end.

Definition cable_entries (cable : Cable.t Qty) : exn + list (BomEntry.t Qty) :=
  bind_r
    (if negb (Cable.ignore_in_bom cable) then
       if decide (Cable.category cable ≠ PStr "bundle") then
         bind_r (attr_scalar (Cable.manufacturer cable)) (λ manufacturer,
         bind_r (attr_scalar (Cable.mpn cable)) (λ mpn,
         bind_r (attr_scalar (Cable.pn cable)) (λ pn,
           inr [BomEntry.mk Qty (cable_description cable) (Cable.length cable)
                  (PStr "m") (name_if (Cable.show_name cable) (Cable.name cable))
                  manufacturer mpn pn])))
       else
         inr ((λ '(index, color),
                 BomEntry.mk Qty (wire_description cable color) (Cable.length cable)
                   (PStr "m") (name_if (Cable.show_name cable) (Cable.name cable))
                   (index_if_list (Cable.manufacturer cable) index)
                   (index_if_list (Cable.mpn cable) index)
                   (index_if_list (Cable.pn cable) index))
              <$> enumerate (Cable.colors cable))
     else inr [])
    (λ own,
       inr (own ++ get_additional_component_bom (Cable.name cable)
                     (Cable.show_name cable) (cable_qty_multiplier cable)
                     (Cable.additional_components cable))).

(** *** The entry of a freestanding BOM line *)
Definition item_entry (i : BomItem Qty) : BomEntry.t Qty :=
  BomEntry.mk Qty (default "" (bi_description i)) (default q_one (bi_qty i))
    (bi_unit i) (bi_designators i) (bi_manufacturer i) (bi_mpn i) (bi_pn i).

(** *** All entries, in the order [bom] collects them *)
Definition bom_entries (self : Harness Qty) : exn + list (BomEntry.t Qty) :=
  bind_r (map_r cable_entries (dict_values (cables self))) (λ of_cables,
    inr (concat (connector_entries <$> dict_values (connectors self))
         ++ concat of_cables
         ++ (item_entry <$> additional_bom_items self))).

(** *** Grouping *)
Definition bom_types_group (bt : BomEntry.t Qty) : group_key :=
  (BomEntry.item bt, BomEntry.unit bt, BomEntry.manufacturer bt,
   BomEntry.mpn bt, BomEntry.pn bt).

(** What one entry adds to the [designators] list of its group. *)
Definition entry_designators (e : BomEntry.t Qty) : list string :=
  match BomEntry.designators e with
  | DNone => []
  | DStr s => if String.eqb s "" then [] else [s]
  | DList l => l
  end.

(** [sum(...)]: from [0], left to right. *)
Definition py_sum (qs : list Qty) : Qty := fold_left q_add qs q_zero.

(** The body of the loop over the groups. *)
Definition group_row (bom_entries : list (BomEntry.t Qty)) (group : group_key)
    : exn + BomGroup.t Qty :=
  let group_entries :=
    filter (λ v, bom_types_group v = group) bom_entries in
  let designators := concat (entry_designators <$> group_entries) in
  let designators := fromkeys designators in
  let designators := sorted_by String.leb (λ d, d) designators in
  let total_qty := py_sum (BomEntry.qty <$> group_entries) in
  match group_entries with
  | [] => inl IndexError
  | first :: _ =>
    inr (BomGroup.mk Qty (BomEntry.item first) (q_round3 total_qty)
           (BomEntry.unit first) designators (BomEntry.manufacturer first)
           (BomEntry.mpn first) (BomEntry.pn first))
  end.

Definition add_id (index : nat) (g : BomGroup.t Qty) : BomRow.t Qty :=
  BomRow.mk Qty (BomGroup.item g) (BomGroup.qty g) (BomGroup.unit g)
    (BomGroup.designators g) (BomGroup.manufacturer g) (BomGroup.mpn g)
    (BomGroup.pn g) (Z.of_nat index).

(** [[{**entry, 'id': index} for index, entry in enumerate(l, 1)]]. *)
Definition number_rows (l : list (BomGroup.t Qty)) : list (BomRow.t Qty) :=
  (λ '(index, entry), add_id (S index) entry) <$> enumerate l.

(** From the cleaned entries to the rows: deduplicate, sort, number. *)
Definition bom_rows (bom_entries : list (BomEntry.t Qty)) : exn + list (BomRow.t Qty) :=
  bind_r (map_r (group_row bom_entries) (fromkeys (bom_types_group <$> bom_entries)))
    (λ groups, inr (number_rows (sorted_by String.leb BomGroup.item groups))).

Definition bom : M (Harness Qty) (list (BomRow.t Qty)) :=
  (do self <- get;
   match _bom self with
   | _ :: _ => ret (_bom self)
   | [] =>
     do bom_entries <- lift (bom_entries self);
     let bom_entries := clean_entry <$> bom_entries in
     do rows <- lift (bom_rows bom_entries);
     modify (set_bom rows) ;;
     ret rows
   end)%py.

(** *** [get_bom_index] *)
Definition row_key (r : BomRow.t Qty) : group_key :=
  (BomRow.item r, BomRow.unit r, BomRow.manufacturer r, BomRow.mpn r, BomRow.pn r).

Definition get_bom_index (item : string) (unit manufacturer mpn pn : pyval)
    : M (Harness Qty) (option Z) :=
  let target := (clean_whitespace item, clean_val unit, clean_val manufacturer,
                 clean_val mpn, clean_val pn) in
  (do rows <- bom;
   ret (BomRow.id <$> head (filter (λ entry, row_key entry = target) rows)))%py.

End bom.

(** ** Predicates of the statements *)

(** The entries of a connection set that reveal a count, and the count
    they reveal. *)
Definition reveals (e : entry) (n : nat) : Prop :=
  match e with
  | EStr _ => False
  | EList l => length l = n
  | EDict _ value => ∃ pinlist, expand value = inr pinlist ∧ length pinlist = n
  end.

(** A widened entry that stands for [n] parallel connections: a list of
    [n] designators, or a mapping whose pin range expands to [n] pins. *)
Definition wide (n : nat) (w : wide_entry) : Prop :=
  match w with
  | WList l => length l = n
  | WDict _ value => ∃ pinlist, expand value = inr pinlist ∧ length pinlist = n
  end.

(** A widened entry that is a list of [n] elements. *)
Definition list_of_length (n : nat) (w : wide_entry) : Prop :=
  match w with
  | WList l => length l = n
  | WDict _ _ => False
  end.

Section bom_statements.
Context {Qty : Type} {num : PyNumber Qty}.

(** A row without its [id]. *)
Definition strip_id (r : BomRow.t Qty) : BomGroup.t Qty :=
  BomGroup.mk Qty (BomRow.item r) (BomRow.qty r) (BomRow.unit r)
    (BomRow.designators r) (BomRow.manufacturer r) (BomRow.mpn r) (BomRow.pn r).

Definition group_key_of (g : BomGroup.t Qty) : group_key :=
  (BomGroup.item g, BomGroup.unit g, BomGroup.manufacturer g,
   BomGroup.mpn g, BomGroup.pn g).

(** The members of a group: the entries with its key, in their order. *)
Definition members (bom_entries : list (BomEntry.t Qty)) (group : group_key)
    : list (BomEntry.t Qty) :=
  filter (λ v, bom_types_group v = group) bom_entries.

(** The sum of a list of quantities, by the words of the design document
    and not by the loop of the code: nothing sums to zero, and a list
    followed by [q] sums to the sum of the list plus [q]. *)
Definition sum_qty (qs : list Qty) : Qty :=
  foldr (λ q total, q_add total q) q_zero (reverse qs).

(** [d] is a designator of the entry [e]: the name itself when the entry
    holds one name, an element of the list when it holds a list. An entry
    without designators, or with the empty name, has none. *)
Definition has_designator (e : BomEntry.t Qty) (d : string) : Prop :=
  match BomEntry.designators e with
  | DNone => False
  | DStr s => s ≠ "" ∧ d = s
  | DList l => d ∈ l
  end.

(** The line of a group as the design document describes it: the key, the
    rounded sum of the quantities of the members, the sorted union of their
    designators. *)
Definition merged_group (bom_entries : list (BomEntry.t Qty)) (group : group_key)
    : BomGroup.t Qty :=
  let '(item, unit, manufacturer, mpn, pn) := group in
  BomGroup.mk Qty item
    (q_round3 (py_sum (BomEntry.qty <$> members bom_entries group)))
    unit
    (sorted_by String.leb (λ d, d)
       (fromkeys (concat (entry_designators <$> members bom_entries group))))
    manufacturer mpn pn.

(** The table of the design document: one merged line for every key in
    the order of first occurrence, sorted by item, numbered from 1. *)
Definition bom_table (bom_entries : list (BomEntry.t Qty)) : list (BomRow.t Qty) :=
  number_rows
    (sorted_by String.leb BomGroup.item
       (merged_group bom_entries <$> fromkeys (bom_types_group <$> bom_entries))).

End bom_statements.

(** ** Concrete harnesses for the scenarios of the design document *)

Module Scenario.

(** Integer quantities: [round(n, 3)] of an [int] is that [int]. *)
#[export] Instance PyNumber_Z : PyNumber Z :=
  {| q_zero := 0; q_one := 1; q_add := Z.add; q_mul := Z.mul; q_round3 := λ z, z |}.

(** A connector with the given pins and labels and no other attribute. *)
Definition connector (name : string) (pins pinlabels : list pyval) : Connector.t Z :=
  Connector.mk Z name pins pinlabels PNone PNone (Z.of_nat (length pins)) true
    PNone PNone PNone PNone true false [].

(** A cable with [wirecount] wires and no other attribute. *)
Definition cable (name : string) (wirecount : Z) : Cable.t Z :=
  Cable.mk Z name PNone wirecount PNone PNone (ShieldBool false) 0 PNone []
    (Scalar PNone) (Scalar PNone) (Scalar PNone) true false [] [].

Definition harness_of (cs : list (Connector.t Z)) (ws : list (Cable.t Z)) : Harness Z :=
  mkHarness Z ((λ c, (Connector.name c, c)) <$> cs) ((λ w, (Cable.name w, w)) <$> ws)
    [] [] [].

(** The pin-label scenario: [pins=[1,2]], [pinlabels=["A","1"]]. *)
Definition labelled : Connector.t Z :=
  connector "X1" [PInt 1; PInt 2] [PStr "A"; PStr "1"].

(** The same with the second label the integer [1], as a YAML document
    that does not quote it gives it. *)
Definition labelled_int : Connector.t Z :=
  connector "X1" [PInt 1; PInt 2] [PStr "A"; PInt 1].

Definition label_harness : Harness Z := harness_of [labelled] [cable "W1" 2].
Definition label_int_harness : Harness Z := harness_of [labelled_int] [cable "W1" 2].

(** The end-to-end scenario: a connector template [X1] with pins [1, 2], a
    cable template [W1] with two wires, and the connection set
    [X1, W1: 1-2, X2], with [X2] an instance of the template [X1]. *)
Definition template_connectors : dict (Connector.t Z) :=
  [("X1", connector "X1" [PInt 1; PInt 2] [])].
Definition template_cables : dict (Cable.t Z) := [("W1", cable "W1" 2)].
Definition connection_set : list entry :=
  [EStr "X1"; EDict "W1" (VScalar (PStr "1-2")); EStr "X1.X2"].

(** Two connectors of one type under different part numbers, declared in
    the two possible orders. *)
Definition dsub (name pn : string) : Connector.t Z :=
  Connector.mk Z name [PInt 1; PInt 2] [] (PStr "D-Sub") PNone 2 true PNone
    PNone PNone (PStr pn) true false [].

Definition bom_harness : Harness Z :=
  harness_of [dsub "A" "P1"; dsub "B" "P2"; dsub "C" "P1"] [cable "W1" 2].
Definition bom_harness_permuted : Harness Z :=
  harness_of [dsub "B" "P2"; dsub "C" "P1"; dsub "A" "P1"] [cable "W1" 2].

(** Two connectors of different types, declared in the two possible
    orders. *)
Definition mixed_harness : Harness Z :=
  harness_of [dsub "A" "P1"; connector "X1" [PInt 1; PInt 2] []] [cable "W1" 2].
Definition mixed_harness_permuted : Harness Z :=
  harness_of [connector "X1" [PInt 1; PInt 2] []; dsub "A" "P1"] [cable "W1" 2].

(** Stand-ins for the helpers that are parameters of [bom]. *)
Definition clean_id (s : string) : string := s.
Definition index_or_none (a : cable_attr) (index : nat) : pyval :=
  match a with
  | Scalar v => v
  | PerWire l => default PNone (l !! index)
  end.
Definition multiplier_one {T : Type} (component : T) (policy : pyval) : Z := 1.

End Scenario.

(** ** Further parts of the code *)

(** *** [Harness.bom_list] *)

(** [sep.join(l)]. *)
Fixpoint str_join (sep : string) (l : list string) : string :=
  match l with
  | [] => ""
  | [s] => s
  | s :: l' => s +:+ sep +:+ str_join sep l'
  end.

(** [str.capitalize] on ASCII text: the first character in upper case, the
    others in lower case. *)
Definition ascii_upper (a : ascii) : ascii :=
  let n := N_of_ascii a in
  if bool_decide (97 ≤ n ≤ 122)%N then ascii_of_N (n - 32) else a.

Definition ascii_lower (a : ascii) : ascii :=
  let n := N_of_ascii a in
  if bool_decide (65 ≤ n ≤ 90)%N then ascii_of_N (n + 32) else a.

Fixpoint str_lower (s : string) : string :=
  match s with
  | EmptyString => EmptyString
  | String a s' => String (ascii_lower a) (str_lower s')
  end.

Definition capitalize (s : string) : string :=
  match s with
  | EmptyString => EmptyString
  | String a s' => String (ascii_upper a) (str_lower s')
  end.

(** A cell of the table: a scalar, a quantity, or, before the lists are
    joined, a list of designators. *)
Inductive cell {Qty : Type} : Type :=
  | CVal (v : pyval)
  | CNum (q : Qty)
  | CList (l : list string).
Arguments cell : clear implicits.

Section bom_list.
Context {Qty : Type} {num : PyNumber Qty}.
Context (clean_whitespace : string → string).
Context (index_if_list : cable_attr → nat → pyval).
Context (connector_qty_multiplier : Connector.t Qty → pyval → Qty).
Context (cable_qty_multiplier : Cable.t Qty → pyval → Qty).

(** [item.get(key, '')] on a row of the BOM. *)
Definition row_get (key : string) (r : BomRow.t Qty) : cell Qty :=
  if decide (key = "id") then CVal (PInt (BomRow.id r))
  else if decide (key = "item") then CVal (PStr (BomRow.item r))
  else if decide (key = "qty") then CNum (BomRow.qty r)
  else if decide (key = "unit") then CVal (BomRow.unit r)
  else if decide (key = "designators") then CList (BomRow.designators r)
  else if decide (key = "pn") then CVal (BomRow.pn r)
  else if decide (key = "manufacturer") then CVal (BomRow.manufacturer r)
  else if decide (key = "mpn") then CVal (BomRow.mpn r)
  else CVal (PStr "").

(** [entry.get(fieldname)] for the three optional columns. *)
Definition optional_field (fieldname : string) (r : BomRow.t Qty) : pyval :=
  if decide (fieldname = "pn") then BomRow.pn r
  else if decide (fieldname = "manufacturer") then BomRow.manufacturer r
  else if decide (fieldname = "mpn") then BomRow.mpn r
  else PNone.

(** The columns: the five that are always there, then each optional one
    that some row uses. *)
Definition bom_list_keys (bom : list (BomRow.t Qty)) : list string :=
  fold_left
    (λ keys fieldname,
       if existsb (λ entry, truthy (optional_field fieldname entry)) bom
       then keys ++ [fieldname] else keys)
    ["pn"; "manufacturer"; "mpn"]
    ["id"; "item"; "qty"; "unit"; "designators"].

(** [bom_headings[k] if k in bom_headings else k.capitalize()]. *)
Definition bom_heading (k : string) : string :=
  if decide (k = "pn") then "P/N"
  else if decide (k = "mpn") then "MPN"
  else capitalize k.

(** The two passes over the cells of a line. *)
Definition join_list (c : cell Qty) : cell Qty :=
  match c with
  | CList l => CVal (PStr (str_join ", " l))
  | _ => c
  end.

Definition blank_none (c : cell Qty) : cell Qty :=
  match c with
  | CVal PNone => CVal (PStr "")
  | _ => c
  end.

Definition bom_list_line (keys : list string) (item : BomRow.t Qty) : list (cell Qty) :=
  let item_list := (λ key, row_get key item) <$> keys in
  let item_list := join_list <$> item_list in
  blank_none <$> item_list.

Definition bom_list : M (Harness Qty) (list (list (cell Qty))) :=
  (do bom <- bom clean_whitespace index_if_list connector_qty_multiplier
               cable_qty_multiplier;
   let keys := bom_list_keys bom in
   ret (((λ k, CVal (PStr (bom_heading k))) <$> keys)
        :: (bom_list_line keys <$> bom)))%py.

End bom_list.

(** *** The ports of [Harness.create_graph]

    The first loop of [create_graph], over the connections of the cables.
    The flags [ports_left] and [ports_right] are attributes of the
    connector objects, which the entity records do not carry; the state of
    the loop is the set of the names whose flag it has set, one set for
    each flag. [connection.from_port] and [connection.to_port] are the
    fields [from_pin] and [to_pin] of the connection record. *)

Record Ports : Type := mkPorts {
  ports_left : gset string;
  ports_right : gset string
}.

Section ports.
Context {Qty : Type} {num : PyNumber Qty}.

(** [self.connectors[name]]: the key of the connector object the flag is
    set on, or the [KeyError] of the lookup. *)
Definition connector_key (self : Harness Qty) (name : option string)
    : exn + string :=
  match name with
  | None => inl KeyError
  | Some n => if dict_mem n (connectors self) then inr n else inl KeyError
  end.

Definition prepare_connection (self : Harness Qty) (connection : Connection)
    : M Ports unit :=
  ((if decide (from_pin connection ≠ PNone) then
      do n <- lift (connector_key self (from_name connection));
      modify (λ p, mkPorts (ports_left p) ({[n]} ∪ ports_right p))
    else ret tt) ;;
   (if decide (to_pin connection ≠ PNone) then
      do n <- lift (connector_key self (to_name connection));
      modify (λ p, mkPorts ({[n]} ∪ ports_left p) (ports_right p))
    else ret tt))%py.

Definition prepare_ports (self : Harness Qty) : M Ports unit :=
  for_each (dict_values (cables self)) (λ cable,
    for_each (Cable.connections cable) (prepare_connection self)).

(** All connection records of the harness, cable by cable. *)
Definition all_connections (self : Harness Qty) : list Connection :=
  concat (Cable.connections <$> dict_values (cables self)).

End ports.

(** *** Predicates of the further statements *)

(** The connect operations of a chain, read off its positions: one for
    every position that holds a cable, with its neighbours as the ends. *)
Definition chain_link (is_cable : string → bool) (connection : list pin_item)
    (index_item : nat) (item : pin_item) : option connect_args :=
  if is_cable item.1 then
    let '(from_name, from_pin) :=
      match index_item with
      | O => (None, PNone)
      | S i =>
        match connection !! i with
        | Some (n, p) => (Some n, p)
        | None => (None, PNone)
        end
      end in
    let '(to_name, to_pin) :=
      if decide (index_item = length connection - 1)%nat then (None, PNone)
      else match connection !! S index_item with
           | Some (n, p) => (Some n, p)
           | None => (None, PNone)
           end in
    Some (from_name, from_pin, item.1, item.2, to_name, to_pin)
  else None.

Definition chain_links (is_cable : string → bool) (connection : list pin_item)
    : list connect_args :=
  omap (λ '(index_item, item), chain_link is_cable connection index_item item)
    (enumerate connection).

(** [Cable.connect] as an update of the field [connections]. *)
Definition with_connections {Qty} (cable : Cable.t Qty) (cs : list Connection)
    : Cable.t Qty :=
  Cable.mk Qty (Cable.name cable) (Cable.type cable) (Cable.wirecount cable)
    (Cable.gauge cable) (Cable.gauge_unit cable) (Cable.shield cable)
    (Cable.length cable) (Cable.category cable) (Cable.colors cable)
    (Cable.manufacturer cable) (Cable.mpn cable) (Cable.pn cable)
    (Cable.show_name cable) (Cable.ignore_in_bom cable)
    (Cable.additional_components cable) cs.

(** The harness [h'] holds all that [h] holds: every connector of [h]
    as it is, and every cable of [h] with the connection records it has in
    [h] and possibly more after them. *)
Definition harness_extends {Qty} (h h' : Harness Qty) : Prop :=
  (∀ n c, dict_get n (connectors h) = Some c → dict_get n (connectors h') = Some c)
  ∧ (∀ w cable, dict_get w (cables h) = Some cable →
       ∃ extra, dict_get w (cables h')
                = Some (with_connections cable (Cable.connections cable ++ extra))).

(** An end of a connection record that the first loop of [create_graph]
    can handle: it has no pin, or its name is a connector of the harness. *)
Definition end_known {Qty} (self : Harness Qty) (name : option string)
    (pin : pyval) : Prop :=
  pin ≠ PNone → ∃ n, name = Some n ∧ is_Some (dict_get n (connectors self)).

Definition ends_known {Qty} (self : Harness Qty) (c : Connection) : Prop :=
  end_known self (from_name c) (from_pin c) ∧ end_known self (to_name c) (to_pin c).

(** What [parse] has no statement for: the mates, the BOM cache and the
    freestanding BOM lines of a harness. *)
Definition harness_rest {Qty} (h : Harness Qty)
    : list Mate * list (BomRow.t Qty) * list (BomItem Qty) :=
  (mates h, _bom h, additional_bom_items h).

(** * Properties *)

(** ** Python list primitives *)

Section py_list.
Context {A : Type} `{EqDecision A}.
Implicit Types (l : list A) (x : A).

Lemma py_in_true l x : py_in x l = true ↔ x ∈ l.
Proof. unfold py_in. apply bool_decide_eq_true. Qed.

Lemma py_in_false l x : py_in x l = false ↔ x ∉ l.
Proof. unfold py_in. apply bool_decide_eq_false. Qed.

Lemma py_index_lookup l x i : py_index l x = Some i → l !! i = Some x.
Proof.
  revert i. induction l as [|y l IH]; intros i; simpl; [done|].
  destruct (decide (y = x)) as [->|Hne].
  - by intros [= <-].
  - destruct (py_index l x) as [j|] eqn:Hj; simpl; [|done].
    intros [= <-]. simpl. by apply IH.
Qed.

Lemma py_index_None l x : py_index l x = None ↔ x ∉ l.
Proof.
  induction l as [|y l IH]; simpl.
  - split; [intros _; apply not_elem_of_nil | done].
  - destruct (decide (y = x)) as [->|Hne].
    + split; [done | intros Hx; exfalso; apply Hx; left].
    + rewrite not_elem_of_cons. destruct (py_index l x) eqn:Hj; simpl.
      * split; [done | intros [_ Hx]]. by apply IH in Hx.
      * split; [intros _; split; [congruence | by apply IH] | done].
Qed.

Lemma py_index_is_Some l x : x ∈ l → is_Some (py_index l x).
Proof.
  intros Hx. destruct (py_index l x) eqn:E; [by eexists|].
  by apply py_index_None in E.
Qed.

Lemma py_count_pos l x : (0 < py_count l x)%nat ↔ x ∈ l.
Proof.
  induction l as [|y l IH]; simpl.
  - split; [lia | by intros ?%elem_of_nil].
  - destruct (decide (y = x)) as [->|Hne].
    + split; [intros _; left | lia].
    + rewrite IH, elem_of_cons.
      split; [by right | intros [?|?]; [congruence | done]].
Qed.

End py_list.

(** ** [Harness.connect] *)

Section connect_facts.
Context {Qty : Type} {num : PyNumber Qty}.
Implicit Types (self : Harness Qty) (pin fp tp : pyval).

(** The outcome of one end whose connector is known, as a decision table
    on the three tests of the loop body. *)
Lemma connect_end_known self from_name to_name n c pin fp tp :
  dict_get n (connectors self) = Some c →
  connect_end self from_name to_name (Some n) pin fp tp =
    let pins := Connector.pins c in
    let pinlabels := Connector.pinlabels c in
    if bool_decide (pin ∈ pinlabels) then
      if bool_decide (pin ∈ pins ∧ py_index pins pin ≠ py_index pinlabels pin)
      then inl AmbiguousPinReference
      else if bool_decide (1 < py_count pinlabels pin)%nat
      then inl DuplicatePinLabel
      else match py_index pinlabels pin ≫= (λ i, pins !! i) with
           | None => inl IndexError
           | Some pin' =>
             inr (if decide (Some n = from_name) then pin' else fp,
                  if decide (Some n = to_name) then pin' else tp)
           end
    else if bool_decide (pin ∈ pins) then inr (fp, tp) else inl UnknownPin.
Proof.
  intros Hc. unfold connect_end. rewrite Hc. cbv zeta. unfold py_in.
  destruct (bool_decide_reflect (pin ∈ Connector.pinlabels c)) as [Hl|Hl].
  - rewrite andb_true_r.
    destruct (bool_decide_reflect (pin ∈ Connector.pins c)) as [Hp|Hp].
    + destruct (bool_decide_reflect
                  (py_index (Connector.pins c) pin
                   = py_index (Connector.pinlabels c) pin)) as [Hi|Hi].
      * rewrite (bool_decide_eq_false_2 (_ ∧ _)) by (intros [_ Hne]; by apply Hne).
        simpl.
        case_bool_decide; [done|].
        destruct (py_index_is_Some _ _ Hl) as [i Hidx]. rewrite Hidx. simpl.
        destruct (Connector.pins c !! i) as [p|] eqn:Hpi; [|done]. simpl.
        rewrite bool_decide_eq_true_2; [done|].
        by eapply list_elem_of_lookup_2.
      * by rewrite (bool_decide_eq_true_2 (_ ∧ _)).
    + rewrite (bool_decide_eq_false_2 (_ ∧ _)) by (by intros [? _]). simpl.
      case_bool_decide; [done|].
      destruct (py_index_is_Some _ _ Hl) as [i Hidx]. rewrite Hidx. simpl.
      destruct (Connector.pins c !! i) as [p|] eqn:Hpi; [|done]. simpl.
      rewrite bool_decide_eq_true_2; [done|].
      by eapply list_elem_of_lookup_2.
  - rewrite andb_false_r. simpl.
    destruct (bool_decide_reflect (pin ∈ Connector.pins c)); done.
Qed.

(** An end without a name, or whose name is no connector of the harness,
    is not checked. *)
Lemma connect_end_unknown self from_name to_name name pin fp tp :
  (∀ n, name = Some n → dict_get n (connectors self) = None) →
  connect_end self from_name to_name name pin fp tp = inr (fp, tp).
Proof.
  intros Hn. unfold connect_end. destruct name as [n|]; [|done].
  by rewrite (Hn n eq_refl).
Qed.

(** [connect] changes the harness only through its last statement. *)
Lemma connect_inv from_name from_pin via_name via_pin to_name to_pin self r self' :
  connect from_name from_pin via_name via_pin to_name to_pin self = (r, self') →
  (∃ e, r = inl e ∧ self' = self) ∨
  (∃ fp tp fp' tp' cable,
      connect_end self from_name to_name from_name from_pin from_pin to_pin = inr (fp, tp) ∧
      connect_end self from_name to_name to_name to_pin fp tp = inr (fp', tp') ∧
      dict_get via_name (cables self) = Some cable ∧
      r = inr tt ∧
      self' = set_cables (dict_set via_name
                (Cable.connect cable from_name fp' via_pin to_name tp')
                (cables self)) self).
Proof.
  unfold connect, bind, get, lift, raise, modify.
  destruct (connect_end self from_name to_name from_name from_pin from_pin to_pin)
    as [e|[fp tp]] eqn:E1.
  { intros [= <- <-]. left. by eexists. }
  destruct (connect_end self from_name to_name to_name to_pin fp tp)
    as [e|[fp' tp']] eqn:E2.
  { intros [= <- <-]. left. by eexists. }
  destruct (dict_get via_name (cables self)) as [cable|] eqn:E3.
  - intros [= <- <-]. right. by exists fp, tp, fp', tp', cable.
  - intros [= <- <-]. left. by eexists.
Qed.

(** C2 (as amended). Pin resolution at one end of a connect operation whose
    connector [c] is in the harness. A token found in [pins] and in
    [pinlabels] at different first positions is an [AmbiguousPinReference];
    found at the same position it is never one. A token found more than
    once in [pinlabels] is fatal: a [DuplicatePinLabel], unless the
    ambiguity test, which runs first, has raised. A token found exactly
    once in [pinlabels] is replaced by the entry of [pins] at that
    position. A token in neither list is an [UnknownPin], and this is the
    only way to get that error; a token only in [pins] is kept as it is. *)
Theorem connect_pin_resolution self from_name to_name n c pin fp tp :
  dict_get n (connectors self) = Some c →
  let pins := Connector.pins c in
  let pinlabels := Connector.pinlabels c in
  let ambiguous := pin ∈ pins ∧ pin ∈ pinlabels
                   ∧ py_index pins pin ≠ py_index pinlabels pin in
  let outcome := connect_end self from_name to_name (Some n) pin fp tp in
  (ambiguous → outcome = inl AmbiguousPinReference)
  ∧ (pin ∈ pins → py_index pins pin = py_index pinlabels pin →
     outcome ≠ inl AmbiguousPinReference)
  ∧ ((1 < py_count pinlabels pin)%nat →
     outcome = if bool_decide ambiguous then inl AmbiguousPinReference
               else inl DuplicatePinLabel)
  ∧ (py_count pinlabels pin = 1%nat → ¬ ambiguous →
     ∀ i pin', py_index pinlabels pin = Some i → pins !! i = Some pin' →
       outcome = inr (if decide (Some n = from_name) then pin' else fp,
                      if decide (Some n = to_name) then pin' else tp))
  ∧ (pin ∉ pinlabels → pin ∈ pins → outcome = inr (fp, tp))
  ∧ ((outcome = inl UnknownPin) ↔ ((pin ∉ pinlabels) ∧ (pin ∉ pins))).
Proof.
  intros Hc pins pinlabels ambiguous outcome.
  assert (outcome =
    if bool_decide (pin ∈ pinlabels) then
      if bool_decide (pin ∈ pins ∧ py_index pins pin ≠ py_index pinlabels pin)
      then inl AmbiguousPinReference
      else if bool_decide (1 < py_count pinlabels pin)%nat
      then inl DuplicatePinLabel
      else match py_index pinlabels pin ≫= (λ i, pins !! i) with
           | None => inl IndexError
           | Some pin' =>
             inr (if decide (Some n = from_name) then pin' else fp,
                  if decide (Some n = to_name) then pin' else tp)
           end
    else if bool_decide (pin ∈ pins) then inr (fp, tp) else inl UnknownPin)
    as -> by (by apply connect_end_known).
  subst ambiguous. cbv zeta.
  repeat split.
  - intros (Hp & Hl & Hne).
    rewrite (bool_decide_eq_true_2 _ Hl).
    by rewrite (bool_decide_eq_true_2 (_ ∧ _)).
  - intros Hp Heq.
    rewrite (bool_decide_eq_false_2 (_ ∧ _)) by (intros [_ Hne]; by apply Hne).
    repeat case_bool_decide; try done.
    by destruct (_ ≫= _).
  - intros Hcount.
    assert (pin ∈ pinlabels) as Hl by (apply py_count_pos; lia).
    rewrite (bool_decide_eq_true_2 _ Hl).
    destruct (bool_decide_reflect
                (pin ∈ pins ∧ py_index pins pin ≠ py_index pinlabels pin))
      as [[Hp Hne]|Hna].
    + by rewrite (bool_decide_eq_true_2 (_ ∧ _ ∧ _)).
    + rewrite (bool_decide_eq_false_2 (_ ∧ _ ∧ _)) by (intros (?&?&?); by apply Hna).
      by rewrite (bool_decide_eq_true_2 (_ < _)%nat).
  - intros Hcount Hna i pin' Hi Hpin'.
    assert (pin ∈ pinlabels) as Hl by (apply py_count_pos; lia).
    rewrite (bool_decide_eq_true_2 _ Hl).
    rewrite (bool_decide_eq_false_2 (_ ∧ _)) by (intros [? ?]; by apply Hna).
    rewrite (bool_decide_eq_false_2 (_ < _)%nat) by lia.
    rewrite Hi. simpl. by rewrite Hpin'.
  - intros Hl Hp.
    rewrite (bool_decide_eq_false_2 _ Hl). by rewrite (bool_decide_eq_true_2 _ Hp).
  - intros Hout. repeat case_bool_decide; try done.
    by destruct (_ ≫= _).
  - intros Hout. repeat case_bool_decide; try done.
    by destruct (_ ≫= _).
  - intros [Hl Hp].
    rewrite (bool_decide_eq_false_2 _ Hl). by rewrite (bool_decide_eq_false_2 _ Hp).
Qed.

(** C10. [connect] is atomic on error: whenever it raises, the harness it
    leaves is the harness it was given. The three checks and the lookup of
    the cable only read; the one statement that writes is the last. *)
Theorem connect_atomic from_name from_pin via_name via_pin to_name to_pin
    self e self' :
  connect from_name from_pin via_name via_pin to_name to_pin self = (inl e, self') →
  self' = self.
Proof.
  intros Hrun. apply connect_inv in Hrun as [(e' & _ & ->)|Hok]; [done|].
  by destruct Hok as (?&?&?&?&?&_&_&_&?&_).
Qed.

End connect_facts.

Section connect_scenarios.
Import Scenario.

(** The scenario of C2 at the ends of the theorem: on [pins=[1,2]],
    [pinlabels=["A","1"]] the string ["1"] is the label of the second pin
    and resolves to pin [2]; ["A"] resolves to pin [1] by its label; the
    integer [1] is a pin and no label, and stays pin [1]. *)
Lemma connect_pin_resolution_scenario :
  dict_get "X1" (connectors label_harness) = Some labelled
  ∧ connect_end label_harness (Some "X1") None (Some "X1") (PStr "1") (PStr "1") PNone
    = inr (PInt 2, PNone)
  ∧ connect_end label_harness (Some "X1") None (Some "X1") (PStr "A") (PStr "A") PNone
    = inr (PInt 1, PNone)
  ∧ connect_end label_harness (Some "X1") None (Some "X1") (PInt 1) (PInt 1) PNone
    = inr (PInt 1, PNone).
Proof.
  split; [reflexivity|]. split; [|split].
  - destruct (connect_pin_resolution label_harness (Some "X1") None "X1" labelled
                (PStr "1") (PStr "1") PNone eq_refl) as (_ & _ & _ & Hsub & _).
    apply (Hsub eq_refl) with (i := 1%nat) (pin' := PInt 2); [|reflexivity..].
    intros (Hp & _). revert Hp. by apply py_in_false.
  - destruct (connect_pin_resolution label_harness (Some "X1") None "X1" labelled
                (PStr "A") (PStr "A") PNone eq_refl) as (_ & _ & _ & Hsub & _).
    apply (Hsub eq_refl) with (i := 0%nat) (pin' := PInt 1); [|reflexivity..].
    intros (Hp & _). revert Hp. by apply py_in_false.
  - destruct (connect_pin_resolution label_harness (Some "X1") None "X1" labelled
                (PInt 1) (PInt 1) PNone eq_refl) as (_ & _ & _ & _ & Hkeep & _).
    apply Hkeep; [by apply py_in_false | by apply py_in_true].
Defined.

(** C2 as stated fails on its own scenario. With the labels ["A"] and ["1"]
    the reference ["1"] is recorded as pin [2], not pin [1]; with the second
    label the integer [1], the reference [1] matches pin [1] at the first
    position and that label at the second, and is rejected as ambiguous. *)
Lemma pin_label_scenario_counterexample :
  ¬ (∃ h, connect (Some "X1") (PStr "1") "W1" (PInt 1) None PNone label_harness
          = (inr tt, h)
          ∧ Cable.connections <$> dict_get "W1" (cables h)
            = Some [mkConnection (Some "X1") (PInt 1) (PInt 1) None PNone])
  ∧ (connect (Some "X1") (PInt 1) "W1" (PInt 1) None PNone label_int_harness).1
    = inl AmbiguousPinReference.
Proof.
  split; [|reflexivity].
  intros (h & Hrun & Hrec). vm_compute in Hrun.
  injection Hrun as <-. vm_compute in Hrec. discriminate Hrec.
Qed.

(** A call that raises, and the harness it leaves. *)
Lemma connect_atomic_witness :
  (connect (Some "X1") (PStr "Z") "W1" (PInt 1) None PNone label_harness).1
  = inl UnknownPin
  ∧ (connect (Some "X1") (PStr "Z") "W1" (PInt 1) None PNone label_harness).2
    = label_harness.
Proof.
  split; [reflexivity|].
  apply (connect_atomic (Some "X1") (PStr "Z") "W1" (PInt 1) None PNone
           label_harness UnknownPin).
  reflexivity.
Defined.

End connect_scenarios.

(** ** Splitting a token at its dots *)

Section split_facts.
Implicit Types (c : ascii) (s t d : string).

Lemma str_split_nonempty c s : str_split c s ≠ [].
Proof.
  destruct s as [|a s]; simpl; [done|].
  destruct (decide (a = c)); [done|]. by destruct (str_split c s).
Qed.

Lemma str_split_no_sep c s : str_contains c s = false → str_split c s = [s].
Proof.
  induction s as [|a s IH]; simpl; [done|].
  destruct (decide (a = c)); [done|]. intros Hs. by rewrite (IH Hs).
Qed.

Lemma str_contains_app_sep c t d : str_contains c (t +:+ String c d) = true.
Proof.
  induction t as [|a t IH]; simpl.
  - by rewrite decide_True.
  - by destruct (decide (a = c)).
Qed.

Lemma str_split_app_sep c t d :
  str_contains c t = false →
  str_split c (t +:+ String c d) = t :: str_split c d.
Proof.
  induction t as [|a t IH]; simpl.
  - intros _. by rewrite decide_True.
  - destruct (decide (a = c)); [done|]. intros Ht. by rewrite (IH Ht).
Qed.

Lemma str_split_one c s d :
  str_split c s = [d] → s = d ∧ str_contains c s = false.
Proof.
  revert d. induction s as [|a s IH]; intros d; simpl.
  - by intros [= <-].
  - destruct (decide (a = c)) as [->|Hne].
    + intros [= _ Hnil]. by apply str_split_nonempty in Hnil.
    + destruct (str_split c s) as [|w ws] eqn:Hw;
        [by apply str_split_nonempty in Hw|].
      intros [= <- ->]. destruct (IH w eq_refl) as [-> Hs]. by rewrite Hs.
Qed.

(** A token that splits into exactly two parts is the first part, the
    separator and the second part. *)
Lemma str_split_two c s t d :
  str_split c s = [t; d] → s = t +:+ String c d ∧ str_contains c t = false.
Proof.
  revert t. induction s as [|a s IH]; intros t; simpl; [done|].
  destruct (decide (a = c)) as [->|Hne].
  - intros [= <- Hd]. apply str_split_one in Hd as [-> _]. done.
  - destruct (str_split c s) as [|w ws] eqn:Hw; [done|].
    intros [= <- ->]. destruct (IH w eq_refl) as [-> Hw']. simpl.
    split; [done|]. by rewrite decide_False.
Qed.

End split_facts.

(** ** [resolve_designator] *)

Section resolve_facts.
Context {Qty : Type} {num : PyNumber Qty}.
Implicit Types (st : @ParseState Qty) (inp t d x : string).

(** The three forms of a token: bare, [template.designator], [template.]. *)
Lemma resolve_designator_bare inp st :
  str_contains "." inp = false →
  resolve_designator inp st =
    match designators_and_templates st !! inp with
    | Some _ => (inr (inp, inp), st)
    | None =>
      (inr (inp, inp),
       set_designators_and_templates (<[inp := inp]> (designators_and_templates st)) st)
    end.
Proof.
  intros Hinp. unfold resolve_designator. rewrite Hinp.
  unfold bind, get. by destruct (designators_and_templates st !! inp).
Qed.

Lemma resolve_designator_dotted t d st :
  str_contains "." t = false → str_contains "." d = false → d ≠ "" →
  resolve_designator (t +:+ "." +:+ d) st =
    match designators_and_templates st !! d with
    | Some bound =>
      if decide (bound ≠ t) then (inl DesignatorConflict, st) else (inr (t, d), st)
    | None =>
      (inr (t, d),
       set_designators_and_templates (<[d := t]> (designators_and_templates st)) st)
    end.
Proof.
  intros Ht Hd Hne. unfold resolve_designator.
  change ("." +:+ d) with (String "." d).
  rewrite str_contains_app_sep, (str_split_app_sep _ _ _ Ht), (str_split_no_sep _ _ Hd).
  rewrite decide_False by done. unfold bind, get, ret. simpl.
  destruct (designators_and_templates st !! d) as [bound|]; [|done].
  by destruct (decide (bound ≠ t)).
Qed.

Lemma resolve_designator_auto t st :
  str_contains "." t = false →
  resolve_designator (t +:+ ".") st =
    let n := auto_count st t + 1 in
    let st' := set_autogenerated_designators
                 (<[t := n]> (autogenerated_designators st)) st in
    match designators_and_templates st !! auto_designator t n with
    | Some bound =>
      if decide (bound ≠ t) then (inl DesignatorConflict, st')
      else (inr (t, auto_designator t n), st')
    | None =>
      (inr (t, auto_designator t n),
       set_designators_and_templates
         (<[auto_designator t n := t]> (designators_and_templates st)) st')
    end.
Proof.
  intros Ht. unfold resolve_designator.
  rewrite str_contains_app_sep, (str_split_app_sep _ _ _ Ht). simpl.
  unfold bind, get, ret, modify. simpl.
  destruct (designators_and_templates st !! _) as [bound|]; [|done].
  by destruct (decide (bound ≠ t)).
Qed.

(** Only the token [x.] moves the counter of [x], and it moves it by one,
    whether the resolution succeeds or raises. *)
Lemma resolve_designator_count inp st x :
  str_contains "." x = false →
  auto_count (resolve_designator inp st).2 x =
    auto_count st x + (if decide (inp = x +:+ ".") then 1 else 0).
Proof.
  intros Hx. destruct (decide (inp = x +:+ ".")) as [->|Hne].
  - rewrite (resolve_designator_auto _ _ Hx). cbv zeta. unfold auto_count.
    destruct (designators_and_templates st !! _) as [bound|];
      [destruct (decide (bound ≠ x))|]; simpl; by rewrite lookup_insert_eq.
  - rewrite Z.add_0_r. unfold resolve_designator.
    destruct (str_contains "." inp); cycle 1.
    { unfold bind, get. by destruct (designators_and_templates st !! inp). }
    destruct (str_split "." inp) as [|t [|d [|? ?]]] eqn:Hsplit; try done.
    apply str_split_two in Hsplit as [-> Ht].
    destruct (decide (d = "")) as [->|Hd].
    + assert (t ≠ x) by congruence.
      unfold bind, get, ret, modify, auto_count. simpl.
      destruct (designators_and_templates st !! _) as [bound|];
        [destruct (decide (bound ≠ t))|]; simpl; by rewrite lookup_insert_ne.
    + unfold bind, get, ret, modify, auto_count. simpl.
      destruct (designators_and_templates st !! _) as [bound|];
        [destruct (decide (bound ≠ t))|]; done.
Qed.

(** The same over a run of resolutions that all succeed. *)
Lemma map_m_resolve_count toks st outs st' x :
  str_contains "." x = false →
  map_m resolve_designator toks st = (inr outs, st') →
  auto_count st' x = auto_count st x + Z.of_nat (py_count toks (x +:+ ".")).
Proof.
  intros Hx. revert st outs. induction toks as [|tok toks IH]; intros st outs; simpl.
  - intros [= _ <-]. lia.
  - unfold bind at 1.
    pose proof (resolve_designator_count tok st x Hx) as Hstep.
    destruct (resolve_designator tok st) as [[e|out] st1]; [done|]. simpl in Hstep.
    unfold bind at 1.
    destruct (map_m resolve_designator toks st1) as [[e|outs1] st2] eqn:Hrest; [done|].
    intros [= _ <-]. rewrite (IH _ _ Hrest), Hstep.
    destruct (decide (tok = x +:+ ".")); lia.
Qed.

(** C5 (as amended). After a run of resolutions from the start of a pass
    that all succeeded, whatever their tokens, resolving [x.] when it has
    been resolved [n - 1] times before gives the designator [_x_n] under the
    template [x]; the only exception is that [_x_n] is already bound to
    another template, which is a [DesignatorConflict]. Either way the
    counter of [x] is [n] afterwards. *)
Theorem auto_designator_nth x toks outs st :
  str_contains "." x = false →
  map_m resolve_designator toks ParseState_init = (inr outs, st) →
  let n := Z.of_nat (S (py_count toks (x +:+ "."))) in
  let taken := ∃ bound, designators_and_templates st !! auto_designator x n = Some bound
                        ∧ bound ≠ x in
  (taken → (resolve_designator (x +:+ ".") st).1 = inl DesignatorConflict)
  ∧ (¬ taken → (resolve_designator (x +:+ ".") st).1 = inr (x, auto_designator x n))
  ∧ autogenerated_designators (resolve_designator (x +:+ ".") st).2 !! x = Some n.
Proof.
  intros Hx Hrun n taken.
  pose proof (map_m_resolve_count _ _ _ _ x Hx Hrun) as Hcount.
  unfold auto_count in Hcount at 2. simpl in Hcount. rewrite lookup_empty in Hcount.
  simpl in Hcount.
  rewrite (resolve_designator_auto _ _ Hx). cbv zeta.
  replace (auto_count st x + 1) with n by lia.
  subst taken. split; [|split].
  - intros (bound & -> & Hne). by rewrite decide_True.
  - intros Hfree. destruct (designators_and_templates st !! _) as [bound|]; [|done].
    destruct (decide (bound ≠ x)); [|done]. destruct Hfree. by exists bound.
  - destruct (designators_and_templates st !! _) as [bound|];
      [destruct (decide (bound ≠ x))|]; simpl; by rewrite lookup_insert_eq.
Qed.

(** C6 (as amended). A token [t.d] whose designator [d] is bound to [t]
    already resolves without an error and leaves the state as it is; bound
    to another template it raises [DesignatorConflict]. A bare token that
    names a bound designator never raises and leaves the state as it is,
    whatever template the designator is bound to. *)
Theorem resolve_designator_again t d bound st :
  str_contains "." t = false → str_contains "." d = false → d ≠ "" →
  designators_and_templates st !! d = Some bound →
  (bound = t → resolve_designator (t +:+ "." +:+ d) st = (inr (t, d), st))
  ∧ (bound ≠ t → resolve_designator (t +:+ "." +:+ d) st = (inl DesignatorConflict, st))
  ∧ resolve_designator d st = (inr (d, d), st).
Proof.
  intros Ht Hd Hne Hbound. split; [|split].
  - intros ->. rewrite (resolve_designator_dotted _ _ _ Ht Hd Hne), Hbound.
    by rewrite decide_False by (by intros ?).
  - intros Hdiff. rewrite (resolve_designator_dotted _ _ _ Ht Hd Hne), Hbound.
    by rewrite decide_True.
  - by rewrite (resolve_designator_bare _ _ Hd), Hbound.
Qed.

End resolve_facts.

Section resolve_scenarios.
Import Scenario.

(** The first two auto-designators of the template [X]. *)
Lemma auto_designator_first_two :
  str_contains "." "X" = false
  ∧ (resolve_designator "X." (@ParseState_init Z)).1 = inr ("X", "_X_1")%string
  ∧ (resolve_designator "X."
       (map_m resolve_designator ["X."] (@ParseState_init Z)).2).1
    = inr ("X", "_X_2")%string.
Proof.
  split; [reflexivity|]. split.
  - destruct (auto_designator_nth (Qty:=Z) "X" [] [] ParseState_init
                eq_refl eq_refl) as (_ & Hfree & _).
    apply Hfree. intros (bound & Hbound & _). by vm_compute in Hbound.
  - destruct (auto_designator_nth (Qty:=Z) "X" ["X."]
                (match (map_m resolve_designator ["X."] (@ParseState_init Z)).1 with
                 | inr outs => outs
                 | inl _ => []
                 end)
                (map_m resolve_designator ["X."] (@ParseState_init Z)).2
                eq_refl eq_refl) as (_ & Hfree & _).
    apply Hfree. intros (bound & Hbound & _). by vm_compute in Hbound.
Defined.

(** C5 as stated fails when the name to generate is taken: after the token
    [Y._X_1], the first resolution of [X.] raises instead of yielding
    [_X_1]. *)
Lemma auto_designator_counterexample :
  ((do _ <- resolve_designator "Y._X_1"; resolve_designator "X.")%py
     (@ParseState_init Z)).1 = inl DesignatorConflict
  ∧ ((do _ <- resolve_designator "Y._X_1"; resolve_designator "X.")%py
       (@ParseState_init Z)).1 ≠ inr ("X", "_X_1")%string.
Proof. split; [reflexivity | by vm_compute]. Qed.

(** The state in which [X2] is bound to the template [X1]. *)
Lemma resolve_designator_again_witness :
  let st := (resolve_designator "X1.X2" (@ParseState_init Z)).2 in
  designators_and_templates st !! "X2" = Some "X1"
  ∧ resolve_designator "X1.X2" st = (inr ("X1", "X2")%string, st)
  ∧ resolve_designator "X2" st = (inr ("X2", "X2")%string, st).
Proof.
  intros st.
  assert (designators_and_templates st !! "X2" = Some "X1") as Hbound by reflexivity.
  split; [done|].
  destruct (resolve_designator_again "X1" "X2" "X1" st eq_refl eq_refl
              ltac:(done) Hbound) as (Hsame & _ & Hbare).
  split; [by apply Hsame | done].
Defined.

(** C6 as stated fails for the bare form: [X2] is bound to the template
    [X1]; the bare token [X2], whose template would be [X2], resolves
    without an error. *)
Lemma resolve_designator_bare_counterexample :
  ((do _ <- resolve_designator "X1.X2"; resolve_designator "X2")%py
     (@ParseState_init Z)).1 = inr ("X2", "X2")%string
  ∧ ((do _ <- resolve_designator "X1.X2"; resolve_designator "X2")%py
       (@ParseState_init Z)).1 ≠ inl DesignatorConflict.
Proof. split; [reflexivity | by vm_compute]. Qed.

End resolve_scenarios.

(** ** The width of a connection set *)

Section width_facts.
Context {Qty : Type} {num : PyNumber Qty}.
Implicit Types (st : @ParseState Qty) (cs : list entry) (n : nat).

Lemma map_r_Forall2 {A B} (f : A → exn + B) (l : list A) (ys : list B) :
  map_r f l = inr ys ↔ Forall2 (λ x y, f x = inr y) l ys.
Proof.
  revert ys. induction l as [|x l IH]; intros ys; simpl.
  - split; [intros [= <-]; constructor | by intros ->%Forall2_nil_inv_l].
  - destruct (f x) as [e|y] eqn:Hx; simpl.
    + split; [done|]. intros (y & ys' & Hy & _ & _)%Forall2_cons_inv_l. congruence.
    + destruct (map_r f l) as [e|ys'] eqn:Hl; simpl.
      * split; [done|]. intros (y' & ys' & _ & Hys & _)%Forall2_cons_inv_l.
        by apply IH in Hys.
      * split.
        -- intros [= <-]. constructor; [done | by apply IH].
        -- intros (y' & ys'' & Hy & Hys & ->)%Forall2_cons_inv_l.
           apply IH in Hys. congruence.
Qed.

Lemma map_m_length {S A B} (f : A → M S B) (l : list A) s ys s' :
  map_m f l s = (inr ys, s') → length ys = length l.
Proof.
  revert s ys. induction l as [|x l IH]; intros s ys; simpl.
  - by intros [= <- _].
  - unfold bind at 1. destruct (f x s) as [[e|y] s1]; [done|].
    unfold bind at 1. destruct (map_m f l s1) as [[e|ys1] s2] eqn:Hl; [done|].
    intros [= <- ->]. simpl. f_equal. by eapply IH.
Qed.

Lemma map_m_Forall2 {S A B} (f : A → M S B) (R : A → B → Prop) (l : list A) :
  (∀ x s y s', f x s = (inr y, s') → R x y) →
  ∀ s ys s', map_m f l s = (inr ys, s') → Forall2 R l ys.
Proof.
  intros Hf. induction l as [|x l IH]; intros s ys s'; simpl.
  - intros [= <- _]. constructor.
  - unfold bind at 1. destruct (f x s) as [[e|y] s1] eqn:Hx; [done|].
    unfold bind at 1. destruct (map_m f l s1) as [[e|ys1] s2] eqn:Hl; [done|].
    intros [= <- ->]. constructor; [by eapply Hf | by eapply IH].
Qed.

Lemma connection_counts_reveals cs counts :
  connection_counts cs = inr counts →
  Forall2 (λ e c, ∀ n, c = Some n ↔ reveals e n) cs counts.
Proof.
  unfold connection_counts. rewrite map_r_Forall2. intros Hall.
  eapply Forall2_impl; [exact Hall|]. clear Hall. intros e c Hc n. destruct e as [s|l|key value]; simpl in *.
  - by injection Hc as <-.
  - injection Hc as <-. split; [by intros [= <-] | by intros ->].
  - destruct (expand value) as [err|pinlist]; simpl in Hc; [done|].
    injection Hc as <-. split.
    + intros [= <-]. by exists pinlist.
    + intros (pl & [= <-] & <-). done.
Qed.

Lemma filter_none_elem counts n :
  n ∈ filter_none counts ↔ Some n ∈ counts ∧ n ≠ 0%nat.
Proof.
  unfold filter_none. rewrite list_elem_of_omap. split.
  - intros (c & Hc & Hn). destruct c as [[|m]|]; simpl in Hn; try done.
    injection Hn as <-. done.
  - intros [Hc Hn]. exists (Some n). split; [done|]. by destruct n.
Qed.

Lemma existsb_count_truthy counts :
  existsb count_truthy counts = true ↔ filter_none counts ≠ [].
Proof.
  induction counts as [|c counts IH]; simpl; [done|].
  unfold filter_none in *. simpl.
  destruct c as [[|m]|]; simpl; [done| |done]. split; done.
Qed.

(** What a successful count determination says: the count is not zero, and
    every entry that reveals a count other than zero reveals this one. *)
Lemma determine_count_inr cs n :
  determine_count cs = inr n →
  n ≠ 0%nat ∧ (∃ e, e ∈ cs ∧ reveals e n)
  ∧ (∀ e m, e ∈ cs → reveals e m → m = 0%nat ∨ m = n)
  ∧ (∀ key value, EDict key value ∈ cs → ∃ pinlist, expand value = inr pinlist).
Proof.
  unfold determine_count.
  destruct (connection_counts cs) as [err|counts] eqn:Hcounts; simpl; [done|].
  destruct (existsb count_truthy counts); simpl; [|done].
  case_bool_decide as Hsize; [done|].
  destruct (filter_none counts) as [|n' rest] eqn:Hfilter; [done|].
  intros [= ->].
  pose proof (connection_counts_reveals _ _ Hcounts) as Hrev.
  assert (n ∈ filter_none counts) as Hn by (rewrite Hfilter; left).
  apply filter_none_elem in Hn as [Hn Hn0].
  split; [done|]. split; [|split].
  - apply list_elem_of_lookup in Hn as [i Hi].
    destruct (Forall2_lookup_r _ _ _ _ _ Hrev Hi) as (e & He & Hen).
    exists e. split; [by eapply list_elem_of_lookup_2 | by apply Hen].
  - intros e m He Hm. destruct (decide (m = 0%nat)) as [|Hm0]; [by left|right].
    apply list_elem_of_lookup in He as [i Hi].
    destruct (Forall2_lookup_l _ _ _ _ _ Hrev Hi) as (c & Hc & Hec).
    apply Hec in Hm. subst c.
    assert (m ∈ filter_none counts) as Hmf.
    { apply filter_none_elem. split; [by eapply list_elem_of_lookup_2 | done]. }
    assert (n ∈ filter_none counts) as Hnf by (rewrite Hfilter; left).
    set (X := list_to_set (filter_none counts) : gset nat) in *.
    assert (m ∈ X) as HmX by by apply elem_of_list_to_set.
    assert (n ∈ X) as HnX by by apply elem_of_list_to_set.
    rewrite <-Hfilter in Hsize. fold X in Hsize.
    assert (size X = 1%nat) as Hone.
    { assert (size X ≠ 0%nat); [|lia].
      apply size_non_empty_iff. intros Hempty. by rewrite Hempty in HmX. }
    by apply (size_singleton_inv X).
  - intros key value He. unfold connection_counts in Hcounts.
    apply map_r_Forall2 in Hcounts.
    apply list_elem_of_lookup in He as [i Hi].
    destruct (Forall2_lookup_l _ _ _ _ _ Hcounts Hi) as (c & _ & Hc).
    simpl in Hc. destruct (expand value) as [err|pinlist]; [done | by eexists].
Qed.

(** The two failures of count determination that the code does detect. *)
Lemma determine_count_ambiguous cs :
  Forall (λ e, ∀ n, reveals e n → n = 0%nat) cs →
  (∀ key value, EDict key value ∈ cs → ∃ pinlist, expand value = inr pinlist) →
  determine_count cs = inl AmbiguousConnectionCount.
Proof.
  intros Hnone Hexp. unfold determine_count.
  assert (∃ counts, connection_counts cs = inr counts) as [counts Hcounts].
  { clear Hnone. unfold connection_counts.
    induction cs as [|e cs IH]; simpl; [by eexists|].
    destruct IH as [counts ->].
    { intros key value He'. apply (Hexp key). by right. }
    destruct e as [s|l|key value]; simpl; [by eexists..|].
    destruct (Hexp key value ltac:(left)) as [pl ->]. simpl. by eexists. }
  rewrite Hcounts. simpl.
  destruct (existsb count_truthy counts) eqn:Hany; [|done]. exfalso.
  apply existsb_count_truthy in Hany.
  destruct (filter_none counts) as [|m rest] eqn:Hfilter; [done|].
  assert (m ∈ filter_none counts) as Hm by (rewrite Hfilter; left).
  apply filter_none_elem in Hm as [Hm Hm0].
  pose proof (connection_counts_reveals _ _ Hcounts) as Hrev.
  apply list_elem_of_lookup in Hm as [i Hi].
  destruct (Forall2_lookup_r _ _ _ _ _ Hrev Hi) as (e & He & Hen).
  rewrite Forall_forall in Hnone.
  apply Hm0, (Hnone e); [by eapply list_elem_of_lookup_2 | by apply Hen].
Qed.

Lemma determine_count_inconsistent cs counts e1 e2 n1 n2 :
  connection_counts cs = inr counts →
  e1 ∈ cs → e2 ∈ cs → reveals e1 n1 → reveals e2 n2 →
  n1 ≠ 0%nat → n2 ≠ 0%nat → n1 ≠ n2 →
  determine_count cs = inl InconsistentConnectionCount.
Proof.
  intros Hcounts He1 He2 Hr1 Hr2 Hn1 Hn2 Hne. unfold determine_count.
  rewrite Hcounts. simpl.
  pose proof (connection_counts_reveals _ _ Hcounts) as Hrev.
  assert (∀ e n, e ∈ cs → reveals e n → n ≠ 0%nat → n ∈ filter_none counts) as Hin.
  { intros e n He Hr Hn. apply filter_none_elem. split; [|done].
    apply list_elem_of_lookup in He as [i Hi].
    destruct (Forall2_lookup_l _ _ _ _ _ Hrev Hi) as (c & Hc & Hec).
    apply Hec in Hr. subst c. by eapply list_elem_of_lookup_2. }
  pose proof (Hin _ _ He1 Hr1 Hn1) as H1.
  pose proof (Hin _ _ He2 Hr2 Hn2) as H2.
  destruct (existsb count_truthy counts) eqn:Hany; simpl.
  - rewrite bool_decide_eq_true_2; [done|].
    set (X := list_to_set (filter_none counts) : gset nat).
    assert (n1 ∈ X) as HX1 by by apply elem_of_list_to_set.
    assert (n2 ∈ X) as HX2 by by apply elem_of_list_to_set.
    destruct (decide (size X = 0%nat)) as [Hz|Hz].
    { apply size_empty_iff in Hz. by rewrite Hz in HX1. }
    destruct (decide (size X = 1%nat)) as [Ho|Ho]; [|lia].
    destruct Hne. by apply (size_singleton_inv X).
  - assert (existsb count_truthy counts = true) as Habs; [|congruence].
    apply existsb_count_truthy. intros Hnil. rewrite Hnil in H1.
    by apply elem_of_nil in H1.
Qed.

(** A set whose count cannot be determined is rejected before anything
    else is done with it: the state is the one the set was met in. *)
Lemma parse_connection_set_count_error tc tw cs e st :
  determine_count cs = inl e →
  parse_connection_set tc tw cs st = (inl e, st).
Proof. intros Hcount. unfold parse_connection_set, bind, lift. by rewrite Hcount. Qed.

(** Resolution keeps the shape of a widened entry. *)
Lemma resolve_entry_wide n w st w' st' :
  resolve_entry w st = (inr w', st') → wide n w → wide n w'.
Proof.
  destruct w as [l|key value]; simpl.
  - unfold bind at 1.
    destruct (map_m _ l st) as [[e|ds] st1] eqn:Hl; [done|].
    intros [= <- _] <-. simpl. by eapply map_m_length.
  - unfold bind at 1.
    destruct (resolve_designator key st) as [[e|[template designator]] st1]; [done|].
    by intros [= <- _].
Qed.

Lemma expand_pins_wide n w :
  wide n w → ∃ row, expand_pins w = inr row ∧ length row = n.
Proof.
  destruct w as [l|key value]; simpl.
  - intros <-. eexists. split; [done|]. by rewrite length_fmap.
  - intros (pinlist & -> & <-). simpl. eexists. split; [done|].
    by rewrite length_fmap.
Qed.

Lemma normalize_wide cs n :
  determine_count cs = inr n →
  Forall (λ e, ¬ reveals e 0%nat) cs →
  Forall (wide n) (normalize n cs).
Proof.
  intros (Hn & _ & Hall & Hexp)%determine_count_inr Hnz.
  unfold normalize. rewrite Forall_fmap, Forall_forall. intros e He.
  rewrite Forall_forall in Hnz. specialize (Hnz e He).
  destruct e as [s|l|key value]; simpl.
  - by rewrite length_replicate.
  - destruct (Hall (EList l) (length l) He eq_refl) as [Hz|Hl]; [|done].
    by destruct Hnz.
  - destruct (Hexp key value He) as [pinlist Hpl]. exists pinlist. split; [done|].
    destruct (Hall (EDict key value) (length pinlist) He) as [Hz|Hl]; [| |done].
    + by exists pinlist.
    + destruct Hnz. exists pinlist. by rewrite Hz.
Qed.

(** C4 (as amended). For a connection set that passes count determination
    with the count [n] and has no entry that reveals the count zero: after
    the widening step every entry is a list of [n] designators or, still, a
    mapping whose pin range expands to [n] pins; and once the designators
    are resolved, the pin expansion succeeds and leaves one list for every
    entry of the set, each of exactly [n] records. *)
Theorem normalize_widths cs n st ws st' :
  determine_count cs = inr n →
  Forall (λ e, ¬ reveals e 0%nat) cs →
  map_m resolve_entry (normalize n cs) st = (inr ws, st') →
  Forall (wide n) (normalize n cs)
  ∧ ∃ rows, map_r expand_pins ws = inr rows
            ∧ length rows = length cs
            ∧ Forall (λ row, length row = n) rows.
Proof.
  intros Hcount Hnz Hres.
  pose proof (normalize_wide _ _ Hcount Hnz) as Hwide. split; [done|].
  assert (Forall (wide n) ws) as Hwide'.
  { pose proof (map_m_Forall2 resolve_entry (λ w w', wide n w → wide n w') _
                  (λ w s w' s' Hw, resolve_entry_wide n w s w' s' Hw) _ _ _ Hres)
      as Hstep.
    clear Hres. induction Hstep as [|w w' ws ws' Hw _ IH]; [constructor|].
    apply Forall_cons in Hwide as [Hw0 Hws]. constructor; [by apply Hw | by apply IH]. }
  assert (length ws = length cs) as Hlen.
  { apply map_m_length in Hres. unfold normalize in Hres.
    by rewrite length_fmap in Hres. }
  rewrite <-Hlen. clear Hres Hwide Hlen.
  induction Hwide' as [|w ws Hw _ (rows & Hrows & Hlen & Hall)]; simpl.
  - exists []. by repeat split.
  - destruct (expand_pins_wide _ _ Hw) as (row & -> & Hrow). rewrite Hrows. simpl.
    exists (row :: rows). repeat split; [by rewrite <-Hlen | by constructor].
Qed.

End width_facts.

Section width_scenarios.
Import Scenario.

(** C3: the zero count. The entries [[]] and [[X1, X2]] reveal the counts
    0 and 2; the 0 is dropped with the [None]s, the count is taken to be 2
    and the set is processed to the end without an error. *)
Lemma determine_count_zero_disagreement :
  reveals (EList []) 0 ∧ reveals (EList ["X1"; "X2"]) 2
  ∧ determine_count [EList []; EList ["X1"; "X2"]] = inr 2%nat
  ∧ (parse_connection_set template_connectors template_cables
       [EList []; EList ["X1"; "X2"]] (@ParseState_init Z)).1 = inr tt.
Proof. by vm_compute. Qed.

(** The scenario set has the count 2 and keeps its mapping. *)
Lemma normalize_widths_witness :
  determine_count connection_set = inr 2%nat
  ∧ Forall (wide 2) (normalize 2 connection_set)
  ∧ ∃ rows, map_r expand_pins
              (match (map_m resolve_entry (normalize 2 connection_set)
                        (@ParseState_init Z)).1 with
               | inr cs' => cs'
               | inl _ => []
               end) = inr rows
            ∧ length rows = 3%nat
            ∧ Forall (λ row, length row = 2%nat) rows.
Proof.
  split; [reflexivity|].
  apply (normalize_widths (Qty:=Z) connection_set 2 ParseState_init _
           (map_m resolve_entry (normalize 2 connection_set)
              (@ParseState_init Z)).2).
  - reflexivity.
  - apply Forall_cons; split; [by intros []|].
    apply Forall_cons; split.
    { intros (pinlist & Hexp & Hlen). vm_compute in Hexp.
      injection Hexp as <-. done. }
    apply Forall_cons; split; [by intros [] | constructor].
  - reflexivity.
Defined.

(** C4 as stated fails on the scenario set: the set passes count
    determination with the count 2, and after the widening step its second
    entry is the mapping it was, not a list. *)
Lemma normalize_widths_counterexample :
  determine_count connection_set = inr 2%nat
  ∧ ¬ Forall (list_of_length 2) (normalize 2 connection_set).
Proof.
  split; [reflexivity|]. intros Hall.
  apply Forall_cons in Hall as [_ Hall]. apply Forall_cons in Hall as [Habs _].
  exact Habs.
Qed.

End width_scenarios.

(** ** The end-to-end scenario *)

Section end_to_end.
Import Scenario.

(** C1 (as amended). On the scenario document the engine makes exactly two
    connect operations, [(X1,1)-(W1,1)-(X2,1)] and [(X1,1)-(W1,2)-(X2,1)]: a
    bare designator stands for pin 1 in every chain, and only the mapping
    of the cable runs through its pin range. Both operations succeed and
    are recorded on [W1]; [X2] is an instance of the template [X1]. With
    the bare token [X2] in place of [X1.X2] the operations are the same. *)
Theorem end_to_end_scenario :
  let run := parse template_connectors template_cables [connection_set] []
               (@ParseState_init Z) in
  run.1 = inr tt
  ∧ connect_calls run.2
    = [(Some "X1", PInt 1, "W1", PInt 1, Some "X2", PInt 1);
       (Some "X1", PInt 1, "W1", PInt 2, Some "X2", PInt 1)]%string
  ∧ Cable.connections <$> dict_get "W1" (cables (harness run.2))
    = Some [mkConnection (Some "X1") (PInt 1) (PInt 1) (Some "X2") (PInt 1);
            mkConnection (Some "X1") (PInt 1) (PInt 2) (Some "X2") (PInt 1)]
  ∧ designators_and_templates run.2 !! "X2" = Some "X1"
  ∧ Connector.pins <$> dict_get "X2" (connectors (harness run.2))
    = Some [PInt 1; PInt 2]
  ∧ connect_calls
      (parse template_connectors template_cables
         [[EStr "X1"; EDict "W1" (VScalar (PStr "1-2")); EStr "X2"]] []
         (@ParseState_init Z)).2
    = connect_calls run.2.
Proof. by vm_compute. Qed.

(** C1 as stated fails: the connect operations of the scenario are not
    [(X1,1)-(W1,1)-(X2,1)] and [(X1,2)-(W1,2)-(X2,2)]. *)
Lemma end_to_end_counterexample :
  connect_calls
    (parse template_connectors template_cables [connection_set] []
       (@ParseState_init Z)).2
  ≠ [(Some "X1", PInt 1, "W1", PInt 1, Some "X2", PInt 1);
     (Some "X1", PInt 2, "W1", PInt 2, Some "X2", PInt 2)]%string.
Proof. by vm_compute. Qed.

End end_to_end.

(** ** Sorting, deduplication, numbering *)

Section sorting_facts.
Context {A K : Type} (le : K → K → bool) (key : A → K).
Implicit Types (x : A) (l : list A).

Lemma insert_by_Permutation x l : insert_by le key x l ≡ₚ x :: l.
Proof.
  induction l as [|y l IH]; simpl; [done|].
  destruct (le (key x) (key y)); [done|]. rewrite IH. apply Permutation_swap.
Qed.

Lemma sorted_by_Permutation l : sorted_by le key l ≡ₚ l.
Proof.
  induction l as [|x l IH]; simpl; [done|].
  unfold sorted_by in *. simpl. by rewrite insert_by_Permutation, IH.
Qed.

Lemma sorted_by_elem x l : x ∈ sorted_by le key l ↔ x ∈ l.
Proof. by rewrite sorted_by_Permutation. Qed.

Context (le_total : ∀ a b, le a b = true ∨ le b a = true).

Lemma insert_by_Sorted x l :
  Sorted (λ a b, le (key a) (key b)) l →
  Sorted (λ a b, le (key a) (key b)) (insert_by le key x l).
Proof.
  induction 1 as [|y l Hl IH Hhd]; simpl.
  - by repeat constructor.
  - destruct (le (key x) (key y)) eqn:Hxy.
    + constructor; [by constructor|]. constructor. by rewrite Hxy.
    + constructor; [done|].
      destruct Hhd as [|z l Hyz]; simpl.
      * constructor. destruct (le_total (key x) (key y)) as [Hle|Hle]; [congruence|].
        by rewrite Hle.
      * destruct (le (key x) (key z)); constructor; [|done].
        destruct (le_total (key x) (key y)) as [Hle|Hle]; [congruence|].
        by rewrite Hle.
Qed.

Lemma sorted_by_Sorted l : Sorted (λ a b, le (key a) (key b)) (sorted_by le key l).
Proof.
  induction l as [|x l IH]; [constructor|].
  unfold sorted_by in *. simpl. by apply insert_by_Sorted.
Qed.

End sorting_facts.

Section fromkeys_facts.
Context {A : Type} `{EqDecision A}.
Implicit Types (x : A) (l seen : list A).

Lemma fromkeys_fold l seen :
  let r := fold_left (λ seen x, if py_in x seen then seen else seen ++ [x]) l seen in
  (NoDup seen → NoDup r) ∧ (∀ x, x ∈ r ↔ x ∈ seen ∨ x ∈ l).
Proof.
  revert seen. induction l as [|y l IH]; intros seen; simpl.
  - split; [done|]. intros x. rewrite elem_of_nil. naive_solver.
  - destruct (IH (if py_in y seen then seen else seen ++ [y])) as [Hnd Hel].
    unfold py_in in *. split.
    + intros Hseen. apply Hnd. case_bool_decide; [done|].
      apply NoDup_app. split; [done|]. split; [|apply NoDup_singleton].
      intros x Hx ->%list_elem_of_singleton. done.
    + intros x. rewrite Hel, elem_of_cons. case_bool_decide as Hy.
      * split; [naive_solver|]. intros [?|[->|?]]; auto.
      * rewrite elem_of_app, list_elem_of_singleton. naive_solver.
Qed.

Lemma fromkeys_NoDup l : NoDup (fromkeys l).
Proof. apply (fromkeys_fold l []). constructor. Qed.

Lemma fromkeys_elem x l : x ∈ fromkeys l ↔ x ∈ l.
Proof.
  unfold fromkeys. rewrite (proj2 (fromkeys_fold l [])), elem_of_nil. naive_solver.
Qed.

Lemma fromkeys_Permutation l l' : l ≡ₚ l' → fromkeys l ≡ₚ fromkeys l'.
Proof.
  intros Hp. apply NoDup_Permutation; [apply fromkeys_NoDup..|].
  intros x. by rewrite !fromkeys_elem, Hp.
Qed.

End fromkeys_facts.

Section concat_facts.
Context {A : Type}.

Lemma concat_elem (x : A) (ls : list (list A)) :
  x ∈ concat ls ↔ ∃ l, l ∈ ls ∧ x ∈ l.
Proof.
  induction ls as [|l ls IH]; simpl.
  - rewrite elem_of_nil. split; [done|]. by intros (l & ?%elem_of_nil & _).
  - rewrite elem_of_app, IH. split.
    + intros [Hx|(l' & Hl' & Hx)]; [exists l | exists l']; split; auto; by constructor.
    + intros (l' & [->|Hl']%elem_of_cons & Hx); [by left | right; by exists l'].
Qed.

Lemma concat_Permutation (ls ls' : list (list A)) :
  ls ≡ₚ ls' → concat ls ≡ₚ concat ls'.
Proof.
  induction 1 as [|l ls ls' _ IH|l l' ls|ls1 ls2 ls3 _ IH1 _ IH2]; simpl.
  - done.
  - by rewrite IH.
  - rewrite !(assoc_L (++)). f_equiv. apply Permutation_app_comm.
  - by rewrite IH1.
Qed.

End concat_facts.

Lemma map_r_Permutation {A B} (f : A → exn + B) (l l' : list A) (ys : list B) :
  l ≡ₚ l' → map_r f l = inr ys → ∃ ys', map_r f l' = inr ys' ∧ ys ≡ₚ ys'.
Proof.
  intros Hp. revert ys.
  induction Hp as [|x l l' _ IH|x y l|l1 l2 l3 _ IH1 _ IH2]; intros ys; simpl.
  - intros [= <-]. by exists [].
  - destruct (f x) as [e|z]; simpl; [done|].
    destruct (map_r f l) as [e|zs]; simpl; [done|]. intros [= <-].
    destruct (IH zs eq_refl) as (zs' & -> & Hzs). simpl.
    exists (z :: zs'). split; [done|]. by constructor.
  - destruct (f y) as [e|b]; simpl; [done|].
    destruct (f x) as [e|a]; simpl; [done|].
    destruct (map_r f l) as [e|zs]; simpl; [done|]. intros [= <-].
    exists (a :: b :: zs). split; [done|]. apply Permutation_swap.
  - intros Hys. destruct (IH1 ys Hys) as (ys2 & Hys2 & Hp12).
    destruct (IH2 ys2 Hys2) as (ys3 & Hys3 & Hp23).
    exists ys3. split; [done|]. by etrans.
Qed.

(** ** The BOM *)

Section bom_facts.
Context {Qty : Type} {num : PyNumber Qty}.
Implicit Types (entries : list (BomEntry.t Qty)) (k : group_key)
  (l : list (BomGroup.t Qty)) (r : BomRow.t Qty) (g : BomGroup.t Qty).

#[local] Abbreviation by_item := (λ g1 g2 : BomGroup.t Qty,
  String.le (BomGroup.item g1) (BomGroup.item g2)).
#[local] Abbreviation rows_by_item := (λ r1 r2 : BomRow.t Qty,
  String.le (BomRow.item r1) (BomRow.item r2)).
#[local] Abbreviation numbered k l :=
  ((λ '(index, entry), add_id (S index) entry) <$> zip (seq k (length l)) l).

(** *** Numbering *)

Lemma numbered_strip (n : nat) l : strip_id <$> numbered n l = l.
Proof.
  revert n. induction l as [|g l IH]; intros n; simpl; [done|].
  f_equal; [by destruct g | apply IH].
Qed.

Lemma numbered_ids (n : nat) l :
  BomRow.id <$> numbered n l = Z.of_nat <$> seq (S n) (length l).
Proof.
  revert n. induction l as [|g l IH]; intros n; simpl; [done|].
  f_equal. apply IH.
Qed.

Lemma number_rows_strip l : strip_id <$> number_rows l = l.
Proof. apply numbered_strip. Qed.

Lemma number_rows_ids l :
  BomRow.id <$> number_rows l = Z.of_nat <$> seq 1 (length (number_rows l)).
Proof.
  unfold number_rows, enumerate. rewrite numbered_ids.
  by rewrite length_fmap, length_zip, length_seq, Nat.min_id.
Qed.

Lemma row_key_strip r : row_key r = group_key_of (strip_id r).
Proof. done. Qed.

Lemma Sorted_fmap_inv {A B} (R : relation B) (f : A → B) (xs : list A) :
  Sorted R (f <$> xs) → Sorted (λ a b, R (f a) (f b)) xs.
Proof.
  induction xs as [|x xs IH]; simpl; [constructor|].
  intros [Hs Hhd]%Sorted_inv. constructor; [by apply IH|].
  destruct xs; simpl in *; constructor. by apply HdRel_inv in Hhd.
Qed.

(** *** Groups *)

Lemma group_key_of_merged entries k : group_key_of (merged_group entries k) = k.
Proof. by destruct k as [[[[??]?]?]?]. Qed.

Lemma group_row_merged entries k :
  k ∈ bom_types_group <$> entries →
  group_row entries k = inr (merged_group entries k).
Proof.
  intros (first & -> & Hfirst)%list_elem_of_fmap.
  unfold group_row, merged_group, members.
  assert (first ∈ filter (λ v, bom_types_group v = bom_types_group first) entries)
    as Hmem by by apply list_elem_of_filter.
  destruct (filter _ entries) as [|e0 rest] eqn:Hfilter.
  { by apply elem_of_nil in Hmem. }
  assert (bom_types_group e0 = bom_types_group first) as Hkey.
  { assert (e0 ∈ filter (λ v, bom_types_group v = bom_types_group first) entries)
      as He0 by (rewrite Hfilter; left).
    apply list_elem_of_filter in He0 as [He0 _]. exact He0. }
  rewrite <-Hkey. done.
Qed.

Lemma map_r_fmap {A B} (f : A → exn + B) (g : A → B) (xs : list A) :
  (∀ x, x ∈ xs → f x = inr (g x)) → map_r f xs = inr (g <$> xs).
Proof.
  induction xs as [|x xs IH]; intros Hf; simpl; [done|].
  rewrite (Hf x) by left. simpl. rewrite IH; [done|].
  intros y Hy. apply Hf. by right.
Qed.

(** The code computes the table of the design document. *)
Lemma bom_rows_table entries : bom_rows entries = inr (bom_table entries).
Proof.
  unfold bom_rows, bom_table.
  rewrite (map_r_fmap _ (merged_group entries)); [done|].
  intros k Hk. apply group_row_merged. exact (proj1 (fromkeys_elem _ _) Hk).
Qed.

Lemma le_Sorted_designators (ds : list string) :
  Sorted String.le (sorted_by String.leb (λ d, d) ds).
Proof. apply (sorted_by_Sorted String.leb (λ d, d) String.leb_total). Qed.

Lemma by_item_Sorted l : Sorted by_item (sorted_by String.leb BomGroup.item l).
Proof. apply (sorted_by_Sorted String.leb BomGroup.item String.leb_total). Qed.

(** The properties of the table. *)
Lemma bom_table_keys entries :
  row_key <$> bom_table entries ≡ₚ fromkeys (bom_types_group <$> entries).
Proof.
  unfold bom_table.
  rewrite (list_fmap_ext row_key (group_key_of ∘ strip_id) _ (λ _ _ _, eq_refl)).
  rewrite list_fmap_compose, number_rows_strip, sorted_by_Permutation.
  rewrite <-list_fmap_compose.
  rewrite (list_fmap_ext _ id _ (λ _ k _, group_key_of_merged entries k)).
  by rewrite list_fmap_id.
Qed.

Lemma bom_table_row entries r :
  r ∈ bom_table entries →
  row_key r ∈ bom_types_group <$> entries
  ∧ strip_id r = merged_group entries (row_key r).
Proof.
  intros Hr. apply (list_elem_of_fmap_2 strip_id) in Hr.
  unfold bom_table in Hr. rewrite number_rows_strip, sorted_by_elem in Hr.
  apply list_elem_of_fmap in Hr as (k & Hg & Hk).
  apply (proj1 (fromkeys_elem _ _)) in Hk.
  rewrite row_key_strip, Hg, group_key_of_merged. done.
Qed.

Lemma bom_table_Sorted entries : Sorted rows_by_item (bom_table entries).
Proof.
  apply (Sorted_fmap_inv by_item strip_id).
  unfold bom_table. rewrite number_rows_strip. apply by_item_Sorted.
Qed.

End bom_facts.

Section bom_claims.
Context {Qty : Type} {num : PyNumber Qty}.
Context (clean_whitespace : string → string).
Context (index_if_list : cable_attr → nat → pyval).
Context (connector_qty_multiplier : Connector.t Qty → pyval → Qty).
Context (cable_qty_multiplier : Cable.t Qty → pyval → Qty).
Implicit Types (h : Harness Qty) (entries : list (BomEntry.t Qty))
  (rows : list (BomRow.t Qty)).

#[local] Abbreviation the_entries :=
  (bom_entries index_if_list connector_qty_multiplier cable_qty_multiplier).
#[local] Abbreviation the_bom :=
  (bom clean_whitespace index_if_list connector_qty_multiplier cable_qty_multiplier).
#[local] Abbreviation the_bom_index :=
  (get_bom_index clean_whitespace index_if_list connector_qty_multiplier
     cable_qty_multiplier).

(** The first call on a harness whose cache is empty computes the table of
    the cleaned entries and stores it. *)
Lemma bom_fresh h entries :
  _bom h = [] → the_entries h = inr entries →
  the_bom h = (inr (bom_table (clean_entry clean_whitespace <$> entries)),
               set_bom (bom_table (clean_entry clean_whitespace <$> entries)) h).
Proof.
  intros Hcache Hentries. unfold bom, bind, get, lift, modify, ret.
  by rewrite Hcache, Hentries, bom_rows_table.
Qed.

(** A call on a harness whose cache is not empty returns the cache and
    leaves the harness as it is. *)
Lemma bom_cached h : _bom h ≠ [] → the_bom h = (inr (_bom h), h).
Proof. intros Hcache. unfold bom, bind, get, ret. by destruct (_bom h). Qed.

(** The loop of the code computes the sum of the design document. *)
Lemma py_sum_sum_qty (qs : list Qty) : py_sum qs = sum_qty qs.
Proof.
  unfold py_sum, sum_qty. generalize (q_zero (Qty:=Qty)) as total.
  induction qs as [|q qs IH]; intros total; simpl; [done|].
  by rewrite IH, reverse_cons, foldr_app.
Qed.

(** What an entry adds to the list of its group are its designators. *)
Lemma entry_designators_elem (e : BomEntry.t Qty) (d : string) :
  d ∈ entry_designators e ↔ has_designator e d.
Proof.
  unfold entry_designators, has_designator.
  destruct (BomEntry.designators e) as [|s|l]; [by rewrite elem_of_nil| |done].
  destruct (String.eqb s "") eqn:Hs.
  - apply String.eqb_eq in Hs. rewrite elem_of_nil. by intuition.
  - apply String.eqb_neq in Hs. rewrite list_elem_of_singleton. by intuition.
Qed.

(** C7. On a harness whose BOM has not been computed and whose entries
    can be collected, [bom] returns and stores rows such that: there is
    exactly one row for every grouping key [(item, unit, manufacturer, mpn,
    pn)] among the cleaned entries; the quantity of a row is [round(., 3)]
    of the sum of the quantities of the entries with its key, taken in
    their order from zero; its designators are exactly the designators of
    these entries, a name or the elements of a list of names, without
    duplicates and in sorted order; the rows are sorted by item; their ids
    are 1, 2, ... in that order. The sum and the designators of an entry
    are those of the design document, [sum_qty] and [has_designator], not
    the helpers of the code. *)
Theorem bom_grouping h entries :
  _bom h = [] →
  bom_entries index_if_list connector_qty_multiplier cable_qty_multiplier h
  = inr entries →
  let cleaned := clean_entry clean_whitespace <$> entries in
  ∃ rows,
    bom clean_whitespace index_if_list connector_qty_multiplier
      cable_qty_multiplier h = (inr rows, set_bom rows h)
    ∧ NoDup (row_key <$> rows)
    ∧ (∀ k, k ∈ row_key <$> rows ↔ k ∈ bom_types_group <$> cleaned)
    ∧ (∀ r, r ∈ rows →
         BomRow.qty r
         = q_round3 (sum_qty (BomEntry.qty <$> members cleaned (row_key r)))
         ∧ Sorted String.le (BomRow.designators r)
         ∧ NoDup (BomRow.designators r)
         ∧ ∀ d, d ∈ BomRow.designators r
                ↔ ∃ v, v ∈ members cleaned (row_key r) ∧ has_designator v d)
    ∧ Sorted (λ r1 r2, String.le (BomRow.item r1) (BomRow.item r2)) rows
    ∧ BomRow.id <$> rows = Z.of_nat <$> seq 1 (length rows).
Proof.
  intros Hcache Hentries cleaned. exists (bom_table cleaned).
  split; [by apply bom_fresh|]. split; [|split; [|split; [|split]]].
  - rewrite bom_table_keys. apply fromkeys_NoDup.
  - intros k. by rewrite bom_table_keys, fromkeys_elem.
  - intros r Hr. apply bom_table_row in Hr as [_ Hr].
    assert (BomRow.qty r = BomGroup.qty (strip_id r)) as -> by done.
    assert (BomRow.designators r = BomGroup.designators (strip_id r)) as -> by done.
    rewrite Hr. destruct (row_key r) as [[[[item unit] manufacturer] mpn] pn].
    simpl. split; [by rewrite py_sum_sum_qty|].
    split; [apply le_Sorted_designators|]. split.
    + rewrite sorted_by_Permutation. apply fromkeys_NoDup.
    + intros d. rewrite sorted_by_elem, fromkeys_elem, concat_elem. split.
      * intros (ds & (v & -> & Hv)%list_elem_of_fmap & Hd). exists v.
        split; [done|]. by apply entry_designators_elem.
      * intros (v & Hv & Hd). exists (entry_designators v).
        split; [by apply list_elem_of_fmap_2 | by apply entry_designators_elem].
  - apply bom_table_Sorted.
  - apply number_rows_ids.
Qed.

(** C9. Once a call of [bom] has returned a list that is not empty, that
    list is the cache; in every harness that holds this cache, whatever
    has become of its connectors and cables, [bom] returns the same list
    and [get_bom_index] returns, and both leave the harness as it is. *)
Theorem bom_memoized h rows h' :
  bom clean_whitespace index_if_list connector_qty_multiplier
    cable_qty_multiplier h = (inr rows, h') →
  rows ≠ [] →
  _bom h' = rows
  ∧ ∀ h2, _bom h2 = rows →
      bom clean_whitespace index_if_list connector_qty_multiplier
        cable_qty_multiplier h2 = (inr rows, h2)
      ∧ ∀ item unit manufacturer mpn pn,
          ∃ index,
            get_bom_index clean_whitespace index_if_list connector_qty_multiplier
              cable_qty_multiplier item unit manufacturer mpn pn h2
            = (inr index, h2).
Proof.
  intros Hrun Hrows.
  assert (∀ h2, _bom h2 = rows → the_bom h2 = (inr rows, h2)) as Hcached.
  { intros h2 <-. by apply bom_cached. }
  split.
  - revert Hrun. unfold bom, bind, get, lift, modify, ret.
    destruct (_bom h) as [|r0 cache] eqn:Hcache.
    + destruct (the_entries h) as [e|entries]; [done|].
      destruct (bom_rows _) as [e|rows']; [done|]. by intros [= <- <-].
    + intros [= <- <-]. done.
  - intros h2 Hh2. split; [by apply Hcached|].
    intros item unit manufacturer mpn pn. unfold get_bom_index, bind.
    rewrite (Hcached h2 Hh2). by eexists.
Qed.

(** *** Order independence *)

Lemma NoDup_fmap_eq {A B} (f : A → B) (xs : list A) (x y : A) :
  NoDup (f <$> xs) → x ∈ xs → y ∈ xs → f x = f y → x = y.
Proof.
  induction xs as [|z xs IH]; simpl; [by intros _ ?%elem_of_nil|].
  intros [Hz Hnd]%NoDup_cons [->|Hx]%elem_of_cons [->|Hy]%elem_of_cons Hf; [done| | |].
  - destruct Hz. rewrite Hf. by apply list_elem_of_fmap_2.
  - destruct Hz. rewrite <-Hf. by apply list_elem_of_fmap_2.
  - by apply IH.
Qed.

(** The entries of two harnesses that hold the same connectors, cables and
    freestanding lines in different orders. *)
Lemma bom_entries_Permutation h1 h2 entries1 :
  connectors h1 ≡ₚ connectors h2 → cables h1 ≡ₚ cables h2 →
  additional_bom_items h1 ≡ₚ additional_bom_items h2 →
  the_entries h1 = inr entries1 →
  ∃ entries2, the_entries h2 = inr entries2 ∧ entries1 ≡ₚ entries2.
Proof.
  intros Hconn Hcab Hitems. unfold bom_entries, dict_values.
  destruct (map_r _ (cables h1).*2) as [e|of_cables] eqn:Hmap; simpl; [done|].
  intros [= <-].
  destruct (map_r_Permutation _ _ ((cables h2).*2) _ (fmap_Permutation snd _ _ Hcab) Hmap)
    as (of_cables' & -> & Hperm). simpl.
  eexists. split; [done|].
  apply Permutation_app; [|apply Permutation_app].
  - apply concat_Permutation. by rewrite Hconn.
  - by apply concat_Permutation.
  - by rewrite Hitems.
Qed.

Section exact_sums.
Context (q_add_comm : ∀ a b : Qty, q_add a b = q_add b a).
Context (q_add_assoc : ∀ a b c : Qty, q_add a (q_add b c) = q_add (q_add a b) c).

Lemma fold_left_q_add_Permutation (qs qs' : list Qty) (a : Qty) :
  qs ≡ₚ qs' → fold_left q_add qs a = fold_left q_add qs' a.
Proof.
  intros Hp. revert a.
  induction Hp as [|x qs qs' _ IH|x y qs|qs1 qs2 qs3 _ IH1 _ IH2]; intros a; simpl.
  - done.
  - apply IH.
  - f_equal. by rewrite <-!q_add_assoc, (q_add_comm x y).
  - by rewrite IH1.
Qed.

Lemma merged_group_Permutation entries entries' k :
  entries ≡ₚ entries' → merged_group entries k = merged_group entries' k.
Proof.
  intros Hp.
  assert (members entries k ≡ₚ members entries' k) as Hmem.
  { unfold members. by rewrite Hp. }
  unfold merged_group. destruct k as [[[[item unit] manufacturer] mpn] pn].
  f_equal.
  - f_equal. apply fold_left_q_add_Permutation. by rewrite Hmem.
  - apply (Sorted_unique String.le); [apply le_Sorted_designators..|].
    rewrite !sorted_by_Permutation. apply fromkeys_Permutation.
    apply concat_Permutation. by rewrite Hmem.
Qed.

Lemma bom_table_Permutation entries entries' :
  entries ≡ₚ entries' →
  strip_id <$> bom_table entries ≡ₚ strip_id <$> bom_table entries'
  ∧ (NoDup (BomRow.item <$> bom_table entries) →
     bom_table entries = bom_table entries').
Proof.
  intros Hp.
  set (groups := merged_group entries <$> fromkeys (bom_types_group <$> entries)).
  set (groups' := merged_group entries' <$> fromkeys (bom_types_group <$> entries')).
  assert (groups ≡ₚ groups') as Hgroups.
  { unfold groups, groups'.
    rewrite (list_fmap_ext (merged_group entries) (merged_group entries') _
               (λ _ k _, merged_group_Permutation _ _ k Hp)).
    apply fmap_Permutation, fromkeys_Permutation. by rewrite Hp. }
  assert (sorted_by String.leb BomGroup.item groups
          ≡ₚ sorted_by String.leb BomGroup.item groups') as Hsorted.
  { by rewrite !sorted_by_Permutation. }
  unfold bom_table. fold groups groups'. rewrite !number_rows_strip. split; [done|].
  intros Hnd. f_equal.
  assert (NoDup (BomGroup.item <$> sorted_by String.leb BomGroup.item groups)) as Hitems.
  { rewrite <-(number_rows_strip (sorted_by _ _ groups)), <-list_fmap_compose.
    exact Hnd. }
  assert (Transitive (λ g1 g2 : BomGroup.t Qty,
            String.le (BomGroup.item g1) (BomGroup.item g2))) as Htrans.
  { intros g1 g2 g3 H12 H23. by etrans. }
  apply (Sorted_unique_strong
           (λ g1 g2, String.le (BomGroup.item g1) (BomGroup.item g2)));
    [|apply by_item_Sorted..|done].
  intros g1 g2 Hg1 Hg2 H12 H21.
  apply (NoDup_fmap_eq BomGroup.item _ _ _ Hitems); [done| |].
  - by rewrite Hsorted.
  - by apply (anti_symm String.le).
Qed.

(** C8 (as amended). Take two harnesses whose BOM has not been computed
    and that hold the same connectors, cables and freestanding lines in
    different orders, with quantities whose addition is commutative and
    associative. If [bom] returns on the first it returns on the second,
    and the two lists hold the same rows up to their ids and their order:
    the same groups with the same summed quantities and designators. If no
    two rows have the same item description, the two lists are equal, ids
    included. *)
Theorem bom_order_independent h1 h2 rows1 h1' :
  _bom h1 = [] → _bom h2 = [] →
  connectors h1 ≡ₚ connectors h2 → cables h1 ≡ₚ cables h2 →
  additional_bom_items h1 ≡ₚ additional_bom_items h2 →
  bom clean_whitespace index_if_list connector_qty_multiplier
    cable_qty_multiplier h1 = (inr rows1, h1') →
  ∃ rows2,
    bom clean_whitespace index_if_list connector_qty_multiplier
      cable_qty_multiplier h2 = (inr rows2, set_bom rows2 h2)
    ∧ strip_id <$> rows1 ≡ₚ strip_id <$> rows2
    ∧ (NoDup (BomRow.item <$> rows1) → rows1 = rows2).
Proof.
  intros Hc1 Hc2 Hconn Hcab Hitems Hrun.
  destruct (the_entries h1) as [e|entries1] eqn:Hentries1.
  { revert Hrun. unfold bom, bind, get, lift. by rewrite Hc1, Hentries1. }
  rewrite (bom_fresh _ _ Hc1 Hentries1) in Hrun. injection Hrun as <- _.
  destruct (bom_entries_Permutation _ _ _ Hconn Hcab Hitems Hentries1)
    as (entries2 & Hentries2 & Hperm).
  exists (bom_table (clean_entry clean_whitespace <$> entries2)).
  split; [by apply bom_fresh|].
  apply bom_table_Permutation. by rewrite Hperm.
Qed.

End exact_sums.

End bom_claims.

Section bom_scenarios.
Import Scenario.

#[local] Abbreviation bom_Z :=
  (bom clean_id index_or_none multiplier_one multiplier_one).
#[local] Abbreviation rows_of h :=
  (match (bom_Z h).1 with inr rows => rows | inl _ => [] end).

(** The BOM of three connectors of one type and a cable: three rows. The
    connectors [A] and [C], with the part number [P1], are merged into one
    row of quantity 2 with the designators [A] and [C]; the connector [B],
    with the part number [P2], has a row of its own. *)
Lemma bom_grouping_witness :
  _bom bom_harness = []
  ∧ ∃ rows,
      bom_Z bom_harness = (inr rows, set_bom rows bom_harness)
      ∧ NoDup (row_key <$> rows)
      ∧ (∃ r, r ∈ rows
              ∧ row_key r
                = ("Connector, D-Sub, 2 pins"%string, PNone, PNone, PNone, PStr "P1")
              ∧ BomRow.qty r = 2
              ∧ BomRow.designators r = ["A"; "C"]%string)
      ∧ (∃ r, r ∈ rows
              ∧ row_key r
                = ("Connector, D-Sub, 2 pins"%string, PNone, PNone, PNone, PStr "P2")
              ∧ BomRow.qty r = 1
              ∧ BomRow.designators r = ["B"]%string)
      ∧ Sorted (λ r1 r2, String.le (BomRow.item r1) (BomRow.item r2)) rows
      ∧ BomRow.id <$> rows = Z.of_nat <$> seq 1 (length rows).
Proof.
  split; [reflexivity|].
  destruct (bom_grouping clean_id index_or_none multiplier_one multiplier_one
              bom_harness
              (match bom_entries index_or_none multiplier_one multiplier_one
                       bom_harness with
               | inr entries => entries
               | inl _ => []
               end) eq_refl eq_refl)
    as (rows & Hrun & Hkeys & Hgroups & Hrows & Hsorted & Hids).
  exists rows. split; [exact Hrun|]. split; [exact Hkeys|].
  assert (∀ key total names,
            bool_decide
              (key ∈ bom_types_group
                 <$> (clean_entry clean_id
                        <$> match bom_entries index_or_none multiplier_one
                                    multiplier_one bom_harness with
                            | inr entries => entries
                            | inl _ => []
                            end)) = true →
            (let ms := members
                         (clean_entry clean_id
                            <$> match bom_entries index_or_none multiplier_one
                                        multiplier_one bom_harness with
                                | inr entries => entries
                                | inl _ => []
                                end) key in
             q_round3 (sum_qty (BomEntry.qty <$> ms)) = total
             ∧ Sorted String.le names ∧ NoDup names
             ∧ ∀ d, d ∈ names ↔ ∃ v, v ∈ ms ∧ has_designator v d) →
            ∃ r, r ∈ rows ∧ row_key r = key ∧ BomRow.qty r = total
                 ∧ BomRow.designators r = names) as Hrow.
  { intros key total names Hkey (Htotal & Hnames & Hnodup & Hmembers).
    apply bool_decide_eq_true, Hgroups, list_elem_of_fmap in Hkey
      as (r & -> & Hr).
    destruct (Hrows r Hr) as (Hqty & Hs & Hnd & Hd).
    exists r. split; [exact Hr|]. split; [reflexivity|]. split; [congruence|].
    apply (Sorted_unique String.le); [exact Hs | exact Hnames |].
    apply NoDup_Permutation; [exact Hnd | exact Hnodup |].
    intros d. by rewrite Hd, Hmembers. }
  split; [|split; [|split; [exact Hsorted | exact Hids]]].
  - apply Hrow; [reflexivity|]. split; [reflexivity|].
    split; [repeat constructor; by vm_compute|].
    split; [apply (bool_decide_unpack _); by vm_compute|].
    intros d. vm_compute members. unfold has_designator. simpl. split.
    + rewrite !elem_of_cons, elem_of_nil. intros [->|[->|[]]].
      * eexists. split; [left|]. split; [discriminate | reflexivity].
      * eexists. split; [right; left|]. split; [discriminate | reflexivity].
    + intros (v & Hv & Hd). rewrite !elem_of_cons, elem_of_nil in Hv.
      destruct Hv as [->|[->|[]]]; destruct Hd as [_ ->]; [left | right; left].
  - apply Hrow; [reflexivity|]. split; [reflexivity|].
    split; [repeat constructor|].
    split; [apply (bool_decide_unpack _); by vm_compute|].
    intros d. vm_compute members. unfold has_designator. simpl. split.
    + rewrite !elem_of_cons, elem_of_nil. intros [->|[]].
      eexists. split; [left|]. split; [discriminate | reflexivity].
    + intros (v & Hv & Hd). rewrite !elem_of_cons, elem_of_nil in Hv.
      destruct Hv as [->|[]]. destruct Hd as [_ ->]. left.
Defined.

Example bom_harness_rows :
  (λ r, (BomRow.id r, BomRow.item r, BomRow.qty r, BomRow.designators r, BomRow.pn r))
    <$> rows_of bom_harness
  = [(1, "Cable, 2 wires", 0, ["W1"], PNone);
     (2, "Connector, D-Sub, 2 pins", 2, ["A"; "C"], PStr "P1");
     (3, "Connector, D-Sub, 2 pins", 1, ["B"], PStr "P2")]%string.
Proof. reflexivity. Qed.

(** The second call returns the list of the first and changes nothing. *)
Lemma bom_memoized_witness :
  rows_of bom_harness ≠ []
  ∧ bom_Z (bom_Z bom_harness).2 = (inr (rows_of bom_harness), (bom_Z bom_harness).2)
  ∧ ∃ index,
      get_bom_index clean_id index_or_none multiplier_one multiplier_one
        "Connector, D-Sub, 2 pins" PNone PNone PNone (PStr "P2")
        (bom_Z bom_harness).2
      = (inr index, (bom_Z bom_harness).2).
Proof.
  assert (rows_of bom_harness ≠ []) as Hrows by (by vm_compute).
  split; [done|].
  destruct (bom_memoized clean_id index_or_none multiplier_one multiplier_one
              bom_harness (rows_of bom_harness) (bom_Z bom_harness).2
              eq_refl Hrows) as [Hcache Hlater].
  destruct (Hlater _ Hcache) as [Hagain Hindex].
  split; [exact Hagain | apply Hindex].
Defined.

Lemma bom_harness_permuted_Permutation :
  connectors bom_harness ≡ₚ connectors bom_harness_permuted.
Proof.
  unfold bom_harness, bom_harness_permuted, harness_of. simpl.
  etrans; [apply Permutation_swap|]. apply Permutation_skip, Permutation_swap.
Qed.

(** C8 as stated fails on rows with the same item. The two harnesses hold
    the same three connectors and the same cable; the row of the part
    number [P1] has the id 2 in the BOM of the first and the id 3 in the BOM
    of the second. *)
Lemma bom_order_counterexample :
  connectors bom_harness ≡ₚ connectors bom_harness_permuted
  ∧ cables bom_harness = cables bom_harness_permuted
  ∧ (get_bom_index clean_id index_or_none multiplier_one multiplier_one
       "Connector, D-Sub, 2 pins" PNone PNone PNone (PStr "P1") bom_harness).1
    = inr (Some 2)
  ∧ (get_bom_index clean_id index_or_none multiplier_one multiplier_one
       "Connector, D-Sub, 2 pins" PNone PNone PNone (PStr "P1")
       bom_harness_permuted).1
    = inr (Some 3)
  ∧ rows_of bom_harness ≠ rows_of bom_harness_permuted.
Proof.
  split; [apply bom_harness_permuted_Permutation|].
  split; [reflexivity|]. split; [reflexivity|]. split; [reflexivity|].
  by vm_compute.
Qed.

(** Two harnesses with the same declarations in two orders and no two rows
    of the same item: the same BOM, ids included. *)
Lemma bom_order_independent_witness :
  connectors mixed_harness ≡ₚ connectors mixed_harness_permuted
  ∧ NoDup (BomRow.item <$> rows_of mixed_harness)
  ∧ ∃ rows2,
      bom_Z mixed_harness_permuted = (inr rows2, set_bom rows2 mixed_harness_permuted)
      ∧ strip_id <$> rows_of mixed_harness ≡ₚ strip_id <$> rows2
      ∧ rows_of mixed_harness = rows2.
Proof.
  assert (connectors mixed_harness ≡ₚ connectors mixed_harness_permuted) as Hperm.
  { apply Permutation_swap. }
  assert (NoDup (BomRow.item <$> rows_of mixed_harness)) as Hnd.
  { apply (bool_decide_unpack _). by vm_compute. }
  split; [done|]. split; [done|].
  destruct (bom_order_independent (num:=PyNumber_Z) clean_id index_or_none
              multiplier_one multiplier_one Z.add_comm Z.add_assoc
              mixed_harness mixed_harness_permuted (rows_of mixed_harness)
              (bom_Z mixed_harness).2 eq_refl eq_refl Hperm
              (reflexivity _) (reflexivity _) eq_refl)
    as (rows2 & Hrun & Hsame & Hids).
  exists rows2. split; [done|]. split; [done|]. by apply Hids.
Defined.

End bom_scenarios.

(** * Further properties *)

(** ** Dictionaries *)

Section dict_facts.
Context {V : Type}.
Implicit Types (d : dict V) (k : string) (v : V).

Lemma dict_get_set_eq k v d : dict_get k (dict_set k v d) = Some v.
Proof.
  induction d as [|[k' v'] d IH]; simpl.
  - by rewrite decide_True.
  - destruct (decide (k' = k)) as [->|Hne]; simpl.
    + by rewrite decide_True.
    + by rewrite decide_False.
Qed.

Lemma dict_get_set_ne k k' v d :
  k ≠ k' → dict_get k' (dict_set k v d) = dict_get k' d.
Proof.
  intros Hne. induction d as [|[k0 v0] d IH]; simpl.
  - by rewrite decide_False.
  - destruct (decide (k0 = k)) as [->|Hk0]; simpl.
    + by rewrite !decide_False.
    + destruct (decide (k0 = k')); [done | apply IH].
Qed.

Lemma dict_set_keys k v d : is_Some (dict_get k d) → (dict_set k v d).*1 = d.*1.
Proof.
  induction d as [|[k0 v0] d IH]; simpl; [by intros [? ?]|].
  destruct (decide (k0 = k)) as [->|Hk0]; simpl; [done|].
  intros Hk. f_equal. by apply IH.
Qed.

Lemma dict_get_keys k d : is_Some (dict_get k d) ↔ k ∈ d.*1.
Proof.
  induction d as [|[k0 v0] d IH]; simpl.
  - split; [by intros [? ?] | by intros ?%elem_of_nil].
  - destruct (decide (k0 = k)) as [->|Hk0].
    + split; [intros _; left | by eexists].
    + rewrite IH, elem_of_cons. naive_solver.
Qed.

Lemma dict_mem_true k d : dict_mem k d = true ↔ is_Some (dict_get k d).
Proof. unfold dict_mem. apply bool_decide_eq_true. Qed.

Lemma dict_mem_false k d : dict_mem k d = false ↔ dict_get k d = None.
Proof.
  unfold dict_mem. rewrite bool_decide_eq_false, <-eq_None_not_Some. done.
Qed.

Lemma dict_mem_keys k d d' : d.*1 = d'.*1 → dict_mem k d = dict_mem k d'.
Proof.
  intros Hkeys. unfold dict_mem. apply bool_decide_ext.
  by rewrite !dict_get_keys, Hkeys.
Qed.

End dict_facts.

(** ** More on [Harness.connect] *)

Section connect_more.
Context {Qty : Type} {num : PyNumber Qty}.
Implicit Types (self h : Harness Qty) (pin fp tp : pyval).

(** A successful round at a known connector: the token was a pin and
    nothing is reassigned, or it was a label and its pin is assigned to
    the ends that bear the name of this one. *)
Lemma connect_end_inr self from_name to_name n c pin fp tp fp' tp' :
  dict_get n (connectors self) = Some c →
  connect_end self from_name to_name (Some n) pin fp tp = inr (fp', tp') →
  (pin ∈ Connector.pins c ∧ fp' = fp ∧ tp' = tp)
  ∨ (∃ pin', pin' ∈ Connector.pins c
             ∧ fp' = (if decide (Some n = from_name) then pin' else fp)
             ∧ tp' = (if decide (Some n = to_name) then pin' else tp)).
Proof.
  intros Hc. rewrite (connect_end_known _ _ _ _ _ _ _ _ Hc). cbv zeta.
  repeat case_bool_decide; try done.
  - destruct (py_index _ pin ≫= _) as [pin'|] eqn:Hidx; [|done].
    intros [= <- <-]. right. exists pin'. split; [|done].
    destruct (py_index (Connector.pinlabels c) pin) as [i|]; [|done].
    simpl in Hidx. by eapply list_elem_of_lookup_2.
  - intros [= <- <-]. by left.
Qed.

(** A token that is a label and no pin, at a known connector. *)
Lemma connect_end_label self from_name to_name n c pin i pin' fp tp :
  dict_get n (connectors self) = Some c →
  pin ∉ Connector.pins c → py_count (Connector.pinlabels c) pin = 1%nat →
  py_index (Connector.pinlabels c) pin = Some i → Connector.pins c !! i = Some pin' →
  connect_end self from_name to_name (Some n) pin fp tp
  = inr (if decide (Some n = from_name) then pin' else fp,
         if decide (Some n = to_name) then pin' else tp).
Proof.
  intros Hc Hpin Hcount Hi Hpin'.
  rewrite (connect_end_known _ _ _ _ _ _ _ _ Hc). cbv zeta.
  rewrite bool_decide_eq_true_2 by (apply py_count_pos; lia).
  rewrite (bool_decide_eq_false_2 (_ ∧ _)) by (by intros [? _]).
  rewrite (bool_decide_eq_false_2 (_ < _)%nat) by lia.
  rewrite Hi. simpl. by rewrite Hpin'.
Qed.

(** What a successful call has done. *)
Lemma connect_inr from_name from_pin via_name via_pin to_name to_pin h h' :
  connect from_name from_pin via_name via_pin to_name to_pin h = (inr tt, h') →
  ∃ fp tp fp' tp' cable,
    connect_end h from_name to_name from_name from_pin from_pin to_pin = inr (fp, tp)
    ∧ connect_end h from_name to_name to_name to_pin fp tp = inr (fp', tp')
    ∧ dict_get via_name (cables h) = Some cable
    ∧ h' = set_cables (dict_set via_name
              (Cable.connect cable from_name fp' via_pin to_name tp')
              (cables h)) h.
Proof.
  intros Hrun. apply connect_inv in Hrun as [(e & [=] & _)|Hok].
  destruct Hok as (fp & tp & fp' & tp' & cable & H1 & H2 & H3 & _ & ->).
  by exists fp, tp, fp', tp', cable.
Qed.

(** X1. A call of [connect] that returns has added exactly one connection
    record, at the end of the records of the cable [via_name]; the record
    bears the two names and the wire as they were given. Every other
    cable, the order of the cables, the connectors, the mates, the
    freestanding BOM lines and the BOM cache are as they were. *)
Theorem connect_appends_one from_name from_pin via_name via_pin to_name to_pin
    h h' :
  connect from_name from_pin via_name via_pin to_name to_pin h = (inr tt, h') →
  (∃ cable fp tp,
      dict_get via_name (cables h) = Some cable
      ∧ dict_get via_name (cables h')
        = Some (with_connections cable
                  (Cable.connections cable
                   ++ [mkConnection from_name fp via_pin to_name tp])))
  ∧ (∀ w, w ≠ via_name → dict_get w (cables h') = dict_get w (cables h))
  ∧ (cables h').*1 = (cables h).*1
  ∧ connectors h' = connectors h
  ∧ mates h' = mates h
  ∧ _bom h' = _bom h
  ∧ additional_bom_items h' = additional_bom_items h.
Proof.
  intros (fp & tp & fp' & tp' & cable & _ & _ & Hcable & ->)%connect_inr. simpl.
  split; [|split; [|split]]; [| |by apply dict_set_keys|done].
  - exists cable, fp', tp'. split; [done|]. by rewrite dict_get_set_eq.
  - intros w Hw. by apply dict_get_set_ne.
Qed.

(** X2. The ends of a connect operation are checked only when they name a
    connector of the harness. With both ends open or naming no connector
    of the harness, a call for a cable of the harness returns, and the
    record it adds holds the names and the pins as they were given. *)
Theorem connect_unchecked_ends from_name from_pin via_name via_pin to_name to_pin
    h cable :
  (∀ n, from_name = Some n → dict_get n (connectors h) = None) →
  (∀ n, to_name = Some n → dict_get n (connectors h) = None) →
  dict_get via_name (cables h) = Some cable →
  connect from_name from_pin via_name via_pin to_name to_pin h
  = (inr tt,
     set_cables (dict_set via_name
       (with_connections cable
          (Cable.connections cable
           ++ [mkConnection from_name from_pin via_pin to_name to_pin]))
       (cables h)) h).
Proof.
  intros Hfrom Hto Hcable. unfold connect, bind, get, lift, modify.
  rewrite (connect_end_unknown _ _ _ _ _ _ _ Hfrom).
  rewrite (connect_end_unknown _ _ _ _ _ _ _ Hto). by rewrite Hcable.
Qed.

(** X3. The pins of a record are pins of their connectors: after a call of
    [connect] that returns, the pin recorded for an end that names a
    connector of the harness is an element of the [pins] of that
    connector, whether the end was given by pin or by label. *)
Theorem connect_records_pins from_name from_pin via_name via_pin to_name to_pin
    h h' :
  connect from_name from_pin via_name via_pin to_name to_pin h = (inr tt, h') →
  ∃ cable fp tp,
    dict_get via_name (cables h')
    = Some (with_connections cable
              (Cable.connections cable
               ++ [mkConnection from_name fp via_pin to_name tp]))
    ∧ (∀ n c, from_name = Some n → dict_get n (connectors h) = Some c →
         fp ∈ Connector.pins c)
    ∧ (∀ n c, to_name = Some n → dict_get n (connectors h) = Some c →
         tp ∈ Connector.pins c).
Proof.
  intros (fp & tp & fp' & tp' & cable & H1 & H2 & Hcable & ->)%connect_inr.
  exists cable, fp', tp'. simpl. split; [by rewrite dict_get_set_eq|].
  assert (∀ n c, from_name = Some n → dict_get n (connectors h) = Some c →
            fp ∈ Connector.pins c
            ∧ (to_name = Some n → tp = to_pin ∨ tp ∈ Connector.pins c)) as Hfrom.
  { intros n c -> Hc.
    destruct (connect_end_inr _ _ _ _ _ _ _ _ _ _ Hc H1)
      as [(Hp & -> & ->)|(p & Hp & -> & ->)].
    - split; [done|]. by left.
    - rewrite decide_True by done. split; [done|]. intros ->.
      rewrite decide_True by done. by right. }
  split.
  - intros n c Hn Hc. destruct (Hfrom n c Hn Hc) as [Hfp _]. subst from_name.
    destruct to_name as [m|]; [|by injection H2 as <- _].
    destruct (dict_get m (connectors h)) as [c2|] eqn:Hc2.
    + destruct (connect_end_inr _ _ _ _ _ _ _ _ _ _ Hc2 H2)
        as [(_ & -> & _)|(q & Hq & -> & _)]; [done|].
      case_decide as Hmn; [|done]. injection Hmn as ->.
      rewrite Hc in Hc2. by injection Hc2 as <-.
    + rewrite connect_end_unknown in H2 by (by intros ? [= <-]).
      by injection H2 as <- _.
  - intros m c2 -> Hc2.
    destruct (connect_end_inr _ _ _ _ _ _ _ _ _ _ Hc2 H2)
      as [(Hp & _ & ->)|(q & Hq & _ & ->)]; [|by rewrite decide_True].
    destruct from_name as [n|]; [|by injection H1 as _ <-].
    destruct (dict_get n (connectors h)) as [c|] eqn:Hc.
    + destruct (Hfrom n c eq_refl Hc) as [_ Htp].
      destruct (decide (n = m)) as [->|Hnm].
      * rewrite Hc in Hc2. injection Hc2 as <-.
        by destruct (Htp eq_refl) as [->|?].
      * destruct (connect_end_inr _ _ _ _ _ _ _ _ _ _ Hc H1)
          as [(_ & _ & ->)|(p & _ & _ & ->)]; [done|].
        by rewrite decide_False by congruence.
    + rewrite connect_end_unknown in H1 by (by intros ? [= <-]).
      by injection H1 as _ <-.
Qed.

(** X4. When both ends name the same connector and both pins are given by
    a label, the assignments of the second round overwrite those of the
    first: the record holds the pin of the label of the to-end at both
    ends. *)
Theorem connect_same_connector_labels n c a b i j p q via_name via_pin cable h :
  dict_get n (connectors h) = Some c →
  dict_get via_name (cables h) = Some cable →
  a ∉ Connector.pins c → py_count (Connector.pinlabels c) a = 1%nat →
  py_index (Connector.pinlabels c) a = Some i → Connector.pins c !! i = Some p →
  b ∉ Connector.pins c → py_count (Connector.pinlabels c) b = 1%nat →
  py_index (Connector.pinlabels c) b = Some j → Connector.pins c !! j = Some q →
  connect (Some n) a via_name via_pin (Some n) b h
  = (inr tt,
     set_cables (dict_set via_name
       (with_connections cable
          (Cable.connections cable
           ++ [mkConnection (Some n) q via_pin (Some n) q]))
       (cables h)) h).
Proof.
  intros Hc Hcable Ha Hca Hia Hp Hb Hcb Hib Hq.
  unfold connect, bind, get, lift, modify.
  rewrite (connect_end_label _ _ _ _ _ _ _ _ _ _ Hc Ha Hca Hia Hp).
  rewrite !decide_True by done.
  rewrite (connect_end_label _ _ _ _ _ _ _ _ _ _ Hc Hb Hcb Hib Hq).
  rewrite !decide_True by done. by rewrite Hcable.
Qed.

End connect_more.

(** ** More on strings *)

Section string_more.
Implicit Types (c : ascii) (s t d : string).

Lemma str_split_app_length c t d :
  length (str_split c (t +:+ String c d))
  = (length (str_split c t) + length (str_split c d))%nat.
Proof.
  induction t as [|a t IH]; simpl.
  - by rewrite decide_True.
  - destruct (decide (a = c)); simpl; [by rewrite IH|].
    destruct (str_split c (t +:+ String c d)) as [|w ws] eqn:Hw;
      [by apply str_split_nonempty in Hw|].
    destruct (str_split c t) as [|w' ws'] eqn:Hw';
      [by apply str_split_nonempty in Hw'|].
    simpl in *. done.
Qed.

Lemma str_split_length_pos c s : (0 < length (str_split c s))%nat.
Proof.
  pose proof (str_split_nonempty c s). destruct (str_split c s); simpl; [done|lia].
Qed.

Lemma str_split_last c t d :
  str_contains c d = false → last (str_split c (t +:+ String c d)) = Some d.
Proof.
  intros Hd. induction t as [|a t IH]; simpl.
  - rewrite decide_True by done. by rewrite (str_split_no_sep _ _ Hd).
  - destruct (decide (a = c)).
    + destruct (str_split c (t +:+ String c d)) as [|w ws] eqn:Hw;
        [by apply str_split_nonempty in Hw|]. done.
    + destruct (str_split c (t +:+ String c d)) as [|w ws] eqn:Hw;
        [by apply str_split_nonempty in Hw|].
      destruct ws as [|w2 ws]; [|exact IH].
      apply str_split_one in Hw as [_ Hno].
      by rewrite str_contains_app_sep in Hno.
Qed.

Lemma str_app_length s t :
  String.length (s +:+ t) = (String.length s + String.length t)%nat.
Proof. induction s as [|a s IH]; simpl; [done | by rewrite IH]. Qed.

Lemma str_app_inj_r s t d : s +:+ d = t +:+ d → s = t.
Proof.
  intros Heq.
  assert (String.length s = String.length t) as Hlen.
  { apply (f_equal String.length) in Heq. rewrite !str_app_length in Heq. lia. }
  revert t Heq Hlen. induction s as [|a s IH]; intros [|b t]; simpl; try done.
  intros [= -> Heq] [= Hlen]. f_equal. by apply IH.
Qed.

End string_more.

(** ** Decimal numerals *)

Section decimal_facts.

Lemma string_of_uint_no_underscore (d : Decimal.uint) :
  str_contains "_" (NilEmpty.string_of_uint d) = false.
Proof. induction d; simpl; done. Qed.

Lemma str_of_int_no_underscore (z : Z) : str_contains "_" (str_of_int z) = false.
Proof.
  unfold str_of_int, NilZero.string_of_int, NilZero.string_of_uint.
  destruct (Z.to_int z) as [d|d]; destruct d; simpl;
    try done; apply string_of_uint_no_underscore.
Qed.

Lemma to_int_not_nil (z : Z) :
  Z.to_int z ≠ Decimal.Pos Decimal.Nil ∧ Z.to_int z ≠ Decimal.Neg Decimal.Nil.
Proof.
  destruct z as [|p|p]; simpl; split; try done;
    intros [= Hnil]; by apply DecimalPos.Unsigned.to_uint_nonnil in Hnil.
Qed.

Lemma str_of_int_inj (n m : Z) : str_of_int n = str_of_int m → n = m.
Proof.
  unfold str_of_int. intros Heq.
  apply DecimalZ.to_int_inj.
  destruct (to_int_not_nil n) as [Hn1 Hn2]. destruct (to_int_not_nil m) as [Hm1 Hm2].
  pose proof (NilZero.isi _ Hn1 Hn2) as Hn. pose proof (NilZero.isi _ Hm1 Hm2) as Hm.
  rewrite Heq, Hm in Hn. by injection Hn.
Qed.

(** The name of an auto-generated designator determines the template and
    the number it was made of. *)
Lemma auto_designator_inj (t t' : string) (n n' : Z) :
  auto_designator t n = auto_designator t' n' → t = t' ∧ n = n'.
Proof.
  unfold auto_designator. change ("_" +:+ ?s) with (String "_" s).
  intros [= Heq].
  pose proof (str_split_last "_" t (str_of_int n) (str_of_int_no_underscore n)) as Hl.
  pose proof (str_split_last "_" t' (str_of_int n') (str_of_int_no_underscore n')) as Hl'.
  change ("_" +:+ ?s) with (String "_" s) in Heq.
  rewrite Heq, Hl' in Hl. injection Hl as Hnum.
  split; [|by apply str_of_int_inj].
  rewrite Hnum in Heq. by apply str_app_inj_r in Heq.
Qed.

End decimal_facts.

(** ** More on [resolve_designator] *)

Section resolve_more.
Context {Qty : Type} {num : PyNumber Qty}.
Implicit Types (st : @ParseState Qty) (inp t d x y : string).

(** X5. A token with more than one dot cannot be unpacked into a template
    and a designator: the resolution raises [ValueError] and leaves the
    registry and the counters as they were. *)
Theorem resolve_designator_two_dots t d x st :
  resolve_designator (t +:+ "." +:+ d +:+ "." +:+ x) st = (inl ValueError, st).
Proof.
  change (t +:+ "." +:+ d +:+ "." +:+ x)
    with (t +:+ String "." (d +:+ String "." x)).
  unfold resolve_designator. rewrite str_contains_app_sep.
  pose proof (str_split_app_length "." t (d +:+ String "." x)) as Hlen.
  rewrite (str_split_app_length "." d x) in Hlen.
  pose proof (str_split_length_pos "." t). pose proof (str_split_length_pos "." d).
  pose proof (str_split_length_pos "." x).
  destruct (str_split "." (t +:+ String "." (d +:+ String "." x)))
    as [|p1 [|p2 [|p3 ps]]]; simpl in Hlen; try lia; done.
Qed.

(** The resolution touches two dictionaries and nothing else. *)
Lemma resolve_designator_frame inp st :
  harness (resolve_designator inp st).2 = harness st
  ∧ connect_calls (resolve_designator inp st).2 = connect_calls st.
Proof.
  unfold resolve_designator.
  destruct (str_contains "." inp).
  - destruct (str_split "." inp) as [|t [|d [|? ?]]]; try done.
    unfold bind, get, ret, modify.
    destruct (decide (d = "")); simpl;
      (destruct (designators_and_templates st !! _) as [bound|];
        [destruct (decide (bound ≠ t))|]; done).
  - unfold bind, get. by destruct (designators_and_templates st !! inp).
Qed.

(** X6. The registry only grows: a designator that is bound stays bound to
    the same template through every resolution, one that succeeds as well
    as one that raises. *)
Theorem resolve_designator_keeps_bindings inp st d t :
  designators_and_templates st !! d = Some t →
  designators_and_templates (resolve_designator inp st).2 !! d = Some t.
Proof.
  intros Hbound. unfold resolve_designator.
  destruct (str_contains "." inp).
  - destruct (str_split "." inp) as [|t' [|d' [|? ?]]]; try done.
    unfold bind, get, ret, modify.
    destruct (decide (d' = "")); simpl.
    + destruct (designators_and_templates st !! auto_designator _ _)
        as [bound|] eqn:Hd; [by destruct (decide (bound ≠ t'))|]. simpl.
      rewrite lookup_insert_ne; [done|]. intros Heq. congruence.
    + destruct (designators_and_templates st !! d') as [bound|] eqn:Hd;
        [by destruct (decide (bound ≠ t'))|]. simpl.
      rewrite lookup_insert_ne; [done|]. intros Heq. congruence.
  - unfold bind, get, ret, modify.
    destruct (designators_and_templates st !! inp) eqn:Hd; [done|]. simpl.
    rewrite lookup_insert_ne; [done|]. intros Heq. congruence.
Qed.

(** X7. A resolution that returns has done what its result says: the
    designator it returns is bound in the registry; for a token with a dot
    it is bound to the template returned with it; a token without a dot is
    returned as its own template and designator. *)
Theorem resolve_designator_binds inp st t d st' :
  resolve_designator inp st = (inr (t, d), st') →
  is_Some (designators_and_templates st' !! d)
  ∧ (str_contains "." inp = true → designators_and_templates st' !! d = Some t)
  ∧ (str_contains "." inp = false → t = inp ∧ d = inp).
Proof.
  unfold resolve_designator.
  destruct (str_contains "." inp).
  - destruct (str_split "." inp) as [|t' [|d' [|? ?]]]; try done.
    unfold bind, get, ret, modify.
    destruct (decide (d' = "")); simpl.
    + destruct (designators_and_templates st !! auto_designator _ _)
        as [bound|] eqn:Hd.
      * destruct (decide (bound ≠ t')) as [|Heq%dec_stable]; [done|].
        intros [= <- <- <-]. simpl. rewrite Hd, Heq. by eauto.
      * intros [= <- <- <-]. simpl. rewrite lookup_insert_eq. by eauto.
    + destruct (designators_and_templates st !! d') as [bound|] eqn:Hd.
      * destruct (decide (bound ≠ t')) as [|Heq%dec_stable]; [done|].
        intros [= <- <- <-]. rewrite Hd, Heq. by eauto.
      * intros [= <- <- <-]. simpl. rewrite lookup_insert_eq. by eauto.
  - unfold bind, get, ret, modify.
    destruct (designators_and_templates st !! inp) eqn:Hd.
    + intros [= <- <- <-]. rewrite Hd. by eauto.
    + intros [= <- <- <-]. simpl. rewrite lookup_insert_eq. by eauto.
Qed.

(** The designator of the [i]-th token of a run that succeeds, when that
    token is [x.]. *)
Lemma map_m_resolve_output toks st outs st' (i : nat) x :
  str_contains "." x = false →
  map_m resolve_designator toks st = (inr outs, st') →
  toks !! i = Some (x +:+ ".") →
  outs !! i
  = Some (x, auto_designator x
               (auto_count st x + 1
                + Z.of_nat (py_count (take i toks) (x +:+ ".")))).
Proof.
  intros Hx. revert st outs i. induction toks as [|tok toks IH]; intros st outs i; simpl.
  - done.
  - unfold bind at 1.
    pose proof (resolve_designator_count tok st x Hx) as Hstep.
    destruct (resolve_designator tok st) as [[e|out] st1] eqn:Hout; [done|].
    simpl in Hstep. unfold bind at 1.
    destruct (map_m resolve_designator toks st1) as [[e|outs1] st2] eqn:Hrest; [done|].
    intros [= <- <-]. destruct i as [|i]; simpl.
    + intros [= ->]. rewrite (resolve_designator_auto _ _ Hx) in Hout.
      cbv zeta in Hout. rewrite Z.add_0_r.
      destruct (designators_and_templates st !! _) as [bound|];
        [destruct (decide (bound ≠ x))|]; by simplify_eq.
    + intros Hi. rewrite (IH _ _ _ Hrest Hi), Hstep. do 3 f_equal.
      destruct (decide (tok = x +:+ ".")); lia.
Qed.

Lemma py_count_take_lt (l : list string) (s : string) (i j : nat) :
  (i < j)%nat → l !! i = Some s →
  (py_count (take i l) s < py_count (take j l) s)%nat.
Proof.
  revert i j. induction l as [|a l IH]; intros i j Hij; [done|].
  destruct j as [|j]; [lia|]. destruct i as [|i]; simpl.
  - intros [= ->]. rewrite decide_True by done. lia.
  - intros Hi. assert (i < j)%nat as Hij' by lia.
    specialize (IH i j Hij' Hi). destruct (decide (a = s)); lia.
Qed.

(** X8. Auto-generated designators are unique within a pass: in a run of
    resolutions from the start of a pass that all succeed, two different
    positions that hold tokens with an empty designator, of the same
    template or of two, get different designators. *)
Theorem auto_designators_unique toks outs st (i j : nat) x y :
  str_contains "." x = false → str_contains "." y = false →
  map_m resolve_designator toks (@ParseState_init Qty) = (inr outs, st) →
  i ≠ j → toks !! i = Some (x +:+ ".") → toks !! j = Some (y +:+ ".") →
  ∃ di dj, outs !! i = Some (x, di) ∧ outs !! j = Some (y, dj) ∧ di ≠ dj.
Proof.
  intros Hx Hy Hrun Hij Hi Hj.
  rewrite (map_m_resolve_output _ _ _ _ _ _ Hx Hrun Hi).
  rewrite (map_m_resolve_output _ _ _ _ _ _ Hy Hrun Hj).
  do 2 eexists. split; [done|]. split; [done|].
  intros [-> Hn]%auto_designator_inj.
  destruct (decide (i < j)%nat).
  - pose proof (py_count_take_lt _ _ i j ltac:(done) Hi). lia.
  - pose proof (py_count_take_lt _ _ j i ltac:(lia) Hj). lia.
Qed.

End resolve_more.

(** ** The transposition *)

Section zip_star_facts.
Context {A : Type}.
Implicit Types (rows : list (list A)) (row chain : list A).

(** X9. The transposition of the rows of a connection set: the [i]-th
    chain exists exactly when every row has an [i]-th item, and it is the
    list of these items in the order of the rows; so the chains are cut at
    the length of the shortest row. With rows of one length [n] there are
    [n] chains. *)
Theorem zip_star_lookup rows (i : nat) :
  rows ≠ [] →
  zip_star rows !! i = mapM (λ row, row !! i) rows
  ∧ ∀ n, Forall (λ row, length row = n) rows → length (zip_star rows) = n.
Proof.
  intros Hrows. split.
  - revert i. induction rows as [|row rows IH]; intros i; [done|].
    destruct rows as [|row2 rows].
    + simpl. rewrite list_lookup_fmap. by destruct (row !! i).
    + change (zip_star (row :: row2 :: rows))
        with (zip_with cons row (zip_star (row2 :: rows))).
      rewrite lookup_zip_with, (IH ltac:(done) i). simpl.
      by destruct (row !! i).
  - intros n. induction rows as [|row rows IH]; [done|].
    intros [Hrow Hall]%Forall_cons. destruct rows as [|row2 rows].
    + simpl. by rewrite length_fmap.
    + change (zip_star (row :: row2 :: rows))
        with (zip_with cons row (zip_star (row2 :: rows))).
      rewrite length_zip_with, (IH ltac:(done) Hall). lia.
Qed.

End zip_star_facts.

(** ** The state monad *)

Section monad_facts.
Context {S : Type}.

Lemma bind_inv {A B} (m : M S A) (k : A → M S B) s r s' :
  bind m k s = (r, s') →
  (∃ e, m s = (inl e, s') ∧ r = inl e)
  ∨ (∃ a s1, m s = (inr a, s1) ∧ k a s1 = (r, s')).
Proof.
  unfold bind. destruct (m s) as [[e|a] s1].
  - intros [= <- <-]. left. by exists e.
  - intros Hk. right. by exists a, s1.
Qed.

(** A property of the state that every round of a loop keeps is kept by
    the loop, whether it runs to its end or is left by an exception. *)
Lemma for_each_preserves {A} (P : S → Prop) (l : list A) (body : A → M S unit) :
  (∀ x s r s', x ∈ l → body x s = (r, s') → P s → P s') →
  ∀ s r s', for_each l body s = (r, s') → P s → P s'.
Proof.
  induction l as [|x l IH]; intros Hbody s r s'; simpl.
  - by intros [= _ <-].
  - intros [(e & Hx & _)|(a & s1 & Hx & Hl)]%bind_inv HP.
    + eapply Hbody; [left|done..].
    + eapply IH; [|done|].
      * intros y s2 r2 s2' Hy. apply Hbody. by right.
      * eapply Hbody; [left|done..].
Qed.

Lemma map_m_preserves {A B} (P : S → Prop) (l : list A) (f : A → M S B) :
  (∀ x s r s', x ∈ l → f x s = (r, s') → P s → P s') →
  ∀ s r s', map_m f l s = (r, s') → P s → P s'.
Proof.
  induction l as [|x l IH]; intros Hf s r s'; simpl.
  - by intros [= _ <-].
  - intros [(e & Hx & _)|(y & s1 & Hx & Hl)]%bind_inv HP.
    + eapply Hf; [left|done..].
    + assert (P s1) as HP1 by (eapply Hf; [left|done..]).
      apply bind_inv in Hl as [(e & Hl & _)|(ys & s2 & Hl & Hret)].
      * eapply IH; [|done..]. intros y' s3 r3 s3' Hy. apply Hf. by right.
      * injection Hret as _ <-. eapply IH; [|done..].
        intros y' s3 r3 s3' Hy. apply Hf. by right.
Qed.

End monad_facts.

(** ** What [parse] keeps *)

Section parse_invariants.
Context {Qty : Type} {num : PyNumber Qty}.
Context (template_connectors : dict (Connector.t Qty)).
Context (template_cables : dict (Cable.t Qty)).
Implicit Types (st : @ParseState Qty) (h : Harness Qty).

Lemma with_connections_id (cable : Cable.t Qty) :
  with_connections cable (Cable.connections cable) = cable.
Proof. by destruct cable. Qed.

Lemma harness_extends_refl h : harness_extends h h.
Proof.
  split; [done|]. intros w cable Hw. exists [].
  by rewrite app_nil_r, with_connections_id.
Qed.

Lemma harness_extends_trans h1 h2 h3 :
  harness_extends h1 h2 → harness_extends h2 h3 → harness_extends h1 h3.
Proof.
  intros [Hc12 Hw12] [Hc23 Hw23]. split; [by auto|].
  intros w cable Hw. destruct (Hw12 w cable Hw) as [extra Hw2].
  destruct (Hw23 w _ Hw2) as [extra' Hw3]. exists (extra ++ extra').
  rewrite Hw3. simpl. by rewrite (assoc_L (++)).
Qed.

Lemma connect_extends from_name from_pin via_name via_pin to_name to_pin h r h' :
  connect from_name from_pin via_name via_pin to_name to_pin h = (r, h') →
  harness_extends h h'.
Proof.
  intros [(e & _ & ->)|Hok]%connect_inv; [apply harness_extends_refl|].
  destruct Hok as (fp & tp & fp' & tp' & cable & _ & _ & Hcable & _ & ->).
  split; [done|]. intros w cable' Hw. simpl.
  destruct (decide (via_name = w)) as [->|Hne].
  - rewrite Hcable in Hw. injection Hw as <-.
    exists [mkConnection from_name fp' via_pin to_name tp'].
    by rewrite dict_get_set_eq.
  - exists []. rewrite (dict_get_set_ne _ _ _ _ Hne).
    by rewrite app_nil_r, with_connections_id.
Qed.

Lemma generate_item_extends item st r st' :
  generate_item template_connectors template_cables item st = (r, st') →
  harness_extends (harness st) (harness st').
Proof.
  unfold generate_item, bind, get, raise, ret, on_harness, add_connector,
    add_cable, modify.
  destruct (designators_and_templates st !! item.1) as [template|];
    [|intros [= _ <-]; apply harness_extends_refl].
  destruct (dict_mem item.1 (connectors (harness st))) eqn:Hconn;
    [intros [= _ <-]; apply harness_extends_refl|].
  apply dict_mem_false in Hconn.
  destruct (dict_get template template_connectors) as [attribs|].
  { intros [= _ <-]. simpl. split.
    - intros n c Hn. simpl. rewrite dict_get_set_ne; [done|]. intros Heq. congruence.
    - intros w cable Hw. exists []. by rewrite app_nil_r, with_connections_id. }
  destruct (dict_mem item.1 (cables (harness st))) eqn:Hcab;
    [intros [= _ <-]; apply harness_extends_refl|].
  apply dict_mem_false in Hcab.
  destruct (dict_get template template_cables) as [attribs|];
    [|intros [= _ <-]; apply harness_extends_refl].
  intros [= _ <-]. simpl. split; [done|].
  intros w cable Hw. exists []. rewrite app_nil_r, with_connections_id. simpl.
  rewrite dict_get_set_ne; [done|]. intros Heq. congruence.
Qed.

Lemma connect_item_extends connection index_item item st r st' :
  connect_item connection index_item item st = (r, st') →
  harness_extends (harness st) (harness st').
Proof.
  unfold connect_item, bind, get, ret, raise, modify, on_harness.
  destruct (dict_mem _ _); [|intros [= _ <-]; apply harness_extends_refl].
  destruct index_item as [|i]; [|destruct (connection !! i) as [[n p]|]]; simpl;
    try (intros [= _ <-]; apply harness_extends_refl);
    (destruct (decide _); [|destruct (connection !! _) as [[n' p']|]]); simpl;
    try (intros [= _ <-]; apply harness_extends_refl);
    (destruct (connect _ _ _ _ _ _ _) as [r' h'] eqn:Hconnect;
     intros [= _ <-]; simpl; by eapply connect_extends).
Qed.

Lemma resolve_item_harness (item : string) st r st' :
  (do '(_, designator) <- resolve_designator item; ret designator)%py st = (r, st') →
  harness st' = harness st.
Proof.
  pose proof (resolve_designator_frame item st) as [Hh _].
  intros [(e & Hx & _)|([t d] & s2 & Hx & Hret)]%bind_inv.
  - by rewrite Hx in Hh.
  - injection Hret as _ <-. by rewrite Hx in Hh.
Qed.

Lemma resolve_entry_harness e st r st' :
  resolve_entry e st = (r, st') → harness st' = harness st.
Proof.
  destruct e as [l|key value]; simpl.
  - assert (∀ r1 s1, map_m (λ item,
        (do '(_, designator) <- resolve_designator item; ret designator)%py) l st
        = (r1, s1) → harness s1 = harness st) as Hmap.
    { intros r1 s1 Hl.
      eapply (map_m_preserves (λ s, harness s = harness st)); [|exact Hl|done].
      intros x s r' s' _ Hx Hs. rewrite <-Hs. exact (resolve_item_harness _ _ _ _ Hx). }
    intros [(e & Hl & _)|(ds & s1 & Hl & Hret)]%bind_inv.
    + exact (Hmap _ _ Hl).
    + injection Hret as _ <-. exact (Hmap _ _ Hl).
  - pose proof (resolve_designator_frame key st) as [Hh _].
    intros [(e & Hx & _)|([t d] & s1 & Hx & Hret)]%bind_inv.
    + by rewrite Hx in Hh.
    + injection Hret as _ <-. by rewrite Hx in Hh.
Qed.

Lemma resolve_entries_extends h0 ws st r st' :
  map_m resolve_entry ws st = (r, st') →
  harness_extends h0 (harness st) → harness_extends h0 (harness st').
Proof.
  intros Hres H0.
  eapply (map_m_preserves (λ s, harness_extends h0 (harness s))); [|exact Hres|done].
  intros w s r' s' _ Hw Hs. by rewrite (resolve_entry_harness _ _ _ _ Hw).
Qed.

Lemma generate_items_extends h0 (rows : list (list pin_item)) st r st' :
  for_each rows (λ e, for_each e (generate_item template_connectors template_cables))
    st = (r, st') →
  harness_extends h0 (harness st) → harness_extends h0 (harness st').
Proof.
  intros Hgen H0.
  eapply (for_each_preserves (λ s, harness_extends h0 (harness s)));
    [|exact Hgen|done].
  intros row s r' s' _ Hrow Hs.
  eapply (for_each_preserves (λ s, harness_extends h0 (harness s)));
    [|exact Hrow|done].
  intros item s5 r5 s5' _ Hitem Hs5.
  eapply harness_extends_trans; [done | exact (generate_item_extends _ _ _ _ Hitem)].
Qed.

Lemma connect_chains_extends h0 (chains : list (list pin_item)) st r st' :
  for_each chains connect_chain st = (r, st') →
  harness_extends h0 (harness st) → harness_extends h0 (harness st').
Proof.
  intros Hrun H0.
  eapply (for_each_preserves (λ s, harness_extends h0 (harness s)));
    [|exact Hrun|done].
  intros connection s r' s' _ Hchain Hs. unfold connect_chain in Hchain.
  eapply (for_each_preserves (λ s, harness_extends h0 (harness s)));
    [|exact Hchain|done].
  intros [i item] s5 r5 s5' _ Hitem Hs5.
  eapply harness_extends_trans; [done | exact (connect_item_extends _ _ _ _ _ _ Hitem)].
Qed.

Lemma parse_connection_set_extends h0 cs st r st' :
  parse_connection_set template_connectors template_cables cs st = (r, st') →
  harness_extends h0 (harness st) → harness_extends h0 (harness st').
Proof.
  unfold parse_connection_set.
  intros [(e & Hc & _)|(n & s1 & Hc & Hrest)]%bind_inv H0.
  { unfold lift in Hc. by injection Hc as _ <-. }
  unfold lift in Hc. injection Hc as _ <-.
  apply bind_inv in Hrest as [(e & Hres & _)|(ws & s2 & Hres & Hrest)].
  { exact (resolve_entries_extends _ _ _ _ _ Hres H0). }
  assert (harness_extends h0 (harness s2)) as H2
    by exact (resolve_entries_extends _ _ _ _ _ Hres H0).
  apply bind_inv in Hrest as [(e & Hexp & _)|(rows & s3 & Hexp & Hrest)].
  { unfold lift in Hexp. by injection Hexp as _ <-. }
  unfold lift in Hexp. injection Hexp as _ <-.
  apply bind_inv in Hrest as [(e & Hgen & _)|([] & s4 & Hgen & Hrest)].
  { exact (generate_items_extends _ _ _ _ _ Hgen H2). }
  assert (harness_extends h0 (harness s4)) as H4
    by exact (generate_items_extends _ _ _ _ _ Hgen H2).
  exact (connect_chains_extends _ _ _ _ _ Hrest H4).
Qed.

Lemma parse_connections_extends h0 connection_sets st r st' :
  parse_connections template_connectors template_cables connection_sets st
  = (r, st') →
  harness_extends h0 (harness st) → harness_extends h0 (harness st').
Proof.
  intros Hsets H0. unfold parse_connections in Hsets.
  eapply (for_each_preserves (λ s, harness_extends h0 (harness s)));
    [|exact Hsets|done].
  intros cs s r' s' _. apply parse_connection_set_extends.
Qed.

(** X10. [parse] only adds to the harness. Whatever the document, and also
    when an exception ends the pass: a connector that is in the harness
    stays in it as it is, never replaced by a new instance of a template;
    a cable that is in the harness keeps its attributes and the connection
    records it has, in their order, new records coming after them. *)
Theorem parse_extends connection_sets bom_items st r st' :
  parse template_connectors template_cables connection_sets bom_items st = (r, st') →
  harness_extends (harness st) (harness st').
Proof.
  unfold parse.
  intros [(e & Hsets & _)|([] & s1 & Hsets & Hitems)]%bind_inv.
  - exact (parse_connections_extends _ _ _ _ _ Hsets (harness_extends_refl _)).
  - assert (harness_extends (harness st) (harness s1)) as H1
      by exact (parse_connections_extends _ _ _ _ _ Hsets (harness_extends_refl _)).
    eapply (for_each_preserves (λ s, harness_extends (harness st) (harness s)));
      [|exact Hitems|done].
    intros line s r' s' _ Hline Hs. unfold on_harness, add_bom_item, modify in Hline.
    injection Hline as _ <-. done.
Qed.

End parse_invariants.

(** ** The connect operations of a chain *)

Section chain_facts.
Context {Qty : Type} {num : PyNumber Qty}.
Implicit Types (st : @ParseState Qty) (connection : list pin_item).

Lemma connect_item_inr connection index_item item st st' :
  connect_item connection index_item item st = (inr tt, st') →
  (cables (harness st')).*1 = (cables (harness st)).*1
  ∧ connect_calls st'
    = connect_calls st
      ++ option_list (chain_link (λ d, dict_mem d (cables (harness st)))
                        connection index_item item).
Proof.
  unfold connect_item, chain_link, bind, get, ret, raise, modify, on_harness.
  destruct (dict_mem _ _);
    [|intros [= <-]; split; [done | by rewrite app_nil_r]].
  destruct index_item as [|i]; [|destruct (connection !! i) as [[n p]|]]; simpl;
    try done;
    (destruct (decide _); [|destruct (connection !! _) as [[n' p']|]]); simpl;
    try done;
    (destruct (connect _ _ _ _ _ _ _) as [[err|[]] h'] eqn:Hconnect; [done|];
     intros [= <-]; simpl;
     apply connect_inr in Hconnect as (? & ? & ? & ? & cable & _ & _ & Hcable & ->);
     simpl; split; [|done];
     apply dict_set_keys; by eexists).
Qed.

Lemma connect_chain_from connection (is_cable : string → bool)
    (l : list pin_item) (k : nat) st st' :
  (∀ d, is_cable d = dict_mem d (cables (harness st))) →
  for_each (zip (seq k (length l)) l)
    (λ '(index_item, item), connect_item connection index_item item) st
  = (inr tt, st') →
  connect_calls st'
  = connect_calls st
    ++ omap (λ '(index_item, item), chain_link is_cable connection index_item item)
         (zip (seq k (length l)) l).
Proof.
  revert k st. induction l as [|item l IH]; intros k st Hcable; simpl.
  - intros [= <-]. by rewrite app_nil_r.
  - intros [(e & _ & [=])|([] & s1 & Hitem & Hrest)]%bind_inv.
    apply connect_item_inr in Hitem as [Hkeys Hcalls].
    rewrite (IH (S k) s1); [|by intros d; rewrite Hcable; apply dict_mem_keys|done].
    rewrite Hcalls, <-(assoc_L (++)). f_equal.
    assert (chain_link is_cable connection k item
            = chain_link (λ d, dict_mem d (cables (harness st))) connection k item)
      as -> by (unfold chain_link; by rewrite Hcable).
    by destruct (chain_link _ connection k item).
Qed.

(** X11. The connect operations of a chain that is connected to its end
    are, in the order of the chain, one for every position whose
    designator is a cable of the harness: its cable and wire with the
    designator and pin of the position before it and of the position after
    it, and [None] for the side on which the chain ends. Positions that
    hold no cable of the harness make no operation. *)
Theorem connect_chain_links connection st st' :
  connect_chain connection st = (inr tt, st') →
  connect_calls st'
  = connect_calls st
    ++ chain_links (λ d, dict_mem d (cables (harness st))) connection.
Proof.
  intros Hrun. unfold connect_chain, enumerate in Hrun.
  by apply (connect_chain_from connection _ connection 0%nat st st').
Qed.

End chain_facts.

(** ** What [parse] leaves alone *)

Section parse_rest.
Context {Qty : Type} {num : PyNumber Qty}.
Context (template_connectors : dict (Connector.t Qty)).
Context (template_cables : dict (Cable.t Qty)).
Implicit Types (st : @ParseState Qty) (h : Harness Qty).

Lemma connect_rest from_name from_pin via_name via_pin to_name to_pin h r h' :
  connect from_name from_pin via_name via_pin to_name to_pin h = (r, h') →
  harness_rest h' = harness_rest h.
Proof.
  intros [(e & _ & ->)|Hok]%connect_inv; [done|].
  by destruct Hok as (fp & tp & fp' & tp' & cable & _ & _ & _ & _ & ->).
Qed.

Lemma generate_item_rest item st r st' :
  generate_item template_connectors template_cables item st = (r, st') →
  harness_rest (harness st') = harness_rest (harness st).
Proof.
  unfold generate_item, bind, get, raise, ret, on_harness, add_connector,
    add_cable, modify.
  destruct (designators_and_templates st !! item.1) as [template|];
    [|by intros [= _ <-]].
  destruct (dict_mem item.1 (connectors (harness st))); [by intros [= _ <-]|].
  destruct (dict_get template template_connectors) as [attribs|];
    [by intros [= _ <-]|].
  destruct (dict_mem item.1 (cables (harness st))); [by intros [= _ <-]|].
  destruct (dict_get template template_cables) as [attribs|]; by intros [= _ <-].
Qed.

Lemma connect_item_rest connection index_item item st r st' :
  connect_item connection index_item item st = (r, st') →
  harness_rest (harness st') = harness_rest (harness st).
Proof.
  unfold connect_item, bind, get, ret, raise, modify, on_harness.
  destruct (dict_mem _ _); [|by intros [= _ <-]].
  destruct index_item as [|i]; [|destruct (connection !! i) as [[n p]|]]; simpl;
    try (by intros [= _ <-]);
    (destruct (decide _); [|destruct (connection !! _) as [[n' p']|]]); simpl;
    try (by intros [= _ <-]);
    (destruct (connect _ _ _ _ _ _ _) as [r' h'] eqn:Hconnect;
     intros [= _ <-]; simpl; by eapply connect_rest).
Qed.

Lemma parse_connection_set_rest x cs st r st' :
  parse_connection_set template_connectors template_cables cs st = (r, st') →
  harness_rest (harness st) = x → harness_rest (harness st') = x.
Proof.
  unfold parse_connection_set.
  intros [(e & Hc & _)|(n & s1 & Hc & Hrest)]%bind_inv H0.
  { unfold lift in Hc. by injection Hc as _ <-. }
  unfold lift in Hc. injection Hc as _ <-.
  assert (∀ r2 s2, map_m resolve_entry (normalize n cs) st = (r2, s2) →
            harness_rest (harness s2) = x) as Hresolve.
  { intros r2 s2 Hres.
    eapply (map_m_preserves (λ s, harness_rest (harness s) = x));
      [|exact Hres|done].
    intros w s r' s' _ Hw Hs. by rewrite (resolve_entry_harness _ _ _ _ Hw). }
  apply bind_inv in Hrest as [(e & Hres & _)|(ws & s2 & Hres & Hrest)];
    [by eapply Hresolve|].
  assert (harness_rest (harness s2) = x) as H2 by (by eapply Hresolve).
  apply bind_inv in Hrest as [(e & Hexp & _)|(rows & s3 & Hexp & Hrest)].
  { unfold lift in Hexp. by injection Hexp as _ <-. }
  unfold lift in Hexp. injection Hexp as _ <-.
  assert (∀ r4 s4,
            for_each rows
              (λ e, for_each e (generate_item template_connectors template_cables))
              s2 = (r4, s4) →
            harness_rest (harness s4) = x) as Hgenerate.
  { intros r4 s4 Hgen.
    eapply (for_each_preserves (λ s, harness_rest (harness s) = x));
      [|exact Hgen|done].
    intros row s r' s' _ Hrow Hs.
    eapply (for_each_preserves (λ s, harness_rest (harness s) = x));
      [|exact Hrow|done].
    intros item s5 r5 s5' _ Hitem Hs5.
    by rewrite (generate_item_rest _ _ _ _ Hitem). }
  apply bind_inv in Hrest as [(e & Hgen & _)|([] & s4 & Hgen & Hrest)];
    [by eapply Hgenerate|].
  assert (harness_rest (harness s4) = x) as H4 by (by eapply Hgenerate).
  eapply (for_each_preserves (λ s, harness_rest (harness s) = x));
    [|exact Hrest|done].
  intros connection s r' s' _ Hchain Hs. unfold connect_chain in Hchain.
  eapply (for_each_preserves (λ s, harness_rest (harness s) = x));
    [|exact Hchain|done].
  intros [i item] s5 r5 s5' _ Hitem Hs5.
  by rewrite (connect_item_rest _ _ _ _ _ _ Hitem).
Qed.

Lemma add_bom_items_run (bom_items : list (BomItem Qty)) st :
  ∃ st', for_each bom_items (λ line, on_harness (add_bom_item line)) st
         = (inr tt, st')
         ∧ mates (harness st') = mates (harness st)
         ∧ _bom (harness st') = _bom (harness st)
         ∧ additional_bom_items (harness st')
           = additional_bom_items (harness st) ++ bom_items.
Proof.
  revert st. induction bom_items as [|line bom_items IH]; intros st; simpl.
  - exists st. by rewrite app_nil_r.
  - unfold bind at 1. unfold on_harness at 1, add_bom_item, modify. simpl.
    destruct (IH (set_harness
                    (mkHarness Qty (connectors (harness st)) (cables (harness st))
                       (mates (harness st)) (_bom (harness st))
                       (additional_bom_items (harness st) ++ [line])) st))
      as (st' & Hrun & Hmates & Hbom & Hitems).
    exists st'. split; [exact Hrun|]. simpl in *.
    by rewrite Hmates, Hbom, Hitems, <-(assoc_L (++)).
Qed.

(** X12. What the statements of [parse] that build the harness leave
    alone. These statements, lines 100 to 221, are all that a pass does to
    the harness when there is no file output and neither a PNG nor an SVG
    among the return types; the rendering, which calls [bom] and fills the
    cache, comes after them and is no part of this statement. They never
    touch the mates or the BOM cache of the harness, whether they run to
    the end or raise. The freestanding BOM lines of the document are
    appended, in their order, after those the harness has, when the
    connection sets went through; when a connection set raises, none of
    them is added. *)
Theorem parse_rest_of_harness connection_sets bom_items st r st' :
  parse template_connectors template_cables connection_sets bom_items st = (r, st') →
  mates (harness st') = mates (harness st)
  ∧ _bom (harness st') = _bom (harness st)
  ∧ (r = inr tt →
       additional_bom_items (harness st')
       = additional_bom_items (harness st) ++ bom_items)
  ∧ (r ≠ inr tt →
       additional_bom_items (harness st') = additional_bom_items (harness st)).
Proof.
  unfold parse.
  assert (∀ r1 s1,
            parse_connections template_connectors template_cables connection_sets st
            = (r1, s1) →
            harness_rest (harness s1) = harness_rest (harness st)) as Hsets.
  { intros r1 s1 Hrun. unfold parse_connections in Hrun.
    eapply (for_each_preserves
              (λ s, harness_rest (harness s) = harness_rest (harness st)));
      [|exact Hrun|done].
    intros cs s r' s' _. apply parse_connection_set_rest. }
  intros [(e & Hrun & ->)|([] & s1 & Hrun & Hitems)]%bind_inv.
  - injection (Hsets _ _ Hrun) as Hm Hb Hi. by rewrite Hm, Hb, Hi.
  - injection (Hsets _ _ Hrun) as Hm Hb Hi.
    destruct (add_bom_items_run bom_items s1) as (s2 & Hrun2 & Hm2 & Hb2 & Hi2).
    rewrite Hrun2 in Hitems. injection Hitems as <- <-.
    by rewrite Hm2, Hb2, Hi2, Hm, Hb, Hi.
Qed.

End parse_rest.

(** ** More on the BOM *)

Section bom_more.
Context {Qty : Type} {num : PyNumber Qty}.
Context (clean_whitespace : string → string).
Context (index_if_list : cable_attr → nat → pyval).
Context (connector_qty_multiplier : Connector.t Qty → pyval → Qty).
Context (cable_qty_multiplier : Cable.t Qty → pyval → Qty).
Implicit Types (h : Harness Qty) (entries : list (BomEntry.t Qty))
  (rows : list (BomRow.t Qty)).

Lemma bom_table_length entries :
  (length (bom_table entries) ≤ length entries)%nat
  ∧ (bom_table entries = [] ↔ entries = []).
Proof.
  pose proof (bom_table_keys entries) as Hkeys.
  assert (length (bom_table entries)
          = length (fromkeys (bom_types_group <$> entries))) as Hlen.
  { by rewrite <-Hkeys, length_fmap. }
  split.
  - rewrite Hlen, <-(length_fmap bom_types_group entries).
    apply submseteq_length, NoDup_submseteq; [apply fromkeys_NoDup|].
    intros k. by rewrite fromkeys_elem.
  - split.
    + intros Hnil. rewrite Hnil in Hlen. simpl in Hlen.
      destruct entries as [|e entries]; [done|]. exfalso.
      assert (bom_types_group e ∈ fromkeys (bom_types_group <$> e :: entries)) as Hin
        by (apply fromkeys_elem; left).
      destruct (fromkeys _); [by apply elem_of_nil in Hin | done].
    + by intros ->.
Qed.

Lemma set_bom_same h : set_bom (_bom h) h = h.
Proof. by destruct h. Qed.

(** X13. A BOM is never larger than the list of entries it is made of, and
    it is empty only when there are none. An empty BOM is not kept: the
    call leaves the harness as it is, cache included, and the next call
    computes again. *)
Theorem bom_size h entries :
  _bom h = [] →
  bom_entries index_if_list connector_qty_multiplier cable_qty_multiplier h
  = inr entries →
  ∃ rows,
    bom clean_whitespace index_if_list connector_qty_multiplier
      cable_qty_multiplier h = (inr rows, set_bom rows h)
    ∧ (length rows ≤ length entries)%nat
    ∧ (rows = [] ↔ entries = [])
    ∧ (entries = [] → set_bom rows h = h).
Proof.
  intros Hcache Hentries. eexists. split; [by apply bom_fresh|].
  destruct (bom_table_length (clean_entry clean_whitespace <$> entries))
    as [Hlen Hnil].
  rewrite length_fmap in Hlen. split; [done|]. split.
  - rewrite Hnil. split; [by intros ?%fmap_nil_inv | by intros ->].
  - intros ->. simpl. rewrite <-Hcache at 1. apply set_bom_same.
Qed.

(** The row of a key of the table. *)
Lemma bom_table_find entries (target : group_key) :
  target ∈ bom_types_group <$> entries →
  ∃ row, head (filter (λ entry, row_key entry = target) (bom_table entries))
         = Some row
         ∧ row ∈ bom_table entries ∧ row_key row = target
         ∧ 1 ≤ BomRow.id row ≤ Z.of_nat (length (bom_table entries)).
Proof.
  intros Hkey.
  assert (target ∈ row_key <$> bom_table entries) as Hrow.
  { rewrite bom_table_keys. by apply fromkeys_elem. }
  apply list_elem_of_fmap in Hrow as (r0 & Hr0 & Hin).
  assert (r0 ∈ filter (λ entry, row_key entry = target) (bom_table entries)) as Hfil
    by (by apply list_elem_of_filter).
  destruct (filter _ (bom_table entries)) as [|row rest] eqn:Hfilter;
    [by apply elem_of_nil in Hfil|].
  assert (row ∈ filter (λ entry, row_key entry = target) (bom_table entries)) as Hrowin
    by (rewrite Hfilter; left).
  apply list_elem_of_filter in Hrowin as [Hk Hrowin].
  exists row. split; [done|]. split; [done|]. split; [done|].
  assert (BomRow.id row ∈ BomRow.id <$> bom_table entries) as Hid
    by (by apply list_elem_of_fmap_2).
  unfold bom_table in Hid at 1. rewrite number_rows_ids in Hid.
  apply list_elem_of_fmap in Hid as (i & -> & Hi). apply elem_of_seq in Hi.
  unfold bom_table at 1. lia.
Qed.


(** X14. Every entry of the harness is found in its BOM: looked up with
    the item, unit, manufacturer, mpn and pn of an entry as the harness
    holds them, before any cleaning, [get_bom_index] returns the id of the
    row whose key is the cleaned key of the entry, a number from 1 to the
    number of rows. *)
Theorem get_bom_index_entry h entries e :
  _bom h = [] →
  bom_entries index_if_list connector_qty_multiplier cable_qty_multiplier h
  = inr entries →
  e ∈ entries →
  ∃ rows row,
    get_bom_index clean_whitespace index_if_list connector_qty_multiplier
      cable_qty_multiplier (BomEntry.item e) (BomEntry.unit e)
      (BomEntry.manufacturer e) (BomEntry.mpn e) (BomEntry.pn e) h
    = (inr (Some (BomRow.id row)), set_bom rows h)
    ∧ row ∈ rows
    ∧ row_key row = bom_types_group (clean_entry clean_whitespace e)
    ∧ 1 ≤ BomRow.id row ≤ Z.of_nat (length rows).
Proof.
  intros Hcache Hentries He.
  destruct (bom_table_find (clean_entry clean_whitespace <$> entries)
              (bom_types_group (clean_entry clean_whitespace e)))
    as (row & Hhead & Hin & Hkey & Hid).
  { by apply list_elem_of_fmap_2, list_elem_of_fmap_2. }
  exists (bom_table (clean_entry clean_whitespace <$> entries)), row.
  split; [|done].
  unfold get_bom_index, bind. rewrite (bom_fresh _ _ _ _ _ _ Hcache Hentries).
  unfold ret. do 2 f_equal.
  change (clean_whitespace (BomEntry.item e), clean_val clean_whitespace (BomEntry.unit e),
          clean_val clean_whitespace (BomEntry.manufacturer e),
          clean_val clean_whitespace (BomEntry.mpn e),
          clean_val clean_whitespace (BomEntry.pn e))
    with (bom_types_group (clean_entry clean_whitespace e)).
  by rewrite Hhead.
Qed.


End bom_more.

(** ** [Harness.bom_list] *)

Section bom_list_facts.
Context {Qty : Type} {num : PyNumber Qty}.
Context (clean_whitespace : string → string).
Context (index_if_list : cable_attr → nat → pyval).
Context (connector_qty_multiplier : Connector.t Qty → pyval → Qty).
Context (cable_qty_multiplier : Cable.t Qty → pyval → Qty).
Implicit Types (h : Harness Qty) (rows : list (BomRow.t Qty)).

Lemma bom_list_keys_eq rows :
  bom_list_keys rows
  = ["id"; "item"; "qty"; "unit"; "designators"]
    ++ (if existsb (λ r, truthy (BomRow.pn r)) rows then ["pn"] else [])
    ++ (if existsb (λ r, truthy (BomRow.manufacturer r)) rows
        then ["manufacturer"] else [])
    ++ (if existsb (λ r, truthy (BomRow.mpn r)) rows then ["mpn"] else []).
Proof.
  unfold bom_list_keys. simpl.
  change (λ entry, truthy (optional_field "pn" entry))
    with (λ r : BomRow.t Qty, truthy (BomRow.pn r)).
  change (λ entry, truthy (optional_field "manufacturer" entry))
    with (λ r : BomRow.t Qty, truthy (BomRow.manufacturer r)).
  change (λ entry, truthy (optional_field "mpn" entry))
    with (λ r : BomRow.t Qty, truthy (BomRow.mpn r)).
  by destruct (existsb (λ r, truthy (BomRow.pn r)) rows),
    (existsb (λ r, truthy (BomRow.manufacturer r)) rows),
    (existsb (λ r, truthy (BomRow.mpn r)) rows).
Qed.

Lemma bom_list_inr h rows h' :
  bom clean_whitespace index_if_list connector_qty_multiplier
    cable_qty_multiplier h = (inr rows, h') →
  bom_list clean_whitespace index_if_list connector_qty_multiplier
    cable_qty_multiplier h
  = (inr (((λ k, CVal (PStr (bom_heading k))) <$> bom_list_keys rows)
          :: (bom_list_line (bom_list_keys rows) <$> rows)), h').
Proof. intros Hbom. unfold bom_list, bind. by rewrite Hbom. Qed.


(** X17. The optional columns are there exactly when they are used: the
    header of the table holds P/N, Manufacturer or MPN if and only if some
    row of the BOM has a value of that field that [any] counts as true:
    not [None], not the empty string and not 0. *)
Theorem bom_list_optional_columns h rows h' :
  bom clean_whitespace index_if_list connector_qty_multiplier
    cable_qty_multiplier h = (inr rows, h') →
  ∃ header lines,
    bom_list clean_whitespace index_if_list connector_qty_multiplier
      cable_qty_multiplier h = (inr (header :: lines), h')
    ∧ (CVal (PStr "P/N") ∈ header ↔ ∃ r, r ∈ rows ∧ truthy (BomRow.pn r) = true)
    ∧ (CVal (PStr "Manufacturer") ∈ header
       ↔ ∃ r, r ∈ rows ∧ truthy (BomRow.manufacturer r) = true)
    ∧ (CVal (PStr "MPN") ∈ header ↔ ∃ r, r ∈ rows ∧ truthy (BomRow.mpn r) = true).
Proof.
  intros Hbom. do 2 eexists. split; [by apply bom_list_inr|].
  rewrite bom_list_keys_eq.
  assert (∀ f : BomRow.t Qty → bool,
            existsb f rows = true ↔ ∃ r, r ∈ rows ∧ f r = true) as Hex.
  { intros f. rewrite existsb_exists. by setoid_rewrite list_elem_of_In. }
  rewrite <-!Hex.
  destruct (existsb (λ r, truthy (BomRow.pn r)) rows),
    (existsb (λ r, truthy (BomRow.manufacturer r)) rows),
    (existsb (λ r, truthy (BomRow.mpn r)) rows);
    cbn [fmap list_fmap app];
    change (bom_heading "id") with "Id";
    change (bom_heading "item") with "Item";
    change (bom_heading "qty") with "Qty";
    change (bom_heading "unit") with "Unit";
    change (bom_heading "designators") with "Designators";
    try change (bom_heading "pn") with "P/N";
    try change (bom_heading "manufacturer") with "Manufacturer";
    try change (bom_heading "mpn") with "MPN";
    rewrite !elem_of_cons, !elem_of_nil; naive_solver.
Qed.

End bom_list_facts.

(** ** The ports of [create_graph] *)

Section ports_facts.
Context {Qty : Type} {num : PyNumber Qty}.
Implicit Types (self : Harness Qty) (c : Connection) (p : Ports).

Lemma for_each_app {S A} (l1 l2 : list A) (body : A → M S unit) s :
  for_each (l1 ++ l2) body s = (for_each l1 body ;; for_each l2 body)%py s.
Proof.
  revert s. induction l1 as [|x l1 IH]; intros s; simpl; [reflexivity|].
  unfold bind. destruct (body x s) as [[e|[]] s1]; [reflexivity|].
  rewrite IH. reflexivity.
Qed.

Lemma prepare_ports_flat self p :
  prepare_ports self p = for_each (all_connections self) (prepare_connection self) p.
Proof.
  unfold prepare_ports, all_connections.
  revert p. induction (dict_values (cables self)) as [|cable l IH]; intros p; [done|].
  simpl. rewrite for_each_app. unfold bind.
  destruct (for_each (Cable.connections cable) _ p) as [[e|[]] p1]; [done|]. apply IH.
Qed.

#[local] Instance end_known_dec self name pin : Decision (end_known self name pin).
Proof.
  unfold end_known. destruct (decide (pin = PNone)) as [->|Hpin]; [by left|].
  destruct name as [n|]; [|right; intros Hk; by destruct (Hk Hpin) as (? & ? & _)].
  destruct (dict_get n (connectors self)) as [c|] eqn:Hn.
  - left. intros _. exists n. by rewrite Hn.
  - right. intros Hk. destruct (Hk Hpin) as (m & [= <-] & Hm).
    rewrite Hn in Hm. by destruct Hm.
Qed.

#[local] Instance ends_known_dec self c : Decision (ends_known self c).
Proof. unfold ends_known. apply _. Qed.

Lemma connector_key_inr self name pin :
  pin ≠ PNone → end_known self name pin → ∃ n, name = Some n ∧ connector_key self name = inr n.
Proof.
  intros Hpin Hknown. destruct (Hknown Hpin) as (n & -> & Hn).
  exists n. split; [done|]. simpl. by rewrite (proj2 (dict_mem_true _ _) Hn).
Qed.

Lemma connector_key_inl self name pin :
  pin ≠ PNone → ¬ end_known self name pin → connector_key self name = inl KeyError.
Proof.
  intros Hpin Hunknown. destruct name as [n|]; simpl; [|done].
  destruct (dict_mem n (connectors self)) eqn:Hmem; [|done].
  destruct Hunknown. intros _. exists n. split; [done|]. by apply dict_mem_true.
Qed.

Lemma prepare_connection_outcome self c p r p' :
  prepare_connection self c p = (r, p') →
  (ends_known self c →
     r = inr tt
     ∧ (∀ n, n ∈ ports_right p'
             ↔ n ∈ ports_right p ∨ (from_pin c ≠ PNone ∧ from_name c = Some n))
     ∧ (∀ n, n ∈ ports_left p'
             ↔ n ∈ ports_left p ∨ (to_pin c ≠ PNone ∧ to_name c = Some n)))
  ∧ (¬ ends_known self c → r = inl KeyError).
Proof.
  unfold prepare_connection, ends_known, bind, lift, modify, ret.
  destruct (decide (from_pin c ≠ PNone)) as [Hfrom|Hfrom%dec_stable];
    destruct (decide (to_pin c ≠ PNone)) as [Hto|Hto%dec_stable].
  - destruct (decide (end_known self (from_name c) (from_pin c))) as [Hf|Hf];
      [|rewrite (connector_key_inl _ _ _ Hfrom Hf); intros [= <- <-];
        split; [by intros [? _] | done]].
    destruct (connector_key_inr _ _ _ Hfrom Hf) as (n1 & Hn1 & ->).
    destruct (decide (end_known self (to_name c) (to_pin c))) as [Ht|Ht];
      [|rewrite (connector_key_inl _ _ _ Hto Ht); intros [= <- <-];
        split; [by intros [_ ?] | done]].
    destruct (connector_key_inr _ _ _ Hto Ht) as (n2 & Hn2 & ->).
    intros [= <- <-]. split; [|by intros []]. intros _. simpl.
    split; [done|]. rewrite Hn1, Hn2. split; intros n; set_solver.
  - destruct (decide (end_known self (from_name c) (from_pin c))) as [Hf|Hf];
      [|rewrite (connector_key_inl _ _ _ Hfrom Hf); intros [= <- <-];
        split; [by intros [? _] | done]].
    destruct (connector_key_inr _ _ _ Hfrom Hf) as (n1 & Hn1 & ->).
    intros [= <- <-]. split.
    + intros _. simpl. split; [done|]. rewrite Hn1. split; intros n; set_solver.
    + intros Hno. destruct Hno. split; [done|]. by intros ?.
  - destruct (decide (end_known self (to_name c) (to_pin c))) as [Ht|Ht];
      [|rewrite (connector_key_inl _ _ _ Hto Ht); intros [= <- <-];
        split; [by intros [_ ?] | done]].
    destruct (connector_key_inr _ _ _ Hto Ht) as (n2 & Hn2 & ->).
    intros [= <- <-]. split.
    + intros _. simpl. split; [done|]. rewrite Hn2. split; intros n; set_solver.
    + intros Hno. destruct Hno. split; [by intros ?|done].
  - intros [= <- <-]. split.
    + intros _. split; [done|]. split; intros n; set_solver.
    + intros Hno. destruct Hno. split; by intros ?.
Qed.

Lemma prepare_loop_outcome self (cs : list Connection) p r p' :
  for_each cs (prepare_connection self) p = (r, p') →
  (Forall (ends_known self) cs →
     r = inr tt
     ∧ (∀ n, n ∈ ports_right p'
             ↔ n ∈ ports_right p
               ∨ ∃ c, c ∈ cs ∧ from_pin c ≠ PNone ∧ from_name c = Some n)
     ∧ (∀ n, n ∈ ports_left p'
             ↔ n ∈ ports_left p
               ∨ ∃ c, c ∈ cs ∧ to_pin c ≠ PNone ∧ to_name c = Some n))
  ∧ (¬ Forall (ends_known self) cs → r = inl KeyError).
Proof.
  revert p. induction cs as [|c cs IH]; intros p; simpl.
  - intros [= <- <-]. split; [|by intros []]. intros _. split; [done|].
    split; intros n; set_solver.
  - intros [(e & Hc & ->)|([] & p1 & Hc & Hrest)]%bind_inv.
    + destruct (prepare_connection_outcome _ _ _ _ _ Hc) as [Hok Hko].
      split.
      * intros [Hknown _]%Forall_cons. by destruct (Hok Hknown) as [? _].
      * intros Hno. destruct (decide (ends_known self c)) as [Hknown|Hunknown];
          [by destruct (Hok Hknown) as [? _] | by apply Hko].
    + destruct (prepare_connection_outcome _ _ _ _ _ Hc) as [Hok Hko].
      destruct (decide (ends_known self c)) as [Hknown|Hunknown];
        [|by specialize (Hko Hunknown)].
      destruct (Hok Hknown) as (_ & Hright & Hleft).
      destruct (IH _ Hrest) as [IHok IHko]. split.
      * intros [_ Hall]%Forall_cons. destruct (IHok Hall) as (-> & Hr & Hl).
        split; [done|]. split; intros n.
        -- rewrite Hr, Hright. setoid_rewrite elem_of_cons. naive_solver.
        -- rewrite Hl, Hleft. setoid_rewrite elem_of_cons. naive_solver.
      * intros Hno. apply IHko. intros Hall. apply Hno. by constructor.
Qed.

(** X18. The first loop of [create_graph] needs every wired end to name a
    connector. If every connection record of every cable has, at each end
    that has a pin, the name of a connector of the harness, the loop runs
    to its end and flags exactly these connectors: right ports for the
    names at the from-ends, left ports for the names at the to-ends. If
    one record has an end with a pin whose name is no connector of the
    harness, the loop raises [KeyError]. *)
Theorem prepare_ports_outcome self p r p' :
  prepare_ports self p = (r, p') →
  (Forall (ends_known self) (all_connections self) →
     r = inr tt
     ∧ (∀ n, n ∈ ports_right p'
             ↔ n ∈ ports_right p
               ∨ ∃ c, c ∈ all_connections self
                      ∧ from_pin c ≠ PNone ∧ from_name c = Some n)
     ∧ (∀ n, n ∈ ports_left p'
             ↔ n ∈ ports_left p
               ∨ ∃ c, c ∈ all_connections self
                      ∧ to_pin c ≠ PNone ∧ to_name c = Some n))
  ∧ (¬ Forall (ends_known self) (all_connections self) → r = inl KeyError).
Proof. rewrite prepare_ports_flat. apply prepare_loop_outcome. Qed.

Lemma dict_get_values {V} k (v : V) (d : dict V) :
  dict_get k d = Some v → v ∈ dict_values d.
Proof.
  unfold dict_values. induction d as [|[k0 v0] d IH]; simpl; [done|].
  destruct (decide (k0 = k)).
  - intros [= ->]. by left.
  - intros Hk. right. by apply IH.
Qed.

(** X19. A failure that [connect] defers to [create_graph]. An end that is
    given with a pin and names no connector of the harness is not checked
    by [connect]; when the call returns, the record it has added makes the
    first loop of [create_graph] on the new harness raise [KeyError],
    whatever the flags set before. *)
Theorem connect_unknown_end_breaks_ports n from_pin via_name via_pin to_name
    to_pin (h h' : Harness Qty) p :
  dict_get n (connectors h) = None →
  from_pin ≠ PNone →
  connect (Some n) from_pin via_name via_pin to_name to_pin h = (inr tt, h') →
  (prepare_ports h' p).1 = inl KeyError.
Proof.
  intros Hn Hpin (fp & tp & fp' & tp' & cable & H1 & H2 & Hcable & ->)%connect_inr.
  rewrite connect_end_unknown in H1 by (by intros ? [= <-]).
  injection H1 as <- <-.
  assert (fp' = from_pin) as ->.
  { destruct to_name as [m|]; [|by injection H2 as <- _].
    destruct (dict_get m (connectors h)) as [c|] eqn:Hm.
    - destruct (connect_end_inr _ _ _ _ _ _ _ _ _ _ Hm H2)
        as [(_ & -> & _)|(q & _ & -> & _)]; [done|].
      rewrite decide_False; [done|]. intros [= ->]. congruence.
    - rewrite connect_end_unknown in H2 by (by intros ? [= <-]).
      by injection H2 as <- _. }
  destruct (prepare_ports _ p) as [r p'] eqn:Hrun. simpl.
  rewrite prepare_ports_flat in Hrun.
  apply prepare_loop_outcome in Hrun as [_ Hko]. apply Hko.
  rewrite Forall_forall. intros Hall.
  destruct (Hall (mkConnection (Some n) from_pin via_pin to_name tp'))
    as [Hfrom _].
  - unfold all_connections. apply (proj2 (concat_elem _ _)).
    exists (Cable.connections
              (Cable.connect cable (Some n) from_pin via_pin to_name tp')).
    split.
    + apply list_elem_of_fmap_2. apply (dict_get_values via_name). simpl.
      apply dict_get_set_eq.
    + simpl. apply elem_of_app. right. by left.
  - destruct (Hfrom Hpin) as (m & [= <-] & Hm). simpl in Hm.
    rewrite Hn in Hm. by destruct Hm.
Qed.

End ports_facts.

(** ** The further properties on the scenarios *)

Section further_scenarios.
Import Scenario.

#[local] Abbreviation entries_of h :=
  (match bom_entries index_or_none multiplier_one multiplier_one h with
   | inr entries => entries
   | inl _ => []
   end).
#[local] Abbreviation bom_rows h :=
  (match (bom clean_id index_or_none multiplier_one multiplier_one h).1 with
   | inr rows => rows
   | inl _ => []
   end).

(** A call with the label ["A"] at the from-end and an open to-end: the
    keys of the cables and the connectors are those before the call. *)
Lemma connect_appends_one_witness :
  let h' := (connect (Some "X1") (PStr "A") "W1" (PInt 1) None PNone
               label_harness).2 in
  connect (Some "X1") (PStr "A") "W1" (PInt 1) None PNone label_harness
  = (inr tt, h')
  ∧ (cables h').*1 = (cables label_harness).*1
  ∧ connectors h' = connectors label_harness.
Proof.
  intros h'. split; [reflexivity|].
  destruct (connect_appends_one (Some "X1") (PStr "A") "W1" (PInt 1) None PNone
              label_harness h' eq_refl) as (_ & _ & Hkeys & Hconnectors & _).
  done.
Defined.

(** The from-end names [Y], which is no connector of the harness, with a
    pin [7] that no connector has: the call returns and records both. *)
Lemma connect_unchecked_ends_witness :
  dict_get "Y" (connectors label_harness) = None
  ∧ connect (Some "Y") (PInt 7) "W1" (PInt 1) None PNone label_harness
    = (inr tt,
       set_cables (dict_set "W1"
         (with_connections (cable "W1" 2)
            [mkConnection (Some "Y") (PInt 7) (PInt 1) None PNone])
         (cables label_harness)) label_harness).
Proof.
  split; [reflexivity|].
  apply (connect_unchecked_ends (Some "Y") (PInt 7) "W1" (PInt 1) None PNone
           label_harness (cable "W1" 2)).
  - intros n [= <-]. reflexivity.
  - intros n [=].
  - reflexivity.
Defined.

(** The label ["A"] at the from-end: the pin recorded is a pin of [X1]. *)
Lemma connect_records_pins_witness :
  ∃ cable fp tp,
    dict_get "W1"
      (cables (connect (Some "X1") (PStr "A") "W1" (PInt 1) None PNone
                 label_harness).2)
    = Some (with_connections cable
              (Cable.connections cable
               ++ [mkConnection (Some "X1") fp (PInt 1) None tp]))
    ∧ fp ∈ Connector.pins labelled.
Proof.
  destruct (connect_records_pins (Some "X1") (PStr "A") "W1" (PInt 1) None PNone
              label_harness
              (connect (Some "X1") (PStr "A") "W1" (PInt 1) None PNone
                 label_harness).2 eq_refl)
    as (cable & fp & tp & Hrec & Hfrom & _).
  exists cable, fp, tp. split; [exact Hrec|].
  apply (Hfrom "X1" labelled); reflexivity.
Defined.

(** Both ends at [X1], the from-end by the label ["A"] of pin 1, the
    to-end by the label ["1"] of pin 2: the record holds pin 2 twice. *)
Lemma connect_same_connector_labels_witness :
  connect (Some "X1") (PStr "A") "W1" (PInt 1) (Some "X1") (PStr "1")
    label_harness
  = (inr tt,
     set_cables (dict_set "W1"
       (with_connections (cable "W1" 2)
          [mkConnection (Some "X1") (PInt 2) (PInt 1) (Some "X1") (PInt 2)])
       (cables label_harness)) label_harness).
Proof.
  apply (connect_same_connector_labels "X1" labelled (PStr "A") (PStr "1")
           0%nat 1%nat (PInt 1) (PInt 2) "W1" (PInt 1) (cable "W1" 2)
           label_harness);
    try reflexivity; by apply py_in_false.
Defined.

(** [X2] is bound to [X1]; the token [Y.X2] raises and [X1.X3] adds a
    binding, and [X2] is bound to [X1] after both. *)
Lemma resolve_designator_keeps_bindings_witness :
  let st := (resolve_designator "X1.X2" (@ParseState_init Z)).2 in
  (resolve_designator "Y.X2" st).1 = inl DesignatorConflict
  ∧ designators_and_templates (resolve_designator "Y.X2" st).2 !! "X2" = Some "X1"
  ∧ designators_and_templates (resolve_designator "X1.X3" st).2 !! "X2" = Some "X1".
Proof.
  intros st. split; [reflexivity|]. split.
  - apply (resolve_designator_keeps_bindings "Y.X2" st "X2" "X1"). reflexivity.
  - apply (resolve_designator_keeps_bindings "X1.X3" st "X2" "X1"). reflexivity.
Defined.

(** The token [X1.X2] on the empty registry. *)
Lemma resolve_designator_binds_witness :
  designators_and_templates (resolve_designator "X1.X2" (@ParseState_init Z)).2
    !! "X2" = Some "X1".
Proof.
  destruct (resolve_designator_binds "X1.X2" (@ParseState_init Z) "X1" "X2"
              (resolve_designator "X1.X2" (@ParseState_init Z)).2 eq_refl)
    as (_ & Hdot & _).
  apply Hdot. reflexivity.
Defined.

(** The run [X.], [Y.], [X.]: the first and the third designator differ. *)
Lemma auto_designators_unique_witness :
  (map_m resolve_designator ["X."; "Y."; "X."] (@ParseState_init Z)).1
  = inr [("X", "_X_1"); ("Y", "_Y_1"); ("X", "_X_2")]%string
  ∧ ∃ di dj,
      [("X", "_X_1"); ("Y", "_Y_1"); ("X", "_X_2")]%string !! 0%nat = Some ("X"%string, di)
      ∧ [("X", "_X_1"); ("Y", "_Y_1"); ("X", "_X_2")]%string !! 2%nat = Some ("X"%string, dj)
      ∧ di ≠ dj.
Proof.
  split; [reflexivity|].
  apply (auto_designators_unique (Qty:=Z) ["X."; "Y."; "X."]
           [("X", "_X_1"); ("Y", "_Y_1"); ("X", "_X_2")]%string
           (map_m resolve_designator ["X."; "Y."; "X."] (@ParseState_init Z)).2
           0%nat 2%nat "X" "X"); try reflexivity.
  lia.
Defined.

(** Two rows of two items. *)
Lemma zip_star_lookup_witness :
  zip_star [[1; 2]; [3; 4]] !! 0%nat = Some [1; 3]
  ∧ length (zip_star [[1; 2]; [3; 4]]) = 2%nat.
Proof.
  destruct (zip_star_lookup [[1; 2]; [3; 4]] 0%nat ltac:(discriminate))
    as [Hchain Hlen].
  split; [exact Hchain|]. apply Hlen. by repeat constructor.
Defined.

(** The scenario document parsed a second time, on the harness of the
    first pass. *)
Lemma parse_extends_witness :
  let st := (parse template_connectors template_cables [connection_set] []
               (@ParseState_init Z)).2 in
  let st' := (parse template_connectors template_cables [connection_set] [] st).2 in
  harness_extends (harness st) (harness st')
  ∧ length <$> (Cable.connections <$> dict_get "W1" (cables (harness st)))
    = Some 2%nat
  ∧ length <$> (Cable.connections <$> dict_get "W1" (cables (harness st')))
    = Some 4%nat.
Proof.
  intros st st'. split; [|split; reflexivity].
  apply (parse_extends template_connectors template_cables [connection_set] []
           st (parse template_connectors template_cables [connection_set] [] st).1
           st').
  reflexivity.
Defined.

(** A chain through the cable of the scenario, on the harness of the
    first pass: one operation, for the position of [W1]. *)
Lemma connect_chain_links_witness :
  let st := (parse template_connectors template_cables [connection_set] []
               (@ParseState_init Z)).2 in
  let connection := [("X1", PInt 2); ("W1", PInt 1); ("X2", PInt 2)]%string in
  connect_calls (connect_chain connection st).2
  = connect_calls st
    ++ [(Some "X1", PInt 2, "W1", PInt 1, Some "X2", PInt 2)]%string.
Proof.
  intros st connection.
  apply (connect_chain_links connection st (connect_chain connection st).2).
  reflexivity.
Defined.

(** The BOM of three connectors and a cable: four entries, three rows. *)
Lemma bom_size_witness :
  length (entries_of bom_harness) = 4%nat
  ∧ ∃ rows,
      bom clean_id index_or_none multiplier_one multiplier_one bom_harness
      = (inr rows, set_bom rows bom_harness)
      ∧ (length rows ≤ 4)%nat.
Proof.
  split; [reflexivity|].
  destruct (bom_size clean_id index_or_none multiplier_one multiplier_one
              bom_harness (entries_of bom_harness) eq_refl eq_refl)
    as (rows & Hrun & Hlen & _).
  exists rows. split; [exact Hrun | exact Hlen].
Defined.

(** The entry of the connector [B], with the part number [P2]. *)
Lemma get_bom_index_entry_witness :
  ∃ rows row,
    get_bom_index clean_id index_or_none multiplier_one multiplier_one
      "Connector, D-Sub, 2 pins" PNone PNone PNone (PStr "P2") bom_harness
    = (inr (Some (BomRow.id row)), set_bom rows bom_harness)
    ∧ row ∈ rows
    ∧ 1 ≤ BomRow.id row ≤ Z.of_nat (length rows).
Proof.
  destruct (get_bom_index_entry clean_id index_or_none multiplier_one
              multiplier_one bom_harness (entries_of bom_harness)
              (BomEntry.mk Z "Connector, D-Sub, 2 pins" 1 PNone (DStr "B")
                 PNone PNone (PStr "P2")) eq_refl eq_refl)
    as (rows & row & Hrun & Hin & _ & Hid).
  - right. left.
  - exists rows, row. split; [exact Hrun|]. split; [exact Hin | exact Hid].
Defined.



(** The connectors have a part number and nothing has a manufacturer: the
    table has the column P/N and no column Manufacturer. *)
Lemma bom_list_optional_columns_witness :
  ∃ header lines,
    bom_list clean_id index_or_none multiplier_one multiplier_one bom_harness
    = (inr (header :: lines),
       (bom clean_id index_or_none multiplier_one multiplier_one bom_harness).2)
    ∧ CVal (PStr "P/N") ∈ header
    ∧ CVal (PStr "Manufacturer") ∉ header.
Proof.
  destruct (bom_list_optional_columns clean_id index_or_none multiplier_one
              multiplier_one bom_harness (bom_rows bom_harness)
              (bom clean_id index_or_none multiplier_one multiplier_one
                 bom_harness).2 eq_refl)
    as (header & lines & Hrun & Hpn & Hmanufacturer & _).
  exists header, lines. split; [exact Hrun|]. split.
  - apply Hpn.
    exists (BomRow.mk Z "Connector, D-Sub, 2 pins" 1 PNone ["B"] PNone PNone
              (PStr "P2") 3).
    split; [|reflexivity]. do 2 right. left.
  - intros (r & Hr & Htruthy)%Hmanufacturer. revert Hr Htruthy.
    let computed := eval vm_compute in (bom_rows bom_harness) in
    change (bom_rows bom_harness) with computed.
    rewrite !elem_of_cons, elem_of_nil. by intros [->|[->|[->|[]]]].
Defined.

(** After one connect operation with a pin at the from-end only: the loop
    runs to its end and flags [X1] for right ports, and nothing for left
    ports. *)
Lemma prepare_ports_outcome_witness :
  let self := (connect (Some "X1") (PStr "A") "W1" (PInt 1) None PNone
                 label_harness).2 in
  let run := prepare_ports self (mkPorts ∅ ∅) in
  run.1 = inr tt
  ∧ (∀ n, n ∈ ports_right run.2 ↔ n = "X1")
  ∧ (∀ n, n ∉ ports_left run.2).
Proof.
  intros self run.
  destruct (prepare_ports_outcome self (mkPorts ∅ ∅) run.1 run.2
              (surjective_pairing run)) as [Hok _].
  assert (all_connections self
          = [mkConnection (Some "X1") (PInt 1) (PInt 1) None PNone]) as Hall
    by reflexivity.
  destruct Hok as (Hr & Hright & Hleft).
  { rewrite Hall. constructor; [|constructor]. split.
    - intros _. exists "X1". split; [reflexivity|]. by eexists.
    - intros Hpin. by destruct Hpin. }
  split; [exact Hr|]. split; intros n.
  - rewrite Hright, Hall. split.
    + intros [Hn|(c & ->%list_elem_of_singleton & _ & [= <-])];
        [by apply elem_of_empty in Hn | done].
    + intros ->. right. eexists. split; [by left|]. done.
  - rewrite Hleft, Hall.
    intros [Hn|(c & ->%list_elem_of_singleton & Hpin & _)];
      [by apply elem_of_empty in Hn | by destruct Hpin].
Defined.

(** The from-end names [Y] with the pin [1]: [connect] returns, and the
    loop over the ports of the new harness raises. *)
Lemma connect_unknown_end_breaks_ports_witness :
  let run := connect (Some "Y") (PInt 1) "W1" (PInt 1) None PNone label_harness in
  run.1 = inr tt ∧ (prepare_ports run.2 (mkPorts ∅ ∅)).1 = inl KeyError.
Proof.
  intros run. split; [reflexivity|].
  apply (connect_unknown_end_breaks_ports "Y" (PInt 1) "W1" (PInt 1) None PNone
           label_harness run.2 (mkPorts ∅ ∅));
    [reflexivity | discriminate | reflexivity].
Defined.

(** The scenario document with one freestanding BOM line, up to the
    return of the harness. *)
Lemma parse_rest_of_harness_witness :
  let line := mkBomItem Z (Some "Label") (Some 2) PNone DNone PNone PNone PNone in
  let run := parse template_connectors template_cables [connection_set] [line]
               (@ParseState_init Z) in
  run.1 = inr tt
  ∧ mates (harness run.2) = []
  ∧ _bom (harness run.2) = []
  ∧ additional_bom_items (harness run.2) = [line].
Proof.
  intros line run.
  destruct (parse_rest_of_harness template_connectors template_cables
              [connection_set] [line] (@ParseState_init Z) run.1 run.2
              (surjective_pairing run)) as (Hmates & Hbom & Hitems & _).
  split; [reflexivity|]. split; [exact Hmates|]. split; [exact Hbom|].
  apply Hitems. reflexivity.
Defined.

End further_scenarios.
